(** * caf2: the task-graph engine of calcfw (caf2/caf.py)

    A shallow embedding of the engine's object graph.  Python objects live
    in a store and are referred to by identity; methods are state
    transformers that may raise.  The development follows the order of
    the Python module: values and the JSON text layer, hashing, the [State]
    enumeration, the future kernel, the three hashed futures ([Template],
    [Indexor], [Task]), [extract_tasks], and the [Session]. *)

From Stdlib Require Import ZArith Ascii String List Lia Bool.
From Stdlib Require Import DecimalString DecimalZ Permutation Sorted.
From stdpp Require Import base option list gmap strings.

Set Warnings "-register-all".
Local Open Scope string_scope.
Local Open Scope Z_scope.

(* ===================================================================== *)
(** ** Python values                                                      *)
(* ===================================================================== *)

(** Object identities: an index into the store. *)
Abbreviation ref := nat.

(** The values rules compute with: what [json] can write, plus handles to
    futures ([VFut]) embedded anywhere.  Dictionaries keep insertion order
    (an association list); a Python [dict] has no duplicate keys, which is
    the side condition [wf_val] below.  Strings are sequences of code
    points below 256; numbers are integers (floats are not modelled). *)
Inductive pyval : Type :=
| VNone
| VBool (b : bool)
| VInt (z : Z)
| VStr (s : string)
| VList (l : list pyval)
| VDict (d : list (string * pyval))
| VFut (r : ref).

(** Subscript keys ([obj[key]]). *)
Inductive key : Type :=
| KInt (z : Z)
| KStr (s : string).

(** Exceptions: the [CafError] family of the module and the builtin ones
    its statements can raise. *)
Inductive exn : Type :=
| FutureNotDone
| TaskHasNotRun
| TaskIsDone
| NoActiveSession
| ArgNotInSession
| AssertionError
| KeyError
| IndexError
| TypeError
| JSONDecodeError
| RuleError (msg : string).

(* ===================================================================== *)
(** ** class State(Enum)                                                  *)
(* ===================================================================== *)

Module State.

(** The names bound in the class body, in definition order. *)
Inductive name : Type :=
| UNREGISTERED | PENDING | READY | RUNNING | HAS_RUN | DONE.

Definition value (n : name) : Z :=
  match n with
  | UNREGISTERED => -1
  | PENDING => 0
  | READY => 1
  | RUNNING => 2
  | HAS_RUN => 3
  | DONE => 1
  end.

Definition body : list name :=
  [UNREGISTERED; PENDING; READY; RUNNING; HAS_RUN; DONE].

(** [Enum] semantics: a name whose value is already taken by an earlier
    name does not create a member, it becomes an alias of that member.
    [member n] is the object the attribute access [State.n] evaluates to,
    identified by the canonical name ([.name]) of the member. *)
Definition member (n : name) : name :=
  match List.find (fun m => Z.eqb (value m) (value n)) body with
  | Some m => m
  | None => n
  end.

(** The members of the enumeration (what [list(State)] iterates over). *)
Definition members : list name :=
  List.filter (fun n => match member n, n with
                        | UNREGISTERED, UNREGISTERED | PENDING, PENDING
                        | READY, READY | RUNNING, RUNNING
                        | HAS_RUN, HAS_RUN | DONE, DONE => true
                        | _, _ => false
                        end) body.

(** [a is b] on enumeration members. *)
Definition is_ (a b : name) : bool :=
  Z.eqb (value a) (value b).

End State.

(* ===================================================================== *)
(** ** The JSON text layer ([json.dumps], [json.loads])                   *)
(* ===================================================================== *)

Module Json.

Definition dquote : ascii := "034"%char.
Definition bslash : ascii := "092"%char.
Definition code (c : ascii) : N := N_of_ascii c.
Definition chr (n : N) : ascii := ascii_of_N n.
Definition str1 (c : ascii) : string := String c EmptyString.

Definition hexdigit (n : N) : ascii :=
  if (n <? 10)%N then chr (48 + n) else chr (87 + n).

(** [ESCAPE_ASCII] and [ESCAPE_DCT] of [json.encoder]: the backslash, the
    quote and every character outside [' '..'~'] are replaced. *)
Definition escape_char (c : ascii) : string :=
  let n := code c in
  if (n =? 92)%N then String bslash (str1 bslash)
  else if (n =? 34)%N then String bslash (str1 dquote)
  else if (n =? 8)%N then String bslash "b"
  else if (n =? 12)%N then String bslash "f"
  else if (n =? 10)%N then String bslash "n"
  else if (n =? 13)%N then String bslash "r"
  else if (n =? 9)%N then String bslash "t"
  else if ((32 <=? n) && (n <=? 126))%N then str1 c
  else String bslash ("u00" ++ String (hexdigit (n / 16)) (str1 (hexdigit (n mod 16)))).

Fixpoint escape (s : string) : string :=
  match s with
  | EmptyString => EmptyString
  | String c s' => escape_char c ++ escape s'
  end.

(** [py_encode_basestring_ascii]. *)
Definition encode_basestring_ascii (s : string) : string :=
  String dquote (escape s ++ str1 dquote).

(** [int.__repr__]. *)
Definition int_repr (z : Z) : string :=
  NilZero.string_of_int (Z.to_int z).

(** [sorted(dct.items())]: keys are distinct strings, so the order is the
    one of the keys, compared code point by code point. *)
Fixpoint insert_item {A} (k : string) (v : A) (l : list (string * A))
  : list (string * A) :=
  match l with
  | [] => [(k, v)]
  | (k', v') :: l' =>
      if String.leb k k' then (k, v) :: l
      else (k', v') :: insert_item k v l'
  end.

Fixpoint sorted_items {A} (l : list (string * A)) : list (string * A) :=
  match l with
  | [] => []
  | (k, v) :: l' => insert_item k v (sorted_items l')
  end.

(** [''.join] of the chunks of a list or a dictionary, the first item
    without separator. *)
Fixpoint join (sep : string) (l : list string) : string :=
  match l with
  | [] => EmptyString
  | [x] => x
  | x :: l' => x ++ sep ++ join sep l'
  end.

Definition item_separator : string := ", ".
Definition key_separator : string := ": ".

Definition sequence {A} (l : list (option A)) : option (list A) :=
  List.fold_right (fun o acc => match o, acc with
                                | Some x, Some xs => Some (x :: xs)
                                | _, _ => None
                                end) (Some []) l.

(** [JSONEncoder(sort_keys=True, default=dflt).encode]: [_iterencode] with
    the default separators [(', ', ': ')].  [dflt r] is the text that
    encoding [default(o)] gives for the object [o] of identity [r], or
    [None] where [default] raises [TypeError]. *)
Fixpoint dumps (dflt : ref -> option string) (v : pyval) : option string :=
  match v with
  | VNone => Some "null"
  | VBool true => Some "true"
  | VBool false => Some "false"
  | VInt z => Some (int_repr z)
  | VStr s => Some (encode_basestring_ascii s)
  | VList l =>
      match sequence (List.map (dumps dflt) l) with
      | Some chunks => Some ("[" ++ join item_separator chunks ++ "]")
      | None => None
      end
  | VDict d =>
      match sequence (List.map (fun kv => match dumps dflt (snd kv) with
                                          | Some t => Some (fst kv, t)
                                          | None => None
                                          end) d) with
      | Some items =>
          Some ("{" ++ join item_separator
                         (List.map (fun kt => encode_basestring_ascii (fst kt)
                                              ++ key_separator ++ snd kt)
                                   (sorted_items items)) ++ "}")
      | None => None
      end
  | VFut r => dflt r
  end.

(** *** Decoding ([json.decoder], [json.scanner]) *)

(** [WHITESPACE_STR = ' \t\n\r']. *)
Definition is_ws (c : ascii) : bool :=
  let n := code c in
  ((n =? 32) || (n =? 9) || (n =? 10) || (n =? 13))%N.

Fixpoint skip_ws (s : string) : string :=
  match s with
  | String c s' => if is_ws c then skip_ws s' else s
  | EmptyString => s
  end.

Definition is_digit (c : ascii) : bool :=
  let n := code c in ((48 <=? n) && (n <=? 57))%N.

Definition hexval (c : ascii) : option N :=
  let n := code c in
  if ((48 <=? n) && (n <=? 57))%N then Some (n - 48)%N
  else if ((97 <=? n) && (n <=? 102))%N then Some (n - 87)%N
  else if ((65 <=? n) && (n <=? 70))%N then Some (n - 55)%N
  else None.

(** [BACKSLASH] of [json.decoder]. *)
Definition unescape (e : ascii) : option ascii :=
  let n := code e in
  if (n =? 34)%N then Some dquote
  else if (n =? 92)%N then Some bslash
  else if (n =? 47)%N then Some "/"%char
  else if (n =? 98)%N then Some (chr 8)
  else if (n =? 102)%N then Some (chr 12)
  else if (n =? 110)%N then Some (chr 10)
  else if (n =? 114)%N then Some (chr 13)
  else if (n =? 116)%N then Some (chr 9)
  else None.

(** [py_scanstring] (strict), started after the opening quote: the decoded
    string and the text after the closing quote.  A [\uXXXX] escape of a
    code point above 255 is outside the modelled strings. *)
Fixpoint scanstring (s : string) : option (string * string) :=
  match s with
  | EmptyString => None
  | String c s' =>
      if (code c =? 34)%N then Some (EmptyString, s')
      else if (code c =? 92)%N then
        match s' with
        | EmptyString => None
        | String e s'' =>
            if (code e =? 117)%N then
              match s'' with
              | String h1 (String h2 (String h3 (String h4 r))) =>
                  match hexval h1, hexval h2, hexval h3, hexval h4 with
                  | Some a, Some b, Some c', Some d =>
                      let n := (((a * 16 + b) * 16 + c') * 16 + d)%N in
                      if (n <? 256)%N then
                        match scanstring r with
                        | Some (t, rest) => Some (String (chr n) t, rest)
                        | None => None
                        end
                      else None
                  | _, _, _, _ => None
                  end
              | _ => None
              end
            else
              match unescape e with
              | Some c' =>
                  match scanstring s'' with
                  | Some (t, rest) => Some (String c' t, rest)
                  | None => None
                  end
              | None => None
              end
        end
      else if (code c <? 32)%N then None
      else
        match scanstring s' with
        | Some (t, rest) => Some (String c t, rest)
        | None => None
        end
  end.

(** The digits at the head of [s] and what follows them. *)
Fixpoint span_digits (s : string) : string * string :=
  match s with
  | String c s' =>
      if is_digit c then
        let (ds, rest) := span_digits s' in (String c ds, rest)
      else (EmptyString, s)
  | EmptyString => (EmptyString, s)
  end.

Definition starts_float (s : string) : bool :=
  match s with
  | String c _ => ((code c =? 46) || (code c =? 101) || (code c =? 69))%N
  | EmptyString => false
  end.

(** [NUMBER_RE] followed by [int(integer)].  The expression matches [0] or
    a digit string without leading zero; a longer match of digits after a
    leading [0] can only be followed by an error, which is returned here.
    A fraction or an exponent makes a float, which is not modelled. *)
Definition scan_number (s : string) : option (Z * string) :=
  let (sign, s1) := match s with
                    | String c s' => if (code c =? 45)%N then (true, s') else (false, s)
                    | EmptyString => (false, s)
                    end in
  let (ds, rest) := span_digits s1 in
  match ds with
  | EmptyString => None
  | String d ds' =>
      if ((code d =? 48)%N && negb (String.eqb ds' EmptyString))%bool then None
      else if starts_float rest then None
      else
        match NilZero.uint_of_string ds with
        | Some u => Some (if sign then Z.opp (Z.of_uint u) else Z.of_uint u, rest)
        | None => None
        end
  end.

Fixpoint strip_prefix (p s : string) : option string :=
  match p, s with
  | EmptyString, _ => Some s
  | String a p', String b s' => if Ascii.eqb a b then strip_prefix p' s' else None
  | _, EmptyString => None
  end.

(** [dict(pairs)]: a repeated key keeps its first position and takes the
    last value. *)
Fixpoint dict_set {A} (k : string) (v : A) (d : list (string * A))
  : list (string * A) :=
  match d with
  | [] => [(k, v)]
  | (k', v') :: d' =>
      if String.eqb k k' then (k, v) :: d' else (k', v') :: dict_set k v d'
  end.

Definition dict_of_pairs {A} (pairs : list (string * A)) : list (string * A) :=
  List.fold_left (fun d kv => dict_set (fst kv) (snd kv) d) pairs [].

(** [scan_once], [JSONArray] and [JSONObject]; [fuel] bounds the nesting
    depth plus the number of items, the length of the text is enough. *)
Fixpoint scan_once (fuel : nat) (s : string) : option (pyval * string) :=
  match fuel with
  | O => None
  | S fuel' =>
      match s with
      | EmptyString => None
      | String c s' =>
          let n := code c in
          if (n =? 34)%N then
            match scanstring s' with
            | Some (t, rest) => Some (VStr t, rest)
            | None => None
            end
          else if (n =? 123)%N then
            let s1 := skip_ws s' in
            match s1 with
            | String c1 s2 =>
                if (code c1 =? 125)%N then Some (VDict [], s2)
                else if (code c1 =? 34)%N then
                  match scan_members fuel' s2 [] with
                  | Some (pairs, rest) => Some (VDict (dict_of_pairs pairs), rest)
                  | None => None
                  end
                else None
            | EmptyString => None
            end
          else if (n =? 91)%N then
            let s1 := skip_ws s' in
            match s1 with
            | String c1 s2 =>
                if (code c1 =? 93)%N then Some (VList [], s2)
                else
                  match scan_items fuel' s1 [] with
                  | Some (items, rest) => Some (VList items, rest)
                  | None => None
                  end
            | EmptyString => None
            end
          else if (n =? 110)%N then
            match strip_prefix "ull" s' with
            | Some rest => Some (VNone, rest)
            | None => None
            end
          else if (n =? 116)%N then
            match strip_prefix "rue" s' with
            | Some rest => Some (VBool true, rest)
            | None => None
            end
          else if (n =? 102)%N then
            match strip_prefix "alse" s' with
            | Some rest => Some (VBool false, rest)
            | None => None
            end
          else
            match scan_number s with
            | Some (z, rest) => Some (VInt z, rest)
            | None => None
            end
      end
  end
with scan_items (fuel : nat) (s : string) (acc : list pyval)
  : option (list pyval * string) :=
  match fuel with
  | O => None
  | S fuel' =>
      match scan_once fuel' s with
      | Some (v, rest) =>
          match skip_ws rest with
          | String c r =>
              if (code c =? 93)%N then Some (List.rev (v :: acc), r)
              else if (code c =? 44)%N then scan_items fuel' (skip_ws r) (v :: acc)
              else None
          | EmptyString => None
          end
      | None => None
      end
  end
with scan_members (fuel : nat) (s : string) (acc : list (string * pyval))
  : option (list (string * pyval) * string) :=
  match fuel with
  | O => None
  | S fuel' =>
      match scanstring s with
      | Some (k, rest) =>
          match skip_ws rest with
          | String c r =>
              if (code c =? 58)%N then
                match scan_once fuel' (skip_ws r) with
                | Some (v, rest') =>
                    match skip_ws rest' with
                    | String c' r' =>
                        if (code c' =? 125)%N then Some (List.rev ((k, v) :: acc), r')
                        else if (code c' =? 44)%N then
                          match skip_ws r' with
                          | String q r'' =>
                              if (code q =? 34)%N
                              then scan_members fuel' r'' ((k, v) :: acc)
                              else None
                          | EmptyString => None
                          end
                        else None
                    | EmptyString => None
                    end
                | None => None
                end
              else None
          | EmptyString => None
          end
      | None => None
      end
  end.

(** [json.loads]: leading whitespace, one value, trailing whitespace, end
    of text.  [None] is a text that is not read here: one that is not
    JSON, or JSON with a value outside [pyval] (a float, an escape of a
    code point above 255). *)
Definition loads (s : string) : option pyval :=
  match scan_once (S (String.length s)) (skip_ws s) with
  | Some (v, rest) =>
      match skip_ws rest with
      | EmptyString => Some v
      | String _ _ => None
      end
  | None => None
  end.

End Json.

(* ===================================================================== *)
(** ** Hashing                                                            *)
(* ===================================================================== *)

(** [hashlib.sha1(...).hexdigest()] is a parameter of the development. *)
Class Hashlib := sha1_hexdigest : string -> string.

(** [str.encode()]: UTF-8 of code points below 256. *)
Fixpoint str_encode (s : string) : string :=
  match s with
  | EmptyString => EmptyString
  | String c s' =>
      let n := Json.code c in
      if (n <? 128)%N then String c (str_encode s')
      else String (Json.chr (192 + n / 64)) (String (Json.chr (128 + n mod 64)) (str_encode s'))
  end.

Definition hash_text `{Hashlib} (text : string) : string :=
  sha1_hexdigest (str_encode text).

(* ===================================================================== *)
(** ** Functions, rules and rule bodies                                    *)
(* ===================================================================== *)

(** What the body of a rule does, as far as the engine can observe it:
    it calls rules (which creates tasks in the active session), subscripts
    futures (which creates indexors), and returns a value or raises. *)
Inductive prog : Type :=
| Return (v : pyval)
| Fail (msg : string)
| Call (rule_name : string) (args : list pyval) (k : ref -> prog)
| Subscript (fut : ref) (k : key) (cont : ref -> prog).

Record pyfunc : Type := {
  f_module : string;
  f_qualname : string;
  f_body : list pyval -> prog
}.

(** [Rule]: a function and the keyword arguments given to [rule(...)]. *)
Record Rule : Type := {
  _rfunc : pyfunc;
  _kw_default : option pyval;
  _kw_label : option string
}.

(** The names a rule body can call. *)
Class Globals := global_rule : string -> option Rule.

Definition get_fullname (obj : pyfunc) : string :=
  f_module obj ++ ":" ++ f_qualname obj.

(* ===================================================================== *)
(** ** The object store                                                   *)
(* ===================================================================== *)

(** The closures the module registers as callbacks. *)
Inductive callback : Type :=
| CbSubstitute              (* lambda tmpl: tmpl.set_result(tmpl.substitute()) *)
| CbResolve                 (* lambda idx: idx.set_result(idx.resolve()) *)
| CbSchedule (queue : nat)  (* schedule, closed over the queue of an eval *)
| CbChain (task : ref).     (* lambda fut: task.set_result(fut.result()) *)

(** The attributes of the three subclasses of [HashedFuture]. *)
Inductive variant : Type :=
| IsTemplate (_jsonstr : string) (_futures : gmap string ref)
| IsIndexor (_task : ref) (_keys : list key)
| IsTask (_args : list ref) (_func : pyfunc) (children : nat)
         (_future_result : option ref) (_default : option pyval)
         (_label : option string).

(** A future object: the attributes of [Future], the [_hashid] every
    subclass stores, and the subclass part.  [_pending] and [_children]
    are sets of object identities; they are kept as duplicate-free lists in
    insertion order (Python leaves the iteration order of a set open). *)
Record future : Type := {
  _pending : list ref;
  _children : list ref;
  _result : option pyval;
  _done_callbacks : list callback;
  _ready_callbacks : list callback;
  _registered : bool;
  _hashid : string;
  cls : variant
}.

Record session : Type := {
  _tasks : gmap string ref;
  _task_tape : option nat
}.

(** The store: future objects, list objects (task tapes), the deques of
    [eval] calls, session objects, and the class attribute
    [Session._active]. *)
Record world : Type := {
  heap : list future;
  lists : list (list ref);
  queues : list (list ref);
  sessions : list session;
  _active : option nat
}.

Definition empty_world : world :=
  {| heap := []; lists := []; queues := []; sessions := []; _active := None |}.

Definition set_heap (h : list future) (w : world) : world :=
  {| heap := h; lists := lists w; queues := queues w;
     sessions := sessions w; _active := _active w |}.
Definition set_lists (l : list (list ref)) (w : world) : world :=
  {| heap := heap w; lists := l; queues := queues w;
     sessions := sessions w; _active := _active w |}.
Definition set_queues (q : list (list ref)) (w : world) : world :=
  {| heap := heap w; lists := lists w; queues := q;
     sessions := sessions w; _active := _active w |}.
Definition set_sessions (s : list session) (w : world) : world :=
  {| heap := heap w; lists := lists w; queues := queues w;
     sessions := s; _active := _active w |}.
Definition set_active (a : option nat) (w : world) : world :=
  {| heap := heap w; lists := lists w; queues := queues w;
     sessions := sessions w; _active := a |}.

Definition with_pending (p : list ref) (f : future) : future :=
  {| _pending := p; _children := _children f; _result := _result f;
     _done_callbacks := _done_callbacks f; _ready_callbacks := _ready_callbacks f;
     _registered := _registered f; _hashid := _hashid f; cls := cls f |}.
Definition with_children (c : list ref) (f : future) : future :=
  {| _pending := _pending f; _children := c; _result := _result f;
     _done_callbacks := _done_callbacks f; _ready_callbacks := _ready_callbacks f;
     _registered := _registered f; _hashid := _hashid f; cls := cls f |}.
Definition with_result (r : option pyval) (f : future) : future :=
  {| _pending := _pending f; _children := _children f; _result := r;
     _done_callbacks := _done_callbacks f; _ready_callbacks := _ready_callbacks f;
     _registered := _registered f; _hashid := _hashid f; cls := cls f |}.
Definition with_done_callbacks (c : list callback) (f : future) : future :=
  {| _pending := _pending f; _children := _children f; _result := _result f;
     _done_callbacks := c; _ready_callbacks := _ready_callbacks f;
     _registered := _registered f; _hashid := _hashid f; cls := cls f |}.
Definition with_ready_callbacks (c : list callback) (f : future) : future :=
  {| _pending := _pending f; _children := _children f; _result := _result f;
     _done_callbacks := _done_callbacks f; _ready_callbacks := c;
     _registered := _registered f; _hashid := _hashid f; cls := cls f |}.
Definition with_registered (b : bool) (f : future) : future :=
  {| _pending := _pending f; _children := _children f; _result := _result f;
     _done_callbacks := _done_callbacks f; _ready_callbacks := _ready_callbacks f;
     _registered := b; _hashid := _hashid f; cls := cls f |}.
Definition with_future_result (fr : option ref) (f : future) : future :=
  {| _pending := _pending f; _children := _children f; _result := _result f;
     _done_callbacks := _done_callbacks f; _ready_callbacks := _ready_callbacks f;
     _registered := _registered f; _hashid := _hashid f;
     cls := match cls f with
            | IsTask a fn c _ d l => IsTask a fn c fr d l
            | v => v
            end |}.

(** *** Outcomes and the monad of methods *)

(** A pure computation returns, raises, or leaves the model ([Unmodelled]:
    the fuel of a bounded recursion ran out, or a Python behaviour that is
    not embedded was reached). *)
Inductive res (A : Type) : Type :=
| Val (a : A)
| Exc (e : exn)
| Unmodelled.
Arguments Val {A} a.
Arguments Exc {A} e.
Arguments Unmodelled {A}.

(** A method call ends by returning a value, by raising (the store keeps
    the effects made before the [raise]), or it leaves the model. *)
Inductive outcome (A : Type) : Type :=
| Ok (a : A) (w : world)
| Raise (e : exn) (w : world)
| Abort.
Arguments Ok {A} a w.
Arguments Raise {A} e w.
Arguments Abort {A}.

Definition M (A : Type) : Type := world -> outcome A.

Definition ret {A} (a : A) : M A := fun w => Ok a w.
Definition raise {A} (e : exn) : M A := fun w => Raise e w.
Definition abort {A} : M A := fun _ => Abort.
Definition bind {A B} (m : M A) (k : A -> M B) : M B :=
  fun w => match m w with
           | Ok a w' => k a w'
           | Raise e w' => Raise e w'
           | Abort => Abort
           end.

Notation "'let*' x ':=' c 'in' k" := (bind c (fun x => k))
  (at level 10, x pattern, c at level 100, k at level 200).
Notation "c ';;;' k" := (bind c (fun _ => k))
  (at level 100, k at level 200, right associativity).

Definition lift {A} (r : world -> res A) : M A :=
  fun w => match r w with
           | Val a => Ok a w
           | Exc e => Raise e w
           | Unmodelled => Abort
           end.

Definition assert (b : bool) : M unit :=
  if b then ret tt else raise AssertionError.

(** [for x in l: body(x)]. *)
Fixpoint for_each {A} (l : list A) (body : A -> M unit) : M unit :=
  match l with
  | [] => ret tt
  | x :: l' => body x ;;; for_each l' body
  end.

(** [[f(x) for x in l]]. *)
Fixpoint map_each {A B} (l : list A) (f : A -> M B) : M (list B) :=
  match l with
  | [] => ret []
  | x :: l' => let* y := f x in let* ys := map_each l' f in ret (y :: ys)
  end.

(** [try: body finally: handler]. *)
Definition try_finally {A} (body : M A) (handler : M unit) : M A :=
  fun w => match body w with
           | Ok a w' => (handler ;;; ret a) w'
           | Raise e w' => (handler ;;; raise e) w'
           | Abort => Abort
           end.

Definition get (r : ref) : M future :=
  fun w => match heap w !! r with
           | Some f => Ok f w
           | None => Abort
           end.

Definition update (r : ref) (g : future -> future) : M unit :=
  fun w => match heap w !! r with
           | Some f => Ok tt (set_heap (<[r := g f]> (heap w)) w)
           | None => Abort
           end.

(** Reading a component of the store. *)
Definition read {A} (g : world -> A) : M A :=
  fun w => Ok (g w) w.

(** A new, empty list object. *)
Definition new_list : M nat :=
  fun w => Ok (length (lists w)) (set_lists (lists w ++ [[]]) w).

Definition alloc (f : future) : M ref :=
  fun w => Ok (length (heap w)) (set_heap (heap w ++ [f]) w).

Definition set_add (x : ref) (l : list ref) : list ref :=
  if bool_decide (x ∈ l) then l else l ++ [x].

Definition set_remove (x : ref) (l : list ref) : list ref :=
  List.filter (fun y => negb (Nat.eqb x y)) l.

(* ===================================================================== *)
(** ** class Future                                                       *)
(* ===================================================================== *)

Definition Future_ready (f : future) : bool :=
  match _pending f with [] => true | _ => false end.

Definition Future_done (f : future) : bool :=
  match _result f with Some _ => true | None => false end.

(** [Future.__init__]: the attributes of a new future with the given
    parents; the subclass constructors complete and allocate the object. *)
Definition Future_init (parents : list ref) (hashid : string) (v : variant)
  : M future :=
  fun w =>
    let pending :=
      List.fold_left
        (fun acc fut =>
           match heap w !! fut with
           | Some pf => if Future_done pf then acc else set_add fut acc
           | None => acc
           end) parents [] in
    Ok {| _pending := pending; _children := []; _result := None;
          _done_callbacks := []; _ready_callbacks := [];
          _registered := false; _hashid := hashid; cls := v |} w.

Definition Future_add_child (self fut : ref) : M unit :=
  update self (fun f => with_children (set_add fut (_children f)) f).

(** [Future.register]. *)
Definition Future_register (self : ref) : M bool :=
  let* f := get self in
  if negb (_registered f) then
    update self (with_registered true) ;;;
    for_each (_pending f) (fun fut => Future_add_child fut self) ;;;
    ret true
  else ret false.

(** [Future.state]. *)
Definition Future_state (f : future) : State.name :=
  if Future_done f then State.member State.DONE
  else if Future_ready f then State.member State.READY
  else if _registered f then State.member State.PENDING
  else State.member State.UNREGISTERED.

Definition Future_add_done_callback (self : ref) (cb : callback) : M unit :=
  let* f := get self in
  assert (negb (Future_done f)) ;;;
  update self (fun f => with_done_callbacks (_done_callbacks f ++ [cb]) f).

(** [Task.has_run]. *)
Definition Task_has_run (f : future) : bool :=
  Future_done f ||
  match cls f with
  | IsTask _ _ _ (Some _) _ _ => true
  | _ => false
  end.

(** [state] as the object answers it: [Task.state] overrides
    [Future.state]. *)
Definition state (f : future) : State.name :=
  match cls f with
  | IsTask _ _ _ _ _ _ =>
      let st := Future_state f in
      if State.is_ st (State.member State.READY) && Task_has_run f
      then State.member State.HAS_RUN
      else st
  | _ => Future_state f
  end.

(** [obj[key]] on a value.  Results hold no future handles ([run_task]
    chains such a result instead of storing it), so the subscript of a
    handle found inside a result is not embedded. *)
Definition subscript (obj : pyval) (k : key) : res pyval :=
  match obj, k with
  | VList l, KInt i =>
      let n := Z.of_nat (length l) in
      let j := if i <? 0 then i + n else i in
      if (j <? 0) || (n <=? j) then Exc IndexError
      else match l !! Z.to_nat j with
           | Some v => Val v
           | None => Exc IndexError
           end
  | VList _, KStr _ => Exc TypeError
  | VDict d, KStr s =>
      match List.find (fun kv => String.eqb (fst kv) s) d with
      | Some kv => Val (snd kv)
      | None => Exc KeyError
      end
  | VDict _, KInt _ => Exc KeyError
  | VStr s, KInt i =>
      let n := Z.of_nat (String.length s) in
      let j := if i <? 0 then i + n else i in
      if (j <? 0) || (n <=? j) then Exc IndexError
      else match String.get (Z.to_nat j) s with
           | Some c => Val (VStr (String c EmptyString))
           | None => Exc IndexError
           end
  | VStr _, KStr _ => Exc TypeError
  | VFut _, _ => Unmodelled
  | _, _ => Exc TypeError
  end.

Fixpoint subscripts (obj : pyval) (keys : list key) : res pyval :=
  match keys with
  | [] => Val obj
  | k :: keys' =>
      match subscript obj k with
      | Val v => subscripts v keys'
      | Exc e => Exc e
      | Unmodelled => Unmodelled
      end
  end.

Definition res_bind {A B} (r : res A) (k : A -> res B) : res B :=
  match r with
  | Val a => k a
  | Exc e => Exc e
  | Unmodelled => Unmodelled
  end.

(** Left to right; the first failure is the one that surfaces. *)
Fixpoint res_sequence {A} (l : list (res A)) : res (list A) :=
  match l with
  | [] => Val []
  | r :: l' => res_bind r (fun x => res_bind (res_sequence l') (fun xs => Val (x :: xs)))
  end.

(** *** Decoding with classes

    Modelled from the spec: [ClassJSONDecoder] of [caf2/json_utils.py] is
    not among the sources.  Decoding parses the text and, whenever an
    object is tagged as a registered class, that is, it is of the form
    [{cls_tag: payload}], replaces it with what the decoder registered for
    the class returns on [payload].  The hook runs when an object is
    complete, so inner objects are replaced before outer ones. *)
Fixpoint decode_classes (classes : string -> option (pyval -> res pyval))
  (v : pyval) : res pyval :=
  match v with
  | VList l =>
      res_bind (res_sequence (List.map (decode_classes classes) l))
               (fun l' => Val (VList l'))
  | VDict d =>
      res_bind
        (res_sequence
           (List.map (fun kv => res_bind (decode_classes classes (snd kv))
                                         (fun y => Val (fst kv, y))) d))
        (fun d' =>
           match d' with
           | [(tag, payload)] =>
               match classes tag with
               | Some dec => dec payload
               | None => Val (VDict d')
               end
           | _ => Val (VDict d')
           end)
  | _ => Val v
  end.

(* ===================================================================== *)
(** ** Results: [Future.result], [default_result], [Template.substitute],
       [Indexor.resolve]                                                  *)
(* ===================================================================== *)

(** [Future.result], given what [self.default_result] does. *)
Definition result_with (default_result : ref -> pyval -> res pyval)
  (h : list future) (self : ref) (default : option pyval) : res pyval :=
  match h !! self with
  | None => Unmodelled
  | Some f =>
      match _result f, default with
      | Some v, _ => Val v
      | None, Some d => default_result self d
      | None, None => Exc FutureNotDone
      end
  end.

(** The decoder both classes get in [Template.substitute]:
    [lambda dct: self._futures[dct['hashid']].result(default)]. *)
Definition future_decoder (futures : gmap string ref)
  (result_of : ref -> res pyval) (dct : pyval) : res pyval :=
  res_bind (subscript dct (KStr "hashid"))
    (fun hv => match hv with
               | VStr hid =>
                   match futures !! hid with
                   | Some r => result_of r
                   | None => Exc KeyError
                   end
               | VList _ | VDict _ => Exc TypeError
               | VFut _ => Unmodelled
               | _ => Exc KeyError
               end).

(** [Template.substitute], given what [.result(default)] does on the
    embedded futures.  A text that [Json.loads] does not read is either
    not JSON, where Python raises [JSONDecodeError], or JSON outside the
    modelled values (a float, an escape of a code point above 255), which
    Python decodes: the two are not told apart, such a text leaves the
    model. *)
Definition Template_substitute_with (result_of : ref -> res pyval)
  (f : future) : res pyval :=
  match cls f with
  | IsTemplate jsonstr futures =>
      match Json.loads jsonstr with
      | Some v =>
          decode_classes
            (fun tag => if String.eqb tag "Task" || String.eqb tag "Indexor"
                        then Some (future_decoder futures result_of)
                        else None) v
      | None => Unmodelled
      end
  | _ => Unmodelled
  end.

(** [default_result] as the object answers it: [Future.default_result],
    [Template.default_result = substitute] and [Task.default_result].  The
    chain through [_future_result] and templates is followed [fuel]
    levels. *)
Fixpoint default_result (fuel : nat) (h : list future) (self : ref)
  (default : pyval) : res pyval :=
  match fuel with
  | O => Unmodelled
  | S n =>
      match h !! self with
      | None => Unmodelled
      | Some f =>
          match cls f with
          | IsTemplate _ _ =>
              Template_substitute_with
                (fun r => result_with (default_result n h) h r (Some default)) f
          | IsTask _ _ _ (Some fr) _ _ => default_result n h fr default
          | _ => Val default
          end
      end
  end.

Definition Future_result (fuel : nat) (self : ref) (default : option pyval)
  : world -> res pyval :=
  fun w => result_with (default_result fuel (heap w)) (heap w) self default.

(** [self.substitute()] without default. *)
Definition Template_substitute (self : ref) : world -> res pyval :=
  fun w =>
    match heap w !! self with
    | Some f =>
        Template_substitute_with
          (fun r => result_with (fun _ d => Val d) (heap w) r None) f
    | None => Unmodelled
    end.

(** [Indexor.resolve]. *)
Definition Indexor_resolve (self : ref) : world -> res pyval :=
  fun w =>
    match heap w !! self with
    | Some f =>
        match cls f with
        | IsIndexor task keys =>
            res_bind (result_with (fun _ d => Val d) (heap w) task None)
                     (fun obj => subscripts obj keys)
        | _ => Unmodelled
        end
    | None => Unmodelled
    end.

(* ===================================================================== *)
(** ** Completion: callbacks, [parent_done], [set_result]                  *)
(* ===================================================================== *)

(** [HashedDeque] of [caf2/collections.py] is not among the sources.
    Modelled from the spec: a FIFO queue of tasks with a membership test. *)
Definition schedule (queue : nat) (task : ref) : M unit :=
  fun w =>
    match queues w !! queue with
    | Some q =>
        if bool_decide (task ∈ q) then Ok tt w
        else Ok tt (set_queues (<[queue := (q ++ [task])%list]> (queues w)) w)
    | None => Abort
    end.

(** Calling a callback on [self]; [set_result] is the method as the target
    object answers it. *)
Definition invoke (set_result : ref -> pyval -> M unit) (cb : callback)
  (self : ref) : M unit :=
  match cb with
  | CbSubstitute =>
      let* v := lift (Template_substitute self) in set_result self v
  | CbResolve =>
      let* v := lift (Indexor_resolve self) in set_result self v
  | CbSchedule queue => schedule queue self
  | CbChain task =>
      let* v := lift (Future_result 0 self None) in set_result task v
  end.

(** [Future.parent_done]. *)
Definition Future_parent_done (set_result : ref -> pyval -> M unit)
  (self fut : ref) : M unit :=
  let* f := get self in
  (if bool_decide (fut ∈ _pending f)
   then update self (fun f => with_pending (set_remove fut (_pending f)) f)
   else raise KeyError) ;;;
  let* f := get self in
  if Future_ready f
  then for_each (_ready_callbacks f) (fun cb => invoke set_result cb self)
  else ret tt.

(** The two loops at the end of [Future.set_result]. *)
Definition Future_notify (set_result : ref -> pyval -> M unit) (self : ref)
  : M unit :=
  let* f := get self in
  for_each (_children f)
           (fun fut => Future_parent_done set_result fut self) ;;;
  let* f := get self in
  for_each (_done_callbacks f)
           (fun cb => invoke set_result cb self).

(** [Future.set_result]. *)
Definition Future_set_result (set_result : ref -> pyval -> M unit)
  (self : ref) (result : pyval) : M unit :=
  let* f := get self in
  assert (Future_ready f) ;;;
  assert (negb (Future_done f)) ;;;
  update self (with_result (Some result)) ;;;
  Future_notify set_result self.

(** [set_result] as the object answers it: [Future.set_result], and for a
    task [Task.set_result], which clears [_future_result] afterwards.  A
    completion cascades through children and callbacks; [fuel] bounds the
    depth of the cascade. *)
Fixpoint set_result (fuel : nat) (self : ref) (result : pyval) : M unit :=
  match fuel with
  | O => abort
  | S n =>
      Future_set_result (set_result n) self result ;;;
      let* f := get self in
      match cls f with
      | IsTask _ _ _ _ _ _ => update self (with_future_result None)
      | _ => ret tt
      end
  end.

(** [Future.add_ready_callback]. *)
Definition Future_add_ready_callback (fuel : nat) (self : ref) (cb : callback)
  : M unit :=
  let* f := get self in
  if Future_ready f then invoke (set_result fuel) cb self
  else update self (fun f => with_ready_callbacks (_ready_callbacks f ++ [cb]) f).

(* ===================================================================== *)
(** ** class HashedFuture, class Template                                  *)
(* ===================================================================== *)

(** [register] as the object answers it: [HashedFuture.register] (which is
    [Future.register] and a log line) and, for a template,
    [Template.register], which goes on to register the pending futures. *)
Fixpoint register (fuel : nat) (self : ref) : M bool :=
  match fuel with
  | O => abort
  | S n =>
      let* f := get self in
      match cls f with
      | IsTemplate _ _ =>
          let* wired := Future_register self in
          if wired then
            let* f := get self in
            for_each (_pending f) (fun fut => register n fut ;;; ret tt) ;;;
            ret true
          else ret false
      | _ => Future_register self
      end
  end.

(** The order in which a set is iterated, which Python leaves open: any
    arrangement of the elements.  The development is parametric in it
    where the outcome can depend on it, which is where a dictionary is
    built from the set of futures of a template. *)
Class SetOrder := {
  set_iter : list ref -> list ref;
  set_iter_perm : forall l, Permutation (set_iter l) l
}.

(** [{fut.hashid: fut for fut in futures}], with [futures] in the order
    of the iteration: of two futures with the same hashid, the one that
    comes later in the iteration stays. *)
Definition futures_dict (h : list future) (futures : list ref) : gmap string ref :=
  List.fold_left
    (fun m fut => match h !! fut with
                  | Some f => <[_hashid f := fut]> m
                  | None => m
                  end) futures ∅.

(** [Template.__init__]. *)
Definition Template_init `{Hashlib} `{SO : SetOrder} (fuel : nat) (jsonstr : string)
  (futures : list ref) : M ref :=
  let* h := read heap in
  let* f := Future_init futures ("{}" ++ hash_text jsonstr)
                        (IsTemplate jsonstr (futures_dict h (set_iter futures))) in
  let* self := alloc f in
  Future_add_ready_callback fuel self CbSubstitute ;;;
  ret self.

Definition Template_has_futures (f : future) : bool :=
  match cls f with
  | IsTemplate _ futures => negb (bool_decide (futures = ∅))
  | _ => false
  end.

(** Modelled from the spec: [ClassJSONEncoder] of [caf2/json_utils.py] is
    not among the sources.  Every value whose runtime type is a registered
    class is replaced by the object [{cls_tag: payload}], where [payload]
    is what the encoder registered for the class returns, and is collected
    on the tape.  [Template.from_object] registers [Task] and [Indexor],
    both with [lambda fut: {'hashid': fut.hashid}]. *)
Definition class_default (h : list future) (r : ref) : option string :=
  match h !! r with
  | Some f =>
      let payload := VDict [("hashid", VStr (_hashid f))] in
      match cls f with
      | IsTask _ _ _ _ _ _ => Json.dumps (fun _ => None) (VDict [("Task", payload)])
      | IsIndexor _ _ => Json.dumps (fun _ => None) (VDict [("Indexor", payload)])
      | IsTemplate _ _ => None
      end
  | None => None
  end.

(** The futures met while encoding, each once (the tape is a set). *)
Fixpoint tape_of (v : pyval) (tape : list ref) : list ref :=
  match v with
  | VList l => List.fold_left (fun t x => tape_of x t) l tape
  | VDict d => List.fold_left (fun t kv => tape_of (snd kv) t) d tape
  | VFut r => set_add r tape
  | _ => tape
  end.

(** [Template.from_object]. *)
Definition Template_from_object `{Hashlib} `{SO : SetOrder} (fuel : nat) (obj : pyval) : M ref :=
  assert (match obj with VFut _ => false | _ => true end) ;;;
  let* jsonstr := lift (fun w => match Json.dumps (class_default (heap w)) obj with
                                 | Some t => Val t
                                 | None => Exc TypeError
                                 end) in
  Template_init fuel jsonstr (tape_of obj []).

(* ===================================================================== *)
(** ** class Indexor                                                      *)
(* ===================================================================== *)

(** [str(key)]. *)
Definition str_of_key (k : key) : string :=
  match k with
  | KInt z => Json.int_repr z
  | KStr s => s
  end.

(** ['/'.join(['@' + task.hashid, *map(str, keys)])]. *)
Definition Indexor_hashid (task_hashid : string) (keys : list key) : string :=
  Json.join "/" (("@" ++ task_hashid) :: List.map str_of_key keys).

(** [Indexor.__init__]. *)
Definition Indexor_init (fuel : nat) (task : ref) (keys : list key) : M ref :=
  let* tf := get task in
  let* f := Future_init [task] (Indexor_hashid (_hashid tf) keys)
                        (IsIndexor task keys) in
  let* self := alloc f in
  Future_add_ready_callback fuel self CbResolve ;;;
  ret self.

(** [Indexor.__getitem__] and [Task.__getitem__]. *)
Definition getitem (fuel : nat) (self : ref) (k : key) : M ref :=
  let* f := get self in
  match cls f with
  | IsIndexor task keys => Indexor_init fuel task (keys ++ [k])%list
  | IsTask _ _ _ _ _ _ => Indexor_init fuel self [k]
  | IsTemplate _ _ => raise TypeError
  end.

(** The expression [self[k1]...[kn]]. *)
Fixpoint getitems (fuel : nat) (self : ref) (keys : list key) : M ref :=
  match keys with
  | [] => ret self
  | k :: keys' =>
      let* idx := getitem fuel self k in
      getitems fuel idx keys'
  end.

(* ===================================================================== *)
(** ** class Task                                                         *)
(* ===================================================================== *)

(** The text of [Task.spec] from the function and the hashids of the
    arguments: [json.dumps([get_fullname(func), *hashids], sort_keys=True)]. *)
Definition spec_text (func : pyfunc) (hashids : list string) : string :=
  match Json.dumps (fun _ => None)
                   (VList (VStr (get_fullname func) :: List.map VStr hashids)) with
  | Some t => t
  | None => EmptyString
  end.

Definition hashids_of (h : list future) (l : list ref) : list string :=
  List.map (fun r => match h !! r with
                     | Some f => _hashid f
                     | None => EmptyString
                     end) l.

(** [spec] as the object answers it. *)
Definition spec (h : list future) (f : future) : string :=
  match cls f with
  | IsTask args func _ _ _ _ => spec_text func (hashids_of h args)
  | IsTemplate jsonstr _ => jsonstr
  | IsIndexor _ _ => _hashid f
  end.

(** [arg if isinstance(arg, HashedFuture) else Template.from_object(arg)]. *)
Definition promote `{Hashlib} `{SO : SetOrder} (fuel : nat) (arg : pyval) : M ref :=
  match arg with
  | VFut r => get r ;;; ret r
  | _ => Template_from_object fuel arg
  end.

(** The hashid an argument has once it is promoted. *)
Definition arg_hashid `{Hashlib} (h : list future) (arg : pyval) : option string :=
  match arg with
  | VFut r => option_map _hashid (h !! r)
  | _ => option_map (fun jsonstr => "{}" ++ hash_text jsonstr)
                    (Json.dumps (class_default h) arg)
  end.

(** [Task.__init__]. *)
Definition Task_init `{Hashlib} `{SO : SetOrder} (fuel : nat) (func : pyfunc) (args : list pyval)
  (default : option pyval) (label : option string) : M ref :=
  let* _args := map_each args (promote fuel) in
  let* h := read heap in
  let hashid := hash_text (spec_text func (hashids_of h _args)) in
  let* children := new_list in
  let* f := Future_init _args hashid
                        (IsTask _args func children None default label) in
  alloc f.

Definition Task_set_future_result (self fut : ref) : M unit :=
  update self (with_future_result (Some fut)).

(** [Task.future_result]. *)
Definition Task_future_result (self : ref) : M ref :=
  let* f := get self in
  if negb (Task_has_run f) then raise TaskHasNotRun
  else if Future_done f then
    (match cls f with
     | IsTask _ _ _ None _ _ => raise TaskIsDone
     | _ => raise AssertionError
     end)
  else match cls f with
       | IsTask _ _ _ (Some fr) _ _ => ret fr
       | _ => raise AssertionError
       end.

Definition is_task (f : future) : bool :=
  match cls f with IsTask _ _ _ _ _ _ => true | _ => false end.

(* ===================================================================== *)
(** ** extract_tasks                                                      *)
(* ===================================================================== *)

(** The [while queue] loop of [extract_tasks]; a future can sit in the
    queue several times, [fuel] bounds the number of iterations. *)
Fixpoint extract_tasks_loop (fuel : nat) (h : list future)
  (queue visited tasks : list ref) : res (list ref) :=
  match queue with
  | [] => Val tasks
  | fut :: queue' =>
      match fuel with
      | O => Unmodelled
      | S n =>
          match h !! fut with
          | None => Unmodelled
          | Some f =>
              let visited' := set_add fut visited in
              let tasks' := if is_task f then set_add fut tasks else tasks in
              let queue'' :=
                (queue' ++ List.filter (fun parent => negb (bool_decide (parent ∈ visited')))
                                       (_pending f))%list in
              extract_tasks_loop n h queue'' visited' tasks'
          end
      end
  end.

Definition extract_tasks (fuel : nat) (fut : ref) : world -> res (list ref) :=
  fun w => extract_tasks_loop fuel (heap w) [fut] [] [].

(* ===================================================================== *)
(** ** class Session                                                      *)
(* ===================================================================== *)

Definition get_session (self : nat) : M session :=
  fun w => match sessions w !! self with
           | Some s => Ok s w
           | None => Abort
           end.

Definition update_session (self : nat) (g : session -> session) : M unit :=
  fun w => match sessions w !! self with
           | Some s => Ok tt (set_sessions (<[self := g s]> (sessions w)) w)
           | None => Abort
           end.

Definition with_tasks (t : gmap string ref) (s : session) : session :=
  {| _tasks := t; _task_tape := _task_tape s |}.
Definition with_task_tape (t : option nat) (s : session) : session :=
  {| _tasks := _tasks s; _task_tape := t |}.

(** [Session.__init__]. *)
Definition Session_init : M nat :=
  fun w => Ok (length (sessions w))
              (set_sessions (sessions w ++ [{| _tasks := ∅; _task_tape := None |}]) w).

(** [Session.__enter__]. *)
Definition Session_enter (self : nat) : M nat :=
  fun w => match _active w with
           | None => Ok self (set_active (Some self) w)
           | Some _ => Raise AssertionError w
           end.

(** [Session.__exit__]. *)
Definition Session_exit (self : nat) : M unit :=
  (fun w => Ok tt (set_active None w)) ;;;
  update_session self (with_tasks ∅).

(** [Session.active]. *)
Definition Session_active : M nat :=
  fun w => match _active w with
           | Some s => Ok s w
           | None => Raise NoActiveSession w
           end.

(** [Session.__contains__]: [task.hashid in self._tasks]. *)
Definition Session_contains (self : nat) (task : ref) : M bool :=
  let* s := get_session self in
  let* f := get task in
  ret (bool_decide (is_Some (_tasks s !! _hashid f))).

(** [tape.append(task)] on a list object. *)
Definition list_append (tape : nat) (task : ref) : M unit :=
  fun w => match lists w !! tape with
           | Some l => Ok tt (set_lists (<[tape := (l ++ [task])%list]> (lists w)) w)
           | None => Abort
           end.

(** The [finally] clause of [create_task]. *)
Definition tape_record (self : nat) (task : ref) : M unit :=
  let* s := get_session self in
  match _task_tape s with
  | Some tape => list_append tape task
  | None => ret tt
  end.

(** [Session.create_task]. *)
Definition Session_create_task `{Hashlib} `{SO : SetOrder} (fuel : nat) (self : nat)
  (func : pyfunc) (args : list pyval) (default : option pyval)
  (label : option string) : M ref :=
  let* task := Task_init fuel func args default label in
  let* tf := get task in
  let* s := get_session self in
  match _tasks s !! _hashid tf with
  | Some known =>
      tape_record self known ;;;
      ret known
  | None =>
      tape_record self task ;;;
      match cls tf with
      | IsTask task_args _ _ _ _ _ =>
          for_each task_args
            (fun arg =>
               let* af := get arg in
               (if is_task af then
                  let* known := Session_contains self arg in
                  if known then ret tt else raise ArgNotInSession
                else
                  let* arg_tasks := lift (extract_tasks fuel arg) in
                  for_each arg_tasks
                    (fun arg_task =>
                       let* known := Session_contains self arg_task in
                       if known then ret tt else raise ArgNotInSession)) ;;;
               register fuel arg ;;; ret tt)
      | _ => abort
      end ;;;
      register fuel task ;;;
      update_session self (fun s => with_tasks (<[_hashid tf := task]> (_tasks s)) s) ;;;
      ret task
  end.

(** [Rule.__call__]: the task is created in the active session. *)
Definition Rule_call `{Hashlib} `{SO : SetOrder} (fuel : nat) (rule : Rule) (args : list pyval)
  : M ref :=
  let* sess := Session_active in
  Session_create_task fuel sess (_rfunc rule) args (_kw_default rule) (_kw_label rule).

(** Running the body of a rule: the call of [task.func] on the argument
    values. *)
Fixpoint run_body `{Hashlib} `{Globals} `{SO : SetOrder} (fuel : nat) (p : prog) : M pyval :=
  match p with
  | Return v => ret v
  | Fail msg => raise (RuleError msg)
  | Call name args k =>
      match global_rule name with
      | Some rule =>
          let* task := Rule_call fuel rule args in
          run_body fuel (k task)
      | None => raise (RuleError name)
      end
  | Subscript fut key k =>
      let* idx := getitem fuel fut key in
      run_body fuel (k idx)
  end.

(** [Session.run_task]. *)
Definition Session_run_task `{Hashlib} `{Globals} `{SO : SetOrder} (fuel : nat) (self : nat)
  (task : ref) (allow_unfinished : bool) : M (option pyval) :=
  let* tf := get task in
  assert (negb (Future_done tf)) ;;;
  (if negb allow_unfinished then assert (Future_ready tf) else ret tt) ;;;
  match cls tf with
  | IsTask task_args func _ _ default _ =>
      let* args := map_each task_args
                     (fun arg => lift (Future_result fuel arg default)) in
      let* result := run_body fuel (f_body func args) in
      let* tf := get task in
      if negb (Future_ready tf) then ret (Some result)
      else
        let* fut :=
          match result with
          | VFut r => ret (Some r)
          | _ =>
              let* template := Template_from_object fuel result in
              let* tmpl := get template in
              ret (if Template_has_futures tmpl then Some template else None)
          end in
        match fut with
        | Some fut =>
            let* ff := get fut in
            assert (negb (Future_done ff)) ;;;
            Task_set_future_result task fut ;;;
            Future_add_done_callback fut (CbChain task) ;;;
            register fuel fut ;;;
            ret None
        | None =>
            set_result fuel task result ;;;
            ret None
        end
  | _ => abort
  end.

(** [Session.record], around the statements [body] of the [with] block. *)
Definition Session_record {A} (self : nat) (tape : nat) (body : M A) : M A :=
  update_session self (with_task_tape (Some tape)) ;;;
  try_finally body (update_session self (with_task_tape None)).

Definition new_queue : M nat :=
  fun w => Ok (length (queues w)) (set_queues (queues w ++ [[]]) w).

Definition popleft (queue : nat) : M (option ref) :=
  fun w => match queues w !! queue with
           | Some (task :: q) => Ok (Some task) (set_queues (<[queue := q]> (queues w)) w)
           | Some [] => Ok None w
           | None => Abort
           end.

(** The loop [for task in extract_tasks(fut): if not task.has_run():
    task.add_ready_callback(schedule)] of [eval]. *)
Definition schedule_tasks (fuel : nat) (queue : nat) (fut : ref) : M unit :=
  let* tasks := lift (extract_tasks fuel fut) in
  for_each tasks
    (fun task =>
       let* tf := get task in
       if negb (Task_has_run tf)
       then Future_add_ready_callback fuel task (CbSchedule queue)
       else ret tt).

(** The [while queue] loop of [eval]. *)
Fixpoint eval_loop `{Hashlib} `{Globals} `{SO : SetOrder} (fuel steps : nat) (self : nat)
  (queue : nat) : M unit :=
  let* next := popleft queue in
  match next with
  | None => ret tt
  | Some task =>
      match steps with
      | O => abort
      | S steps' =>
          let* tf := get task in
          assert (negb (Task_has_run tf)) ;;;
          match cls tf with
          | IsTask _ _ children _ _ _ =>
              Session_record self children
                (Session_run_task fuel self task false) ;;;
              let* tf := get task in
              (if negb (Future_done tf) then
                 let* task_fut := Task_future_result task in
                 schedule_tasks fuel queue task_fut
               else ret tt) ;;;
              eval_loop fuel steps' self queue
          | _ => abort
          end
      end
  end.

(** [Session.eval]. *)
Definition Session_eval `{Hashlib} `{Globals} `{SO : SetOrder} (fuel : nat) (self : nat)
  (obj : pyval) : M pyval :=
  let* root :=
    match obj with
    | VFut r => ret (Some r)
    | _ =>
        let* template := Template_from_object fuel obj in
        let* tmpl := get template in
        ret (if Template_has_futures tmpl then Some template else None)
    end in
  match root with
  | None => ret obj
  | Some fut =>
      register fuel fut ;;;
      let* queue := new_queue in
      schedule_tasks fuel queue fut ;;;
      eval_loop fuel fuel self queue ;;;
      lift (Future_result fuel fut None)
  end.

(* ===================================================================== *)
(** ** Concrete scenarios                                                 *)
(* ===================================================================== *)

(** A stand-in digest for the scenarios below: the text itself.  None of
    them depends on what the digest is. *)
Definition demo_hashlib : Hashlib := fun text => text.

(** Two iteration orders: the order of insertion, and its reverse. *)
Definition insertion_order : SetOrder :=
  {| set_iter := fun l => l;
     set_iter_perm := fun l => Permutation_refl l |}.

Definition reverse_order : SetOrder :=
  {| set_iter := @List.rev ref;
     set_iter_perm := fun l => Permutation_sym (Permutation_rev l) |}.

Definition mk_rule (name : string) (body : list pyval -> prog) : Rule :=
  {| _rfunc := {| f_module := "calc"; f_qualname := name; f_body := body |};
     _kw_default := None; _kw_label := None |}.

(** A future with a result, as [Template.from_object(10)] leaves it. *)
Definition done_template : future :=
  {| _pending := []; _children := []; _result := Some (VInt 10);
     _done_callbacks := []; _ready_callbacks := []; _registered := false;
     _hashid := "{}10"; cls := IsTemplate "10" ∅ |}.

(** The store a call ends in. *)
Definition run {A} (m : M A) (w : world) : world :=
  match m w with
  | Ok _ w' => w'
  | Raise _ w' => w'
  | Abort => w
  end.

Definition setup_func : pyfunc :=
  {| f_module := "calc"; f_qualname := "setup"; f_body := fun _ => Return VNone |}.

(** A task (object 0); then [task['a']] (object 1), built while the task
    is not done and never registered; then the task gets its result. *)
Definition task_world : world :=
  run (Task_init (H := demo_hashlib) (SO := insertion_order) 2 setup_func [] None None) empty_world.

Definition task_record : future :=
  {| _pending := []; _children := []; _result := None;
     _done_callbacks := []; _ready_callbacks := []; _registered := false;
     _hashid := hash_text (H := demo_hashlib) (spec_text setup_func []);
     cls := IsTask [] setup_func 0 None None None |}.

Definition unwired_before : world :=
  run (getitems 2 0 [KStr "a"]) task_world.

Definition unwired_after : world :=
  run (set_result 2 0 (VDict [("a", VInt 1)])) unwired_before.

(** The tape of a session, as a rule body or a test can observe it. *)
Definition task_tape_of (self : nat) (w : world) : option (option nat) :=
  option_map _task_tape (sessions w !! self).

(** A [record] scope entered inside another one: the tape seen in the
    outer scope before the inner scope is entered and after it is left. *)
Definition nested_record : M (option nat * option nat) :=
  let* s := Session_init in
  Session_record s 7
    (let* before := get_session s in
     Session_record s 8 (ret tt) ;;;
     let* after := get_session s in
     ret (_task_tape before, _task_tape after)).

(** A session that is active, and the stores around two calls of one rule
    on the argument [1]. *)
Definition in_session : world :=
  run (let* s := Session_init in Session_enter s) empty_world.

Definition setup_rule : Rule := mk_rule "setup" (fun _ => Return VNone).

Definition after_first_call : world :=
  run (Rule_call (H := demo_hashlib) (SO := insertion_order) 2 setup_rule [VInt 1]) in_session.

Definition after_second_call : world :=
  run (Rule_call (H := demo_hashlib) (SO := insertion_order) 2 setup_rule [VInt 1]) after_first_call.

(** A session with a tape (list object 0) and a task (object 0) that was
    built outside the session. *)
Definition foreign_task_world : world :=
  run (let* s := Session_init in
       Session_enter s ;;;
       Task_init (H := demo_hashlib) (SO := insertion_order) 2 setup_func [] None None ;;;
       update_session s (with_task_tape (Some 0%nat))) empty_world.

Definition after_failed_call : world :=
  run (Session_create_task (H := demo_hashlib) (SO := insertion_order) 2 0 setup_func [VFut 0] None None)
      foreign_task_world.

Definition after_task_init : world :=
  run (Task_init (H := demo_hashlib) (SO := insertion_order) 2 setup_func [VInt 10; VStr "x"] None None)
      empty_world.

(** A value without futures, and the store after
    [Template.from_object] of it (the template is object 0). *)
Definition template_object : pyval :=
  VDict [("b", VInt (-1)); ("a", VList [VNone; VStr "x, y"; VBool true])].

Definition after_from_object : world :=
  run (Template_from_object (H := demo_hashlib) (SO := insertion_order) 2 template_object) empty_world.

(** A task (object 0) whose result has the keys ["a/b"] and ["a"], the
    latter leading to a dictionary with the key ["b"]; then the indexors
    [task["a/b"]] (object 1), [task["a"]] (object 2) and [task["a"]["b"]]
    (object 3); then the template (object 4) of the list of the first and
    the last. *)
Definition keyed_result : pyval :=
  VDict [("a/b", VInt 1); ("a", VDict [("b", VInt 2)])].

Definition done_task_world : world :=
  run (set_result 2 0 keyed_result) task_world.

(** [task['a']['b']] (objects 1 and 2) built while the task (object 0) is
    not done; then another subscript of the task (object 3).  From there,
    either the indexor [task['a']['b']] is registered and the task gets
    its result, or the task gets its result with the indexor never
    registered. *)
Definition nested_before : world :=
  run (getitems 2 0 [KStr "a"; KStr "b"]) task_world.

Definition nested_other : world :=
  run (getitems 2 0 [KStr "a/b"]) nested_before.

Definition nested_registered : world := run (register 1 2) nested_other.

Definition nested_done : world :=
  run (set_result 2 0 keyed_result) nested_registered.

Definition nested_never : world :=
  run (set_result 2 0 keyed_result) nested_other.

(** The same in a session (session 0): the task (object 0) is created by
    [create_task], [task['a']['b']] is object 2, and it is registered by
    the [create_task] of a second task (object 3) that takes it as its
    argument; then the first task gets its result. *)
Definition session_task_world : world :=
  run (let* s := Session_init in
       Session_enter s ;;;
       Session_create_task (H := demo_hashlib) (SO := insertion_order)
                           2 s setup_func [] None None) empty_world.

Definition session_nested : world :=
  run (getitems 2 0 [KStr "a"; KStr "b"]) session_task_world.

Definition session_wired : world :=
  run (Session_create_task (H := demo_hashlib) (SO := insertion_order)
                           3 0 setup_func [VFut 2%nat] None None) session_nested.

Definition session_done : world :=
  run (set_result 3 0 keyed_result) session_wired.

Definition two_indexors_world : world :=
  run (getitems 2 0 [KStr "a/b"] ;;; getitems 2 0 [KStr "a"; KStr "b"])
      done_task_world.

Definition two_indexors : pyval := VList [VFut 1%nat; VFut 3%nat].

Definition after_two_indexors : world :=
  run (Template_from_object (H := demo_hashlib) (SO := insertion_order) 2 two_indexors) two_indexors_world.

(** A dictionary that looks like an encoded task, and the store after
    [Template.from_object] of it (the template is object 0). *)
Definition task_lookalike : pyval :=
  VDict [("Task", VDict [("hashid", VStr "x")])].

Definition after_lookalike : world :=
  run (Template_from_object (H := demo_hashlib) (SO := insertion_order) 2 task_lookalike) empty_world.

(** A value with the task and one of its indexors embedded, and the store
    after [Template.from_object] of it (the template is object 4). *)
Definition round_trip_object : pyval :=
  VDict [("z", VFut 1%nat); ("k", VList [VFut 0%nat; VInt 5])].

Definition after_round_trip_object : world :=
  run (Template_from_object (H := demo_hashlib) (SO := insertion_order) 2 round_trip_object)
      two_indexors_world.

(** The template of the list of the two indexors when the set of its
    futures is iterated in the other order. *)
Definition after_two_indexors_reversed : world :=
  run (Template_from_object (H := demo_hashlib) (SO := reverse_order) 2 two_indexors)
      two_indexors_world.

(** The same value encoded while the task (object 0) and its indexor
    [task['a']] (object 1) are not done: the template is object 2.  Then
    the template is registered, which registers the two futures, and the
    task gets its result, which completes the indexor and the template. *)
Definition pending_round_trip : world :=
  run (Template_from_object (H := demo_hashlib) (SO := reverse_order) 4 round_trip_object)
      unwired_before.

Definition pending_round_trip_registered : world :=
  run (register 4 2) pending_round_trip.

Definition pending_round_trip_done : world :=
  run (set_result 4 0 (VDict [("a", VInt 1)])) pending_round_trip_registered.

(** Two rules: [g()] returns [1], and [f(x)] returns the task [g()].  In
    one session, [eval(f(g()))]: the argument of the task of [f] is the
    task of [g], and the task [f] returns is, by its hashid, that same
    task, which has run by then. *)
Definition const_rule : Rule := mk_rule "g" (fun _ => Return (VInt 1)).

Definition again_rule : Rule :=
  mk_rule "f" (fun _ => Call "g" [] (fun t => Return (VFut t))).

Definition chain_globals : Globals :=
  fun name =>
    if String.eqb name "g" then Some const_rule
    else if String.eqb name "f" then Some again_rule
    else None.

Definition eval_chain (fuel : nat) : M pyval :=
  let* s := Session_init in
  Session_enter s ;;;
  let* g := Rule_call (H := demo_hashlib) (SO := insertion_order) fuel const_rule [] in
  let* f := Rule_call (H := demo_hashlib) (SO := insertion_order) fuel again_rule [VFut g] in
  Session_eval (H := demo_hashlib) (SO := insertion_order) (H0 := chain_globals) fuel s (VFut f).

(** The same with [f(x)] returning its argument's value plus nothing
    else: [eval(f(g()))] where [f] returns a plain value. *)
Definition plain_rule : Rule := mk_rule "f" (fun _ => Return (VInt 2)).

Definition eval_plain (fuel : nat) : M pyval :=
  let* s := Session_init in
  Session_enter s ;;;
  let* g := Rule_call (H := demo_hashlib) (SO := insertion_order) fuel const_rule [] in
  let* f := Rule_call (H := demo_hashlib) (SO := insertion_order) fuel plain_rule [VFut g] in
  Session_eval (H := demo_hashlib) (SO := insertion_order) (H0 := chain_globals) fuel s (VFut f).

(** A session (session 0) whose tape is set (list object 7). *)
Definition taped_session : session :=
  {| _tasks := ∅; _task_tape := Some 7%nat |}.

Definition taped_world : world := set_sessions [taped_session] empty_world.

(** [task['a']] (object 1) registered while the task is not done. *)
Definition wired_world : world := run (register 1 1) unwired_before.

(** An active session (session 0) whose tape is the list object 0. *)
Definition taped_call_world : world :=
  run (let* s := Session_init in
       Session_enter s ;;;
       new_list ;;;
       update_session s (with_task_tape (Some 0%nat))) empty_world.

Definition after_taped_call : world :=
  run (Session_create_task (H := demo_hashlib) (SO := insertion_order) 2 0 setup_func [VInt 1] None None)
      taped_call_world.

(** The store after [eval] of the task of [after_first_call] (object 1;
    its argument, the template of [1], is object 0). *)
Definition after_eval_first : world :=
  run (Session_eval (H := demo_hashlib) (SO := insertion_order) (H0 := chain_globals) 10 0 (VFut 1%nat))
      after_first_call.

(** The template of the argument [1] in [after_first_call]: done since
    its construction, registered by [create_task]. *)
Definition done_template_one : future :=
  {| _pending := []; _children := []; _result := Some (VInt 1);
     _done_callbacks := []; _ready_callbacks := []; _registered := true;
     _hashid := "{}1"; cls := IsTemplate "1" ∅ |}.

(* ===================================================================== *)
(** ** Values: well-formedness, equality, canonical form                  *)
(* ===================================================================== *)

(** A Python [dict] has no two equal keys. *)
Fixpoint wf_val (v : pyval) : Prop :=
  match v with
  | VList l => List.fold_right (fun x acc => wf_val x /\ acc) True l
  | VDict d =>
      NoDup (List.map fst d) /\
      List.fold_right (fun kv acc => wf_val (snd kv) /\ acc) True d
  | _ => True
  end.

(** The value with the items of every dictionary in the order of their
    keys: what [json.loads] reads back from [json.dumps(..., sort_keys=True)]. *)
Fixpoint sort_keys (v : pyval) : pyval :=
  match v with
  | VList l => VList (List.map sort_keys l)
  | VDict d =>
      VDict (Json.sorted_items (List.map (fun kv => (fst kv, sort_keys (snd kv))) d))
  | _ => v
  end.

(** The fuel [scan_once] needs for the text of a value. *)
Fixpoint need (v : pyval) : nat :=
  match v with
  | VList l => S (List.fold_right (fun x acc => (S (need x) + acc)%nat) O l)
  | VDict d => S (List.fold_right (fun kv acc => (S (need (snd kv)) + acc)%nat) O d)
  | _ => 1%nat
  end.

(** [==] on values: lists item by item, dictionaries key by key whatever
    the order of the items. *)
Inductive py_eq : pyval -> pyval -> Prop :=
| py_eq_refl v : py_eq v v
| py_eq_list l1 l2 : Forall2 py_eq l1 l2 -> py_eq (VList l1) (VList l2)
| py_eq_dict d1 d1' d2 :
    Permutation d1 d1' ->
    Forall2 (fun a b => fst a = fst b /\ py_eq (snd a) (snd b)) d1' d2 ->
    py_eq (VDict d1) (VDict d2).

(** The value [default(o)] returns for a task or an indexor. *)
Definition class_tree (h : list future) (r : ref) : option pyval :=
  match h !! r with
  | Some f =>
      let payload := VDict [("hashid", VStr (_hashid f))] in
      match cls f with
      | IsTask _ _ _ _ _ _ => Some (VDict [("Task", payload)])
      | IsIndexor _ _ => Some (VDict [("Indexor", payload)])
      | IsTemplate _ _ => None
      end
  | None => None
  end.

(** A value with each future handle replaced by what [tree] gives. *)
Fixpoint subst_futures (tree : ref -> option pyval) (v : pyval) : option pyval :=
  match v with
  | VList l =>
      option_map VList (Json.sequence (List.map (subst_futures tree) l))
  | VDict d =>
      option_map VDict
        (Json.sequence
           (List.map (fun kv => option_map (fun y => (fst kv, y))
                                           (subst_futures tree (snd kv))) d))
  | VFut r => tree r
  | _ => Some v
  end.

(** A dictionary that reads as the encoding of a future. *)
Definition is_class_tag (tag : string) : bool :=
  String.eqb tag "Task" || String.eqb tag "Indexor".

(** No dictionary of the value has the shape [{"Task": x}] or
    [{"Indexor": x}]. *)
Fixpoint untagged (v : pyval) : Prop :=
  match v with
  | VList l => List.fold_right (fun x acc => untagged x /\ acc) True l
  | VDict d =>
      match d with
      | [(tag, _)] => is_class_tag tag = false
      | _ => True
      end /\
      List.fold_right (fun kv acc => untagged (snd kv) /\ acc) True d
  | _ => True
  end.

(** Insignificant whitespace: the scanner of a JSON text that accepts,
    outside string literals, no whitespace but one space after a [,] or a
    [:].  [strict] accepts no whitespace outside string literals at all. *)
Inductive ws_state : Type :=
| WsPlain | WsAfterSep | WsAfterSpace | WsInStr | WsInEsc.

Definition ws_step (strict : bool) (st : ws_state) (c : ascii) : option ws_state :=
  let n := Json.code c in
  match st with
  | WsInEsc => Some WsInStr
  | WsInStr =>
      if (n =? 92)%N then Some WsInEsc
      else if (n =? 34)%N then Some WsPlain
      else Some WsInStr
  | _ =>
      if Json.is_ws c then
        match st with
        | WsAfterSep => if strict then None
                        else if (n =? 32)%N then Some WsAfterSpace else None
        | _ => None
        end
      else if (n =? 34)%N then Some WsInStr
      else if ((n =? 44) || (n =? 58))%N then Some WsAfterSep
      else Some WsPlain
  end.

Fixpoint ws_run (strict : bool) (st : ws_state) (s : string) : option ws_state :=
  match s with
  | EmptyString => Some st
  | String c s' =>
      match ws_step strict st c with
      | Some st' => ws_run strict st' s'
      | None => None
      end
  end.

(** The text has no insignificant whitespace at all. *)
Definition no_whitespace (s : string) : bool :=
  match ws_run true WsPlain s with
  | Some WsPlain => true
  | _ => false
  end.

(** Its only whitespace outside string literals is one space after each
    separator; it neither starts nor ends with whitespace. *)
Definition separator_spaces_only (s : string) : bool :=
  match ws_run false WsPlain s with
  | Some WsPlain => true
  | _ => false
  end.

(** The keys of every dictionary are in ascending order. *)
Fixpoint keys_sorted (v : pyval) : Prop :=
  match v with
  | VList l => List.fold_right (fun x acc => keys_sorted x /\ acc) True l
  | VDict d =>
      Sorted (fun a b => String.leb a b = true) (List.map fst d) /\
      List.fold_right (fun kv acc => keys_sorted (snd kv) /\ acc) True d
  | _ => True
  end.

(** Every future handle in the value satisfies [P]. *)
Fixpoint futures_all (P : ref -> Prop) (v : pyval) : Prop :=
  match v with
  | VList l => List.fold_right (fun x acc => futures_all P x /\ acc) True l
  | VDict d => List.fold_right (fun kv acc => futures_all P (snd kv) /\ acc) True d
  | VFut r => P r
  | _ => True
  end.

(** The result of the future [r], when it is done. *)
Definition result_in (h : list future) (r : ref) : option pyval :=
  match h !! r with
  | Some f => _result f
  | None => None
  end.

(** The value with each future handle replaced by the result of the
    future; there is none when one of the futures is not done. *)
Definition with_results (h : list future) (v : pyval) : option pyval :=
  subst_futures (result_in h) v.

(** Futures embedded in the value that have the same hashid have the same
    result. *)
Definition hashid_decides_result (h : list future) (v : pyval) : Prop :=
  forall r1 r2 f1 f2,
    r1 ∈ tape_of v [] -> r2 ∈ tape_of v [] ->
    h !! r1 = Some f1 -> h !! r2 = Some f2 ->
    _hashid f1 = _hashid f2 -> _result f1 = _result f2.

(** [child] is among the children of [parent]. *)
Definition child_of (child parent : ref) (w : world) : Prop :=
  exists pf, heap w !! parent = Some pf /\ child ∈ _children pf.

(** The task table of every session holds tasks, each registered and
    stored under its own hashid. *)
Definition table_keyed_by_hashid (w : world) : Prop :=
  forall i s hid t,
    sessions w !! i = Some s -> _tasks s !! hid = Some t ->
    exists f, heap w !! t = Some f /\ _hashid f = hid /\
              is_task f = true /\ _registered f = true.

(** A call that keeps the task tables well keyed. *)
Definition table_kept (w w' : world) : Prop :=
  table_keyed_by_hashid w -> table_keyed_by_hashid w'.

(* ===================================================================== *)
(** ** What a method call can do to the store                             *)
(* ===================================================================== *)

(** The store a call ends in, whether it returned or raised. *)
Definition final {A} (o : outcome A) : option world :=
  match o with
  | Ok _ w => Some w
  | Raise _ w => Some w
  | Abort => None
  end.

Definition put (r : ref) (f : future) (w : world) : world :=
  set_heap (<[r := f]> (heap w)) w.

(** The attribute writes of the future classes, each under the condition
    the code guarantees where it makes the write: a child is added by the
    child's own [register], after it set [_registered]; a parent is removed
    from [_pending] by that parent's [set_result], after the result is
    stored, for one of its children; a result is stored into a ready future
    without result; callbacks are appended. *)
Inductive hstep : world -> world -> Prop :=
| hs_alloc w f :
    _children f = [] ->
    hstep w (set_heap (heap w ++ [f]) w)
| hs_registered w r f :
    heap w !! r = Some f ->
    hstep w (put r (with_registered true f) w)
| hs_add_child w r f c cf :
    heap w !! r = Some f -> heap w !! c = Some cf -> _registered cf = true ->
    hstep w (put r (with_children (set_add c (_children f)) f) w)
| hs_parent_done w r f p pf :
    heap w !! r = Some f -> heap w !! p = Some pf -> r ∈ _children pf ->
    is_Some (_result pf) ->
    hstep w (put r (with_pending (set_remove p (_pending f)) f) w)
| hs_result w r f v :
    heap w !! r = Some f -> _pending f = [] -> _result f = None ->
    hstep w (put r (with_result (Some v) f) w)
| hs_done_callbacks w r f cb :
    heap w !! r = Some f ->
    hstep w (put r (with_done_callbacks (_done_callbacks f ++ [cb]) f) w)
| hs_ready_callbacks w r f cb :
    heap w !! r = Some f ->
    hstep w (put r (with_ready_callbacks (_ready_callbacks f ++ [cb]) f) w)
| hs_future_result w r f fr :
    heap w !! r = Some f ->
    hstep w (put r (with_future_result fr f) w)
| hs_queues w q :
    hstep w (set_queues q w).

(** The writes to list objects: a new empty list, an [append]. *)
Inductive lstep : world -> world -> Prop :=
| ls_new w :
    lstep w (set_lists (lists w ++ [[]]) w)
| ls_append w i l x :
    lists w !! i = Some l ->
    lstep w (set_lists (<[i := (l ++ [x])%list]> (lists w)) w).

(** The writes of [Session], except the [clear] of [__exit__]: a new
    session, a task stored under a hashid that has no entry, the tape, and
    the active session. *)
Inductive sstep : world -> world -> Prop :=
| ss_new w s :
    sstep w (set_sessions (sessions w ++ [s]) w)
| ss_insert w i s hid t :
    sessions w !! i = Some s -> _tasks s !! hid = None ->
    sstep w (set_sessions (<[i := with_tasks (<[hid := t]> (_tasks s)) s]> (sessions w)) w)
| ss_tape w i s tape :
    sessions w !! i = Some s ->
    sstep w (set_sessions (<[i := with_task_tape tape s]> (sessions w)) w)
| ss_active w a :
    sstep w (set_active a w).

Definition cstep (w w' : world) : Prop := hstep w w' \/ lstep w w'.
Definition step (w w' : world) : Prop := cstep w w' \/ sstep w w'.

Definition hsteps : relation world := rtc hstep.
Definition csteps : relation world := rtc cstep.
Definition steps : relation world := rtc step.

(** The attributes of a future that are fixed at construction. *)
Definition frozen (f f' : future) : Prop :=
  _hashid f' = _hashid f /\
  match cls f, cls f' with
  | IsTemplate j m, IsTemplate j' m' => j' = j /\ m' = m
  | IsIndexor t k, IsIndexor t' k' => t' = t /\ k' = k
  | IsTask a fn c _ d l, IsTask a' fn' c' _ d' l' =>
      a' = a /\ fn' = fn /\ c' = c /\ d' = d /\ l' = l
  | _, _ => False
  end.

(** How an object can differ between a store and a later one. *)
Definition grows (f f' : future) : Prop :=
  frozen f f' /\
  (forall v, _result f = Some v -> _result f' = Some v) /\
  (_registered f = true -> _registered f' = true) /\
  (forall c, c ∈ _children f -> c ∈ _children f').

Definition ext (w w' : world) : Prop :=
  forall r f, heap w !! r = Some f ->
              exists f', heap w' !! r = Some f' /\ grows f f'.

(** The exceptions the future classes raise themselves or let through from
    subscripts and the JSON decoder; the rest are raised by [Session],
    [Task.future_result] and rule bodies. *)
Definition kernel_exn (e : exn) : Prop :=
  match e with
  | FutureNotDone | AssertionError | KeyError | IndexError | TypeError
  | JSONDecodeError => True
  | _ => False
  end.

(** Every exception [m] raises satisfies [P]. *)
Definition raises_only (P : exn -> Prop) {A} (m : M A) : Prop :=
  forall w e w', m w = Raise e w' -> P e.

(** An indexor as [Indexor.__init__] leaves it when the task is not done. *)
Definition new_indexor (tf : future) (task : ref) (keys : list key) : future :=
  {| _pending := [task]; _children := []; _result := None;
     _done_callbacks := []; _ready_callbacks := [CbResolve];
     _registered := false;
     _hashid := Indexor_hashid (_hashid tf) keys;
     cls := IsIndexor task keys |}.

(** The indexor [i] of [task] has the task as its one pending parent, and
    resolving is the first thing it does when it gets ready. *)
Definition poised (i task : ref) (keys : list key) (w : world) : Prop :=
  exists fi,
    heap w !! i = Some fi /\ cls fi = IsIndexor task keys /\
    _pending fi = [task] /\ _result fi = None /\
    exists cbs, _ready_callbacks fi = CbResolve :: cbs.

(** It waits for the task: it is among the children of the task, which
    is not done. *)
Definition waiting (i task : ref) (keys : list key) (w : world) : Prop :=
  poised i task keys w /\
  exists tf, heap w !! task = Some tf /\ i ∈ _children tf /\ _result tf = None.

(** The task has the result [v] and notifies its children; it has not
    been the turn of the indexor. *)
Definition due (i task : ref) (keys : list key) (v : pyval) (w : world) : Prop :=
  poised i task keys w /\
  exists tf, heap w !! task = Some tf /\ _result tf = Some v.

(** The indexor [i] of [task] is as its constructor left it when the task
    was not done: the task is its one pending parent, it has no result,
    it is not registered, and the task does not list it as a child. *)
Definition idle (i task : ref) (w : world) : Prop :=
  exists fi,
    heap w !! i = Some fi /\ _pending fi = [task] /\ _result fi = None /\
    _registered fi = false /\
    forall tf, heap w !! task = Some tf -> i ∉ _children tf.

(* ===================================================================== *)
(** * Properties                                                          *)
(* ===================================================================== *)

(** ** Reasoning about method calls *)

Local Close Scope string_scope.


Lemma bind_Ok {A B} (m : M A) (k : A -> M B) w b w' :
  bind m k w = Ok b w' ->
  exists a w1, m w = Ok a w1 /\ k a w1 = Ok b w'.
Proof.
  unfold bind. destruct (m w) as [a w1|e w1|]; try discriminate.
  intros Hk. exists a, w1. split; [reflexivity | exact Hk].
Qed.

Lemma bind_Raise {A B} (m : M A) (k : A -> M B) w e w' :
  bind m k w = Raise e w' ->
  m w = Raise e w' \/ exists a w1, m w = Ok a w1 /\ k a w1 = Raise e w'.
Proof.
  unfold bind. destruct (m w) as [a w1|e1 w1|]; try discriminate.
  - intros Hk. right. exists a, w1. split; [reflexivity | exact Hk].
  - intros [= <- <-]. left. reflexivity.
Qed.

Lemma bind_final {A B} (m : M A) (k : A -> M B) w w' :
  final (bind m k w) = Some w' ->
  (exists e, m w = Raise e w') \/
  exists a w1, m w = Ok a w1 /\ final (k a w1) = Some w'.
Proof.
  unfold bind. destruct (m w) as [a w1|e1 w1|]; simpl; try discriminate.
  - intros Hk. right. exists a, w1. split; [reflexivity | exact Hk].
  - intros [= <-]. left. exists e1. reflexivity.
Qed.

Lemma get_Ok r w f w' : get r w = Ok f w' -> w' = w /\ heap w !! r = Some f.
Proof.
  unfold get. destruct (heap w !! r) as [f0|] eqn:E; [|discriminate].
  intros [= <- <-]. split; reflexivity.
Qed.

Lemma get_final r w w' : final (get r w) = Some w' -> w' = w.
Proof.
  unfold get. destruct (heap w !! r); simpl; [|discriminate].
  intros [= <-]. reflexivity.
Qed.

Lemma get_not_Raise r w e w' : get r w <> Raise e w'.
Proof. unfold get. destruct (heap w !! r); discriminate. Qed.

Lemma update_Ok r g w u w' :
  update r g w = Ok u w' ->
  exists f, heap w !! r = Some f /\ w' = put r (g f) w.
Proof.
  unfold update. destruct (heap w !! r) as [f|]; [|discriminate].
  intros [= _ <-]. exists f. split; reflexivity.
Qed.

Lemma update_not_Raise r g w e w' : update r g w <> Raise e w'.
Proof. unfold update. destruct (heap w !! r); discriminate. Qed.

Lemma assert_Ok b w u w' : assert b w = Ok u w' -> b = true /\ w' = w.
Proof. destruct b; simpl; [|discriminate]. intros [= _ <-]. split; reflexivity. Qed.

Lemma assert_Raise b w e w' :
  assert b w = Raise e w' -> b = false /\ e = AssertionError /\ w' = w.
Proof. destruct b; simpl; [discriminate|]. intros [= <- <-]. repeat split. Qed.

Lemma lift_Ok {A} (r : world -> res A) w a w' :
  lift r w = Ok a w' -> w' = w /\ r w = Val a.
Proof.
  unfold lift. destruct (r w); try discriminate.
  intros [= <- <-]. split; reflexivity.
Qed.

Lemma lift_Raise {A} (r : world -> res A) w e w' :
  lift r w = Raise e w' -> w' = w /\ r w = Exc e.
Proof.
  unfold lift. destruct (r w); try discriminate.
  intros [= <- <-]. split; reflexivity.
Qed.

Lemma lift_final {A} (r : world -> res A) w w' :
  final (lift r w) = Some w' -> w' = w.
Proof. unfold lift. destruct (r w); simpl; congruence. Qed.

(** Splitting a call on its outcome and naming the intermediate stores. *)
Ltac inv_bind H :=
  lazymatch type of H with
  | bind _ _ _ = Ok _ _ =>
      let a := fresh "a" in let w1 := fresh "w" in
      let H1 := fresh "Hm" in let H2 := fresh "Hk" in
      apply bind_Ok in H; destruct H as (a & w1 & H1 & H2)
  | bind _ _ _ = Raise _ _ =>
      let a := fresh "a" in let w1 := fresh "w" in
      let H1 := fresh "Hm" in let H2 := fresh "Hk" in
      apply bind_Raise in H; destruct H as [H1 | (a & w1 & H1 & H2)]
  | final (bind _ _ _) = Some _ =>
      let a := fresh "a" in let w1 := fresh "w" in let e := fresh "e" in
      let H1 := fresh "Hm" in let H2 := fresh "Hk" in
      apply bind_final in H; destruct H as [(e & H1) | (a & w1 & H1 & H2)]
  end.

Tactic Notation "inv_bind" hyp(H) "as" ident(a) ident(w1) ident(H1) ident(H2) :=
  lazymatch type of H with
  | bind _ _ _ = Ok _ _ =>
      apply bind_Ok in H; destruct H as (a & w1 & H1 & H2)
  | bind _ _ _ = Raise _ _ =>
      apply bind_Raise in H; destruct H as [H1 | (a & w1 & H1 & H2)]
  end.

(* ===================================================================== *)
(** ** The State enumeration                                              *)
(* ===================================================================== *)

(** [DONE = 1] repeats the value of [READY = 1]: the class has five
    members and [State.DONE] is the member [READY]. *)
Lemma State_members :
  State.members = [State.UNREGISTERED; State.PENDING; State.READY;
                   State.RUNNING; State.HAS_RUN].
Proof. reflexivity. Qed.

Lemma State_DONE_is_READY :
  State.member State.DONE = State.READY /\
  State.is_ (State.member State.DONE) (State.member State.READY) = true.
Proof. split; reflexivity. Qed.

(** C6 (as the code has it): a future whose result is set answers [state]
    with the member [READY]; a task whose result is set answers [HAS_RUN].
    The value [DONE] the claim lists is not a member of the enumeration,
    so a done future is not told apart from a ready one. *)
Theorem state_of_done_future (f : future) :
  Future_done f = true ->
  Future_state f = State.READY /\
  Future_state f = State.member State.DONE /\
  state f = (if is_task f then State.HAS_RUN else State.READY).
Proof.
  intros Hdone. unfold state, Future_state, is_task, Task_has_run.
  rewrite Hdone. destruct (cls f); repeat split; reflexivity.
Qed.

Lemma state_of_done_future_witness :
  Future_state done_template = State.READY /\
  Future_state done_template = State.member State.DONE /\
  state done_template = (if is_task done_template then State.HAS_RUN else State.READY).
Proof. apply state_of_done_future. reflexivity. Defined.

(* ===================================================================== *)
(** ** Stores only grow                                                   *)
(* ===================================================================== *)

Lemma frozen_refl f : frozen f f.
Proof. split; [reflexivity|]. destruct (cls f); repeat split. Qed.

Lemma frozen_trans f g h : frozen f g -> frozen g h -> frozen f h.
Proof.
  intros [H1 C1] [H2 C2]. split; [congruence|].
  destruct (cls f), (cls g), (cls h); try contradiction;
    intuition congruence.
Qed.

Lemma grows_refl f : grows f f.
Proof. split; [apply frozen_refl|]. repeat split; auto. Qed.

Lemma grows_trans f g h : grows f g -> grows g h -> grows f h.
Proof.
  intros (F1 & R1 & G1 & C1) (F2 & R2 & G2 & C2).
  split; [eapply frozen_trans; eassumption|]. repeat split; auto.
Qed.

Lemma ext_refl w : ext w w.
Proof. intros r f Hr. exists f. split; [exact Hr | apply grows_refl]. Qed.

Lemma ext_same_heap w w' : heap w' = heap w -> ext w w'.
Proof.
  intros Hh r f Hr. exists f. rewrite Hh. split; [exact Hr | apply grows_refl].
Qed.

Lemma ext_trans w1 w2 w3 : ext w1 w2 -> ext w2 w3 -> ext w1 w3.
Proof.
  intros H12 H23 r f Hr.
  destruct (H12 r f Hr) as (f2 & Hr2 & G2).
  destruct (H23 r f2 Hr2) as (f3 & Hr3 & G3).
  exists f3. split; [exact Hr3 | eapply grows_trans; eassumption].
Qed.

Lemma elem_of_set_add x y (l : list ref) : x ∈ l -> x ∈ set_add y l.
Proof.
  unfold set_add. case_bool_decide; [auto|].
  intros Hx. apply elem_of_app. left. exact Hx.
Qed.

Lemma elem_of_set_add_new x (l : list ref) : x ∈ set_add x l.
Proof.
  unfold set_add. case_bool_decide; [assumption|].
  apply elem_of_app. right. apply list_elem_of_singleton. reflexivity.
Qed.

(** Replacing an object by a grown one extends the store. *)
Lemma ext_put w r f f' :
  heap w !! r = Some f -> grows f f' -> ext w (put r f' w).
Proof.
  intros Hr G r0 f0 Hr0. unfold put; simpl.
  destruct (decide (r0 = r)) as [->|Hne].
  - exists f'. rewrite list_lookup_insert_eq by (eapply lookup_lt_Some; eassumption).
    split; [reflexivity|].
    assert (f0 = f) as -> by congruence. exact G.
  - exists f0. rewrite list_lookup_insert_ne by congruence.
    split; [exact Hr0 | apply grows_refl].
Qed.

Lemma ext_hstep w w' : hstep w w' -> ext w w'.
Proof.
  destruct 1;
    try (eapply ext_put; [eassumption|];
         split; [split; [reflexivity | simpl; destruct (cls f); repeat split]|];
         simpl; repeat split; auto; fail).
  - intros r0 f0 Hr0. exists f0. simpl.
    split; [apply lookup_app_l_Some; exact Hr0 | apply grows_refl].
  - eapply ext_put; [eassumption|].
    split; [split; [reflexivity | simpl; destruct (cls f); repeat split]|].
    simpl. repeat split; auto. intros c0. apply elem_of_set_add.
  - eapply ext_put; [eassumption|].
    split; [split; [reflexivity | simpl; destruct (cls f); repeat split]|].
    simpl. repeat split; auto. congruence.
  - apply ext_same_heap; reflexivity.
Qed.

Lemma ext_lstep w w' : lstep w w' -> ext w w'.
Proof. destruct 1; apply ext_same_heap; reflexivity. Qed.

Lemma ext_sstep w w' : sstep w w' -> ext w w'.
Proof. destruct 1; apply ext_same_heap; reflexivity. Qed.

Lemma ext_hsteps w w' : hsteps w w' -> ext w w'.
Proof.
  induction 1 as [|w1 w2 w3 H12 _ IH]; [apply ext_refl|].
  eapply ext_trans; [apply ext_hstep; exact H12 | exact IH].
Qed.

Lemma ext_steps w w' : steps w w' -> ext w w'.
Proof.
  induction 1 as [|w1 w2 w3 H12 _ IH]; [apply ext_refl|].
  eapply ext_trans; [|exact IH].
  destruct H12 as [[?|?]|?];
    [apply ext_hstep | apply ext_lstep | apply ext_sstep]; assumption.
Qed.

Lemma hsteps_csteps w w' : hsteps w w' -> csteps w w'.
Proof.
  induction 1 as [|w1 w2 w3 H12 _ IH]; [apply rtc_refl|].
  eapply rtc_l; [left; exact H12 | exact IH].
Qed.

Lemma csteps_steps w w' : csteps w w' -> steps w w'.
Proof.
  induction 1 as [|w1 w2 w3 H12 _ IH]; [apply rtc_refl|].
  eapply rtc_l; [left; exact H12 | exact IH].
Qed.

Lemma hsteps_steps w w' : hsteps w w' -> steps w w'.
Proof. intros H. apply csteps_steps, hsteps_csteps, H. Qed.

Lemma ext_csteps w w' : csteps w w' -> ext w w'.
Proof. intros H. apply ext_steps, csteps_steps, H. Qed.

Lemma cstep_sessions w w' :
  cstep w w' -> sessions w' = sessions w /\ _active w' = _active w.
Proof. destruct 1 as [H|H]; destruct H; split; reflexivity. Qed.

Lemma csteps_sessions w w' :
  csteps w w' -> sessions w' = sessions w /\ _active w' = _active w.
Proof.
  induction 1 as [|w1 w2 w3 H12 _ IH]; [split; reflexivity|].
  destruct IH as [-> ->]. apply cstep_sessions. exact H12.
Qed.

Lemma hstep_lists w w' : hstep w w' -> lists w' = lists w.
Proof. destruct 1; reflexivity. Qed.

Lemma hsteps_lists w w' : hsteps w w' -> lists w' = lists w.
Proof.
  induction 1 as [|w1 w2 w3 H12 _ IH]; [reflexivity|].
  rewrite IH. apply hstep_lists. exact H12.
Qed.

Lemma hsteps_trans w1 w2 w3 : hsteps w1 w2 -> hsteps w2 w3 -> hsteps w1 w3.
Proof. apply rtc_trans. Qed.

Lemma csteps_trans w1 w2 w3 : csteps w1 w2 -> csteps w2 w3 -> csteps w1 w3.
Proof. apply rtc_trans. Qed.

Lemma steps_trans w1 w2 w3 : steps w1 w2 -> steps w2 w3 -> steps w1 w3.
Proof. apply rtc_trans. Qed.

Lemma hsteps_one w w' : hstep w w' -> hsteps w w'.
Proof. apply rtc_once. Qed.

Lemma csteps_one w w' : lstep w w' -> csteps w w'.
Proof. intros H. apply rtc_once. right. exact H. Qed.

Lemma steps_one w w' : sstep w w' -> steps w w'.
Proof. intros H. apply rtc_once. right. exact H. Qed.

(* ===================================================================== *)
(** ** The methods of the future classes write as [hstep] allows          *)
(* ===================================================================== *)

Lemma Ok_final {A} (m : M A) w a w' : m w = Ok a w' -> final (m w) = Some w'.
Proof. intros ->. reflexivity. Qed.

Lemma Raise_final {A} (m : M A) w e w' : m w = Raise e w' -> final (m w) = Some w'.
Proof. intros ->. reflexivity. Qed.

(** [within R m w]: called in the store [w], [m] ends (returning or
    raising) in a store related to [w] by [R]. *)
Definition within (R : relation world) {A} (m : M A) (w : world) : Prop :=
  forall w', final (m w) = Some w' -> R w w'.

Section Within.
Context (R : relation world) (Rrefl : forall w, R w w)
        (Rtrans : forall w1 w2 w3, R w1 w2 -> R w2 w3 -> R w1 w3).

Lemma within_ret {A} (a : A) w : within R (ret a) w.
Proof. intros w' [= <-]. apply Rrefl. Qed.

Lemma within_raise {A} e w : within R (@raise A e) w.
Proof. intros w' [= <-]. apply Rrefl. Qed.

Lemma within_abort {A} w : within R (@abort A) w.
Proof. intros w' [=]. Qed.

Lemma within_assert b w : within R (assert b) w.
Proof. destruct b; [apply within_ret | apply within_raise]. Qed.

Lemma within_get r w : within R (get r) w.
Proof. intros w' Hf. apply get_final in Hf. subst. apply Rrefl. Qed.

Lemma within_lift {A} (r : world -> res A) w : within R (lift r) w.
Proof. intros w' Hf. apply lift_final in Hf. subst. apply Rrefl. Qed.

Lemma within_update r g w :
  (forall f, heap w !! r = Some f -> R w (put r (g f) w)) ->
  within R (update r g) w.
Proof.
  intros H w'. unfold update.
  destruct (heap w !! r) as [f|]; simpl; [|discriminate].
  intros [= <-]. apply H. reflexivity.
Qed.

Lemma within_bind {A B} (m : M A) (k : A -> M B) w :
  within R m w ->
  (forall a w1, m w = Ok a w1 -> R w w1 -> within R (k a) w1) ->
  within R (bind m k) w.
Proof.
  intros Hm Hk w' Hf.
  apply bind_final in Hf as [(e & He) | (a & w1 & Ha & Hf)].
  - apply Hm. eapply Raise_final; eassumption.
  - assert (R w w1) as H1 by (apply Hm; eapply Ok_final; eassumption).
    eapply Rtrans; [exact H1|]. eapply Hk; eassumption.
Qed.

(** A loop whose iterations stay within [R] stays within [R]; an
    iteration may rely on the loop having stayed within [R] so far. *)
Lemma within_for_each {A} (l : list A) (body : A -> M unit) w :
  (forall x w1, x ∈ l -> R w w1 -> within R (body x) w1) ->
  within R (for_each l body) w.
Proof.
  revert w. induction l as [|x l IH]; intros w Hbody; simpl.
  - apply within_ret.
  - apply within_bind.
    + apply Hbody; [left | apply Rrefl].
    + intros _ w1 _ H1. apply IH. intros y w2 Hy H2.
      apply Hbody; [right; exact Hy | eapply Rtrans; eassumption].
Qed.

Lemma within_map_each {A B} (l : list A) (f : A -> M B) w :
  (forall x w1, x ∈ l -> R w w1 -> within R (f x) w1) ->
  within R (map_each l f) w.
Proof.
  revert w. induction l as [|x l IH]; intros w Hbody; simpl.
  - apply within_ret.
  - apply within_bind.
    + apply Hbody; [left | apply Rrefl].
    + intros y w1 _ H1. apply within_bind.
      * apply IH. intros z w2 Hz H2.
        apply Hbody; [right; exact Hz | eapply Rtrans; eassumption].
      * intros ys w2 _ _. apply within_ret.
Qed.

Lemma within_try_finally {A} (body : M A) (handler : M unit) w :
  within R body w ->
  (forall w1, R w w1 -> within R handler w1) ->
  within R (try_finally body handler) w.
Proof.
  intros Hb Hh w'. unfold try_finally.
  destruct (body w) as [a w1|e w1|] eqn:E; [| |discriminate].
  - assert (R w w1) as H1 by (apply Hb; rewrite E; reflexivity).
    intros Hf. eapply Rtrans; [exact H1|].
    revert Hf. apply within_bind; [apply Hh; exact H1|].
    intros _ w2 _ _. apply within_ret.
  - assert (R w w1) as H1 by (apply Hb; rewrite E; reflexivity).
    intros Hf. eapply Rtrans; [exact H1|].
    revert Hf. apply within_bind; [apply Hh; exact H1|].
    intros _ w2 _ _. apply within_raise.
Qed.

End Within.

Lemma within_weaken (R S : relation world) {A} (m : M A) w :
  (forall w', R w w' -> S w w') -> within R m w -> within S m w.
Proof. intros HRS Hm w' Hf. apply HRS, Hm, Hf. Qed.

(** One step of a call: the first statement, then the rest in the store
    the first statement returned in. *)
Ltac wtriv :=
  first [ apply within_ret | apply within_raise | apply within_abort
        | apply within_assert | apply within_get | apply within_lift ];
  try (intros; apply rtc_refl).
Ltac hbind :=
  apply (within_bind hsteps hsteps_trans);
  [
  | let a := fresh "a" in let w1 := fresh "w" in
    let Hm := fresh "Hm" in let Hw := fresh "Hw" in
    intros a w1 Hm Hw;
    try (apply get_Ok in Hm as [-> Hm]);
    try (apply assert_Ok in Hm as [Hm ->]);
    try (apply lift_Ok in Hm as [-> Hm]) ].
Ltac hbind' := hbind; [wtriv|].
Tactic Notation "hbind" "as" ident(a) ident(w1) ident(Hm) :=
  apply (within_bind hsteps hsteps_trans);
  [ | intros a w1 Hm _ ].

Lemma put_lookup_eq w r f g :
  heap w !! r = Some f -> heap (put r g w) !! r = Some g.
Proof.
  intros Hr. unfold put; simpl. apply list_lookup_insert_eq.
  eapply lookup_lt_Some; exact Hr.
Qed.

Lemma put_lookup_ne w r r' g :
  r <> r' -> heap (put r g w) !! r' = heap w !! r'.
Proof. intros Hne. unfold put; simpl. apply list_lookup_insert_ne. exact Hne. Qed.

Lemma Future_add_child_hsteps self fut cf w :
  heap w !! fut = Some cf -> _registered cf = true ->
  within hsteps (Future_add_child self fut) w.
Proof.
  intros Hc Hreg. apply within_update. intros f Hr.
  apply hsteps_one. eapply hs_add_child; eassumption.
Qed.

Lemma Future_register_hsteps self w : within hsteps (Future_register self) w.
Proof.
  unfold Future_register. hbind'.
  destruct (_registered a) eqn:Hreg; simpl; [wtriv|].
  hbind.
  { apply within_update. intros f Hr. apply hsteps_one.
    eapply hs_registered; exact Hr. }
  apply update_Ok in Hm0 as (f & Hr & ->).
  hbind; [|wtriv].
  apply (within_for_each hsteps); [apply rtc_refl | apply hsteps_trans|].
  intros x v _ Hv. apply ext_hsteps in Hv.
  destruct (Hv self (with_registered true f)) as (f' & Hf' & G).
  { eapply put_lookup_eq; exact Hr. }
  eapply Future_add_child_hsteps; [exact Hf'|]. apply G. reflexivity.
Qed.

Lemma Future_add_done_callback_hsteps self cb w :
  within hsteps (Future_add_done_callback self cb) w.
Proof.
  unfold Future_add_done_callback. hbind'. hbind'.
  apply within_update. intros f Hr. apply hsteps_one.
  apply hs_done_callbacks. exact Hr.
Qed.

Lemma schedule_hsteps queue task w : within hsteps (schedule queue task) w.
Proof.
  intros w'. unfold schedule.
  destruct (queues w !! queue) as [q|]; [|discriminate].
  case_bool_decide; simpl; intros [= <-].
  - apply rtc_refl.
  - apply hsteps_one. apply hs_queues.
Qed.

Section Cascade.
Context (sr : ref -> pyval -> M unit)
        (Hsr : forall r v w, within hsteps (sr r v) w).

Lemma invoke_hsteps cb self w : within hsteps (invoke sr cb self) w.
Proof.
  destruct cb; simpl.
  - hbind'. apply Hsr.
  - hbind'. apply Hsr.
  - apply schedule_hsteps.
  - hbind'. apply Hsr.
Qed.

Lemma Future_parent_done_hsteps self fut pf w :
  heap w !! fut = Some pf -> self ∈ _children pf -> is_Some (_result pf) ->
  within hsteps (Future_parent_done sr self fut) w.
Proof.
  intros Hp Hc Hres. unfold Future_parent_done. hbind'. hbind.
  { case_bool_decide; [|wtriv].
    apply within_update. intros f Hr. apply hsteps_one.
    eapply hs_parent_done; eassumption. }
  hbind'. destruct (Future_ready a1); [|wtriv].
  apply (within_for_each hsteps); [apply rtc_refl | apply hsteps_trans|].
  intros cb v _ _. apply invoke_hsteps.
Qed.

End Cascade.

Lemma has_result_hsteps w w' r f v :
  hsteps w w' -> heap w !! r = Some f -> _result f = Some v ->
  exists f', heap w' !! r = Some f' /\ _result f' = Some v.
Proof.
  intros Hs Hf Hr. destruct (ext_hsteps _ _ Hs r f Hf) as (f' & Hf' & _ & Hr' & _).
  exists f'. split; [exact Hf' | apply Hr'; exact Hr].
Qed.

Section Notify.
Context (sr : ref -> pyval -> M unit)
        (Hsr : forall r v w, within hsteps (sr r v) w).

(** The loop over the children, or a rest of it. *)
Lemma children_loop_hsteps self (l : list ref) w f v :
  heap w !! self = Some f -> _result f = Some v ->
  (forall c, c ∈ l -> c ∈ _children f) ->
  within hsteps (for_each l (fun fut => Future_parent_done sr fut self)) w.
Proof.
  intros Hf Hr Hl.
  apply (within_for_each hsteps); [apply rtc_refl | apply hsteps_trans|].
  intros c w1 Hc Hw1.
  destruct (ext_hsteps _ _ Hw1 self f Hf) as (f' & Hf' & _ & Hr' & _ & Hc').
  eapply Future_parent_done_hsteps; [exact Hsr | exact Hf' | |].
  - apply Hc', Hl, Hc.
  - rewrite (Hr' _ Hr). eexists; reflexivity.
Qed.

Lemma Future_notify_hsteps self w f v :
  heap w !! self = Some f -> _result f = Some v ->
  within hsteps (Future_notify sr self) w.
Proof.
  intros Hf Hr. unfold Future_notify.
  hbind as f1 w1 Hf1; [wtriv|]. apply get_Ok in Hf1 as [-> Hf1].
  assert (f1 = f) as -> by congruence.
  hbind as u w1 Hloop.
  { eapply children_loop_hsteps; [exact Hf | exact Hr | auto]. }
  hbind as f2 w2 Hf2; [wtriv|]. apply get_Ok in Hf2 as [-> Hf2].
  apply (within_for_each hsteps); [apply rtc_refl | apply hsteps_trans|].
  intros cb v0 _ _. apply invoke_hsteps. exact Hsr.
Qed.

Lemma Future_set_result_hsteps self result w :
  within hsteps (Future_set_result sr self result) w.
Proof.
  unfold Future_set_result.
  hbind as f w0 Hf; [wtriv|]. apply get_Ok in Hf as [-> Hf].
  hbind as u w0 Hready; [wtriv|]. apply assert_Ok in Hready as [Hready ->].
  hbind as u' w0 Hdone; [wtriv|]. apply assert_Ok in Hdone as [Hdone ->].
  assert (_pending f = []) as Hp
    by (unfold Future_ready in Hready; destruct (_pending f); [reflexivity|discriminate]).
  assert (_result f = None) as Hr
    by (unfold Future_done in Hdone; destruct (_result f); [discriminate|reflexivity]).
  hbind as u'' w1 Hu.
  { apply within_update. intros f0 Hf0. apply hsteps_one.
    assert (f0 = f) as -> by congruence. apply hs_result; assumption. }
  apply update_Ok in Hu as (f0 & Hf0 & ->).
  eapply Future_notify_hsteps; [eapply put_lookup_eq; exact Hf0 | reflexivity].
Qed.

End Notify.

Lemma set_result_hsteps fuel self result w :
  within hsteps (set_result fuel self result) w.
Proof.
  revert self result w. induction fuel as [|n IH]; intros self result w; simpl.
  { wtriv. }
  hbind as u w1 Hset; [apply Future_set_result_hsteps; exact IH|].
  hbind as f w2 Hf; [wtriv|]. apply get_Ok in Hf as [-> Hf].
  destruct (cls f); try wtriv.
  apply within_update. intros f3 Hf3. apply hsteps_one.
  apply hs_future_result. exact Hf3.
Qed.

Lemma Future_add_ready_callback_hsteps fuel self cb w :
  within hsteps (Future_add_ready_callback fuel self cb) w.
Proof.
  unfold Future_add_ready_callback. hbind'.
  destruct (Future_ready a).
  - apply invoke_hsteps. apply set_result_hsteps.
  - apply within_update. intros f Hr. apply hsteps_one.
    apply hs_ready_callbacks. exact Hr.
Qed.

Lemma register_hsteps fuel self w : within hsteps (register fuel self) w.
Proof.
  revert self w. induction fuel as [|n IH]; intros self w; simpl.
  { wtriv. }
  hbind'. destruct (cls a); try apply Future_register_hsteps.
  hbind; [apply Future_register_hsteps|].
  destruct a0; [|wtriv].
  hbind'. hbind; [|wtriv].
  apply (within_for_each hsteps); [apply rtc_refl | apply hsteps_trans|].
  intros x v _ _. hbind; [apply IH | wtriv].
Qed.

Lemma Future_init_Ok parents hashid v w f w' :
  Future_init parents hashid v w = Ok f w' ->
  w' = w /\ _children f = [] /\ _result f = None /\ _registered f = false /\
  _done_callbacks f = [] /\ _ready_callbacks f = [] /\
  _hashid f = hashid /\ cls f = v.
Proof. unfold Future_init. intros [= <- <-]. repeat split. Qed.

Lemma Future_init_within (R : relation world) parents hashid v w :
  (forall w, R w w) -> within R (Future_init parents hashid v) w.
Proof. intros Hrefl w' [= <-]. apply Hrefl. Qed.

Lemma alloc_hsteps f w : _children f = [] -> within hsteps (alloc f) w.
Proof. intros Hc w' [= <-]. apply hsteps_one. apply hs_alloc. exact Hc. Qed.

Lemma alloc_Ok f w r w' :
  alloc f w = Ok r w' ->
  r = length (heap w) /\ w' = set_heap (heap w ++ [f]) w.
Proof. unfold alloc. intros [= <- <-]. split; reflexivity. Qed.

Lemma read_Ok {A} (g : world -> A) w a w' :
  read g w = Ok a w' -> w' = w /\ a = g w.
Proof. unfold read. intros [= <- <-]. split; reflexivity. Qed.

Lemma read_within (R : relation world) {A} (g : world -> A) w :
  (forall w, R w w) -> within R (read g) w.
Proof. intros Hrefl w' [= <-]. apply Hrefl. Qed.

Lemma new_list_csteps w : within csteps new_list w.
Proof. intros w' [= <-]. apply csteps_one. apply ls_new. Qed.

Lemma Template_init_hsteps `{Hashlib} `{SO : SetOrder} fuel jsonstr futures w :
  within hsteps (Template_init fuel jsonstr futures) w.
Proof.
  unfold Template_init. hbind'.
  hbind'.
  apply Future_init_Ok in Hm0 as (-> & Hc & _).
  hbind; [apply alloc_hsteps; exact Hc|].
  hbind; [apply Future_add_ready_callback_hsteps | wtriv].
Qed.

Lemma Template_from_object_hsteps `{Hashlib} `{SO : SetOrder} fuel obj w :
  within hsteps (Template_from_object fuel obj) w.
Proof.
  unfold Template_from_object. hbind'. hbind'. apply Template_init_hsteps.
Qed.

Lemma Indexor_init_hsteps fuel task keys w :
  within hsteps (Indexor_init fuel task keys) w.
Proof.
  unfold Indexor_init. hbind'. hbind.
  { apply Future_init_within. apply rtc_refl. }
  apply Future_init_Ok in Hm0 as (-> & Hc & _).
  hbind; [apply alloc_hsteps; exact Hc|].
  hbind; [apply Future_add_ready_callback_hsteps | wtriv].
Qed.

Lemma getitem_hsteps fuel self k w : within hsteps (getitem fuel self k) w.
Proof.
  unfold getitem. hbind'.
  destruct (cls a); try apply Indexor_init_hsteps. wtriv.
Qed.

Ltac cbind :=
  apply (within_bind csteps csteps_trans);
  [
  | let a := fresh "a" in let w1 := fresh "w" in
    let Hm := fresh "Hm" in let Hw := fresh "Hw" in
    intros a w1 Hm Hw;
    try (apply get_Ok in Hm as [-> Hm]);
    try (apply assert_Ok in Hm as [Hm ->]);
    try (apply lift_Ok in Hm as [-> Hm]) ].
Ltac cbind' := cbind; [wtriv|].
Ltac by_hsteps := eapply within_weaken; [intros ?; apply hsteps_csteps|].

Lemma Task_init_csteps `{Hashlib} `{SO : SetOrder} fuel func args default label w :
  within csteps (Task_init fuel func args default label) w.
Proof.
  unfold Task_init. cbind.
  { by_hsteps.
    apply (within_map_each hsteps); [apply rtc_refl | apply hsteps_trans|].
    intros x v _ _. destruct x; try apply Template_from_object_hsteps.
    simpl. hbind'. wtriv. }
  cbind'.
  cbind; [apply new_list_csteps|].
  cbind'.
  apply Future_init_Ok in Hm2 as (-> & Hc & _).
  by_hsteps. apply alloc_hsteps. exact Hc.
Qed.

Lemma list_append_csteps tape task w : within csteps (list_append tape task) w.
Proof.
  intros w'. unfold list_append.
  destruct (lists w !! tape) eqn:E; simpl; [|discriminate].
  intros [= <-]. apply csteps_one. apply ls_append. exact E.
Qed.

Lemma get_session_Ok self w s w' :
  get_session self w = Ok s w' -> w' = w /\ sessions w !! self = Some s.
Proof.
  unfold get_session. destruct (sessions w !! self); [|discriminate].
  intros [= <- <-]. split; reflexivity.
Qed.

Lemma get_session_within (R : relation world) self w :
  (forall w, R w w) -> within R (get_session self) w.
Proof.
  intros Hrefl w'. unfold get_session.
  destruct (sessions w !! self); simpl; [|discriminate].
  intros [= <-]. apply Hrefl.
Qed.

Lemma tape_record_csteps self task w : within csteps (tape_record self task) w.
Proof.
  unfold tape_record. cbind; [apply get_session_within; apply rtc_refl|].
  destruct (_task_tape a); [apply list_append_csteps | wtriv].
Qed.

Lemma Session_contains_hsteps self task w :
  within hsteps (Session_contains self task) w.
Proof.
  unfold Session_contains. hbind.
  { apply get_session_within. apply rtc_refl. }
  hbind'. wtriv.
Qed.

(** The part of [create_task] after the lookup missed and before the task
    is stored. *)
Lemma create_task_validation_hsteps fuel self (task_args : list ref) w :
  within hsteps
    (for_each task_args
       (fun arg =>
          let* af := get arg in
          (if is_task af then
             let* known := Session_contains self arg in
             if known then ret tt else raise ArgNotInSession
           else
             let* arg_tasks := lift (extract_tasks fuel arg) in
             for_each arg_tasks
               (fun arg_task =>
                  let* known := Session_contains self arg_task in
                  if known then ret tt else raise ArgNotInSession)) ;;;
          register fuel arg ;;; ret tt)) w.
Proof.
  apply (within_for_each hsteps); [apply rtc_refl | apply hsteps_trans|].
  intros arg v _ _. hbind'. hbind.
  { destruct (is_task a).
    - hbind; [apply Session_contains_hsteps|]. destruct a0; wtriv.
    - hbind'.
      apply (within_for_each hsteps); [apply rtc_refl | apply hsteps_trans|].
      intros t v' _ _. hbind; [apply Session_contains_hsteps|].
      destruct a1; wtriv. }
  hbind; [apply register_hsteps | wtriv].
Qed.

(* ===================================================================== *)
(** ** Session methods                                                    *)
(* ===================================================================== *)

Lemma update_session_Ok self g w u w' :
  update_session self g w = Ok u w' ->
  exists s, sessions w !! self = Some s /\
            w' = set_sessions (<[self := g s]> (sessions w)) w.
Proof.
  unfold update_session. destruct (sessions w !! self) as [s|]; [|discriminate].
  intros [= _ <-]. exists s. split; reflexivity.
Qed.

Lemma update_session_not_Raise self g w e w' :
  update_session self g w <> Raise e w'.
Proof. unfold update_session. destruct (sessions w !! self); discriminate. Qed.

Lemma get_session_not_Raise self w e w' : get_session self w <> Raise e w'.
Proof. unfold get_session. destruct (sessions w !! self); discriminate. Qed.

Lemma ret_Ok {A} (a b : A) w w' : ret a w = Ok b w' -> b = a /\ w' = w.
Proof. intros [= <- <-]. split; reflexivity. Qed.

(** What a call of [create_task] that returns has done: it built a
    candidate, and either found a task under the candidate's hashid and
    returned that one, or stored and returned the candidate. *)
Lemma Session_create_task_Ok `{Hashlib} `{SO : SetOrder} fuel self func args default label w t w' :
  Session_create_task fuel self func args default label w = Ok t w' ->
  exists cand w1 cf s,
    Task_init fuel func args default label w = Ok cand w1 /\
    heap w1 !! cand = Some cf /\
    sessions w !! self = Some s /\
    ((_tasks s !! _hashid cf = Some t /\ csteps w w') \/
     (_tasks s !! _hashid cf = None /\ t = cand /\
      exists w2, csteps w w2 /\ sessions w2 = sessions w /\
        w' = set_sessions
               (<[self := with_tasks (<[_hashid cf := cand]> (_tasks s)) s]>
                  (sessions w2)) w2)).
Proof.
  unfold Session_create_task. intros Hc.
  inv_bind Hc as cand w1 Hinit Hc.
  assert (csteps w w1) as H01
    by (eapply Task_init_csteps, Ok_final; exact Hinit).
  inv_bind Hc as cf w1' Hcf Hc. apply get_Ok in Hcf as [-> Hcf].
  inv_bind Hc as s w1' Hs Hc. apply get_session_Ok in Hs as [-> Hs].
  destruct (csteps_sessions _ _ H01) as [Hs1 _]. rewrite Hs1 in Hs.
  exists cand, w1, cf, s. repeat split; try assumption.
  destruct (_tasks s !! _hashid cf) as [known|] eqn:Hlook.
  - left. inv_bind Hc as u wt Ht Hc. apply ret_Ok in Hc as [-> ->].
    split; [reflexivity|].
    eapply csteps_trans; [exact H01|].
    eapply tape_record_csteps, Ok_final; exact Ht.
  - right. split; [reflexivity|].
    inv_bind Hc as u wt Ht Hc.
    assert (csteps w1 wt) as H1t
      by (eapply tape_record_csteps, Ok_final; exact Ht).
    inv_bind Hc as u' wv Hv Hc.
    assert (hsteps wt wv) as Htv.
    { destruct (cls cf); try discriminate.
      eapply create_task_validation_hsteps, Ok_final; exact Hv. }
    inv_bind Hc as b wr Hr Hc.
    assert (hsteps wv wr) as Hvr
      by (eapply register_hsteps, Ok_final; exact Hr).
    inv_bind Hc as u'' wu Hu Hc. apply update_session_Ok in Hu as (s' & Hs' & ->).
    apply ret_Ok in Hc as [-> ->].
    assert (csteps w wr) as H0r.
    { eapply csteps_trans; [exact H01|].
      eapply csteps_trans; [exact H1t|].
      apply hsteps_csteps. eapply hsteps_trans; eassumption. }
    destruct (csteps_sessions _ _ H0r) as [Hsr _].
    split; [reflexivity|]. exists wr. split; [exact H0r|].
    split; [exact Hsr|].
    rewrite Hsr in Hs'. assert (s' = s) as -> by congruence. reflexivity.
Qed.

(** A call of [create_task] that raises has written to futures and lists
    only. *)
Lemma Session_create_task_Raise `{Hashlib} `{SO : SetOrder} fuel self func args default label w e w' :
  Session_create_task fuel self func args default label w = Raise e w' ->
  csteps w w'.
Proof.
  unfold Session_create_task. intros Hc.
  inv_bind Hc as cand w1 Hinit Hc.
  { eapply Task_init_csteps, Raise_final; exact Hinit. }
  assert (csteps w w1) as H01
    by (eapply Task_init_csteps, Ok_final; exact Hinit).
  eapply csteps_trans; [exact H01|].
  inv_bind Hc as cf w1' Hcf Hc; [exfalso; eapply get_not_Raise; eassumption|].
  apply get_Ok in Hcf as [-> Hcf].
  inv_bind Hc as s w1' Hs Hc; [exfalso; eapply get_session_not_Raise; eassumption|].
  apply get_session_Ok in Hs as [-> Hs].
  destruct (_tasks s !! _hashid cf) as [known|] eqn:Hlook.
  - inv_bind Hc as u wt Ht Hc; [|discriminate].
    eapply tape_record_csteps, Raise_final; exact Ht.
  - inv_bind Hc as u wt Ht Hc.
    { eapply tape_record_csteps, Raise_final; exact Ht. }
    eapply csteps_trans;
      [eapply tape_record_csteps, Ok_final; exact Ht|].
    inv_bind Hc as u' wv Hv Hc.
    { destruct (cls cf); try discriminate.
      apply hsteps_csteps.
      eapply create_task_validation_hsteps, Raise_final; exact Hv. }
    eapply csteps_trans.
    { destruct (cls cf); try discriminate.
      apply hsteps_csteps.
      eapply create_task_validation_hsteps, Ok_final; exact Hv. }
    inv_bind Hc as b wr Hr Hc.
    { apply hsteps_csteps. eapply register_hsteps, Raise_final; exact Hr. }
    inv_bind Hc as u'' wu Hu Hc; [exfalso; eapply update_session_not_Raise; eassumption|].
    discriminate.
Qed.

Lemma Session_create_task_steps `{Hashlib} `{SO : SetOrder} fuel self func args default label w :
  within steps (Session_create_task fuel self func args default label) w.
Proof.
  intros w' Hf.
  destruct (Session_create_task fuel self func args default label w)
    as [t w1|e w1|] eqn:E; simpl in Hf; [| |discriminate];
    injection Hf as ->.
  - apply Session_create_task_Ok in E
      as (cand & w1 & cf & s & _ & _ & Hs & [[_ Hc] | (Hnone & _ & w2 & Hc & Hs2 & ->)]).
    + apply csteps_steps. exact Hc.
    + eapply steps_trans; [apply csteps_steps; exact Hc|].
      apply steps_one. apply ss_insert; [rewrite Hs2; exact Hs | exact Hnone].
  - apply csteps_steps. eapply Session_create_task_Raise. exact E.
Qed.

Ltac sbind :=
  apply (within_bind steps steps_trans);
  [
  | let a := fresh "a" in let w1 := fresh "w" in
    let Hm := fresh "Hm" in let Hw := fresh "Hw" in
    intros a w1 Hm Hw;
    try (apply get_Ok in Hm as [-> Hm]);
    try (apply assert_Ok in Hm as [Hm ->]);
    try (apply lift_Ok in Hm as [-> Hm]) ].
Ltac sbind' := sbind; [wtriv|].
Ltac by_hsteps' := eapply within_weaken; [intros ?; apply hsteps_steps|].
Ltac by_csteps := eapply within_weaken; [intros ?; apply csteps_steps|].

Lemma Session_init_steps w : within steps Session_init w.
Proof. intros w' [= <-]. apply steps_one. apply ss_new. Qed.

Lemma Session_enter_steps self w : within steps (Session_enter self) w.
Proof.
  intros w'. unfold Session_enter. destruct (_active w); simpl; intros [= <-].
  - apply rtc_refl.
  - apply steps_one. apply ss_active.
Qed.

Lemma Session_active_steps w : within steps Session_active w.
Proof.
  intros w'. unfold Session_active. destruct (_active w); simpl; intros [= <-];
    apply rtc_refl.
Qed.

Lemma Rule_call_steps `{Hashlib} `{SO : SetOrder} fuel rule args w :
  within steps (Rule_call fuel rule args) w.
Proof.
  unfold Rule_call. sbind; [apply Session_active_steps|].
  apply Session_create_task_steps.
Qed.

Lemma run_body_steps `{Hashlib} `{Globals} `{SO : SetOrder} fuel p w :
  within steps (run_body fuel p) w.
Proof.
  revert w. induction p as [v|msg|name args k IH|fut key k IH]; intros w; simpl.
  - wtriv.
  - wtriv.
  - destruct (global_rule name); [|wtriv].
    sbind; [apply Rule_call_steps | apply IH].
  - sbind; [by_hsteps'; apply getitem_hsteps | apply IH].
Qed.

Lemma update_session_tape_steps self tape w :
  within steps (update_session self (with_task_tape tape)) w.
Proof.
  intros w'. unfold update_session.
  destruct (sessions w !! self) eqn:E; simpl; [|discriminate].
  intros [= <-]. apply steps_one. apply ss_tape. exact E.
Qed.

Lemma Session_record_steps {A} self tape (body : M A) w :
  (forall w1, within steps body w1) ->
  within steps (Session_record self tape body) w.
Proof.
  intros Hbody. unfold Session_record.
  sbind; [apply update_session_tape_steps|].
  apply (within_try_finally steps); [apply rtc_refl | apply steps_trans | apply Hbody |].
  intros w1 _. apply update_session_tape_steps.
Qed.

Lemma Task_set_future_result_hsteps self fut w :
  within hsteps (Task_set_future_result self fut) w.
Proof.
  apply within_update. intros f Hr. apply hsteps_one.
  apply hs_future_result. exact Hr.
Qed.

Lemma Session_run_task_steps `{Hashlib} `{Globals} `{SO : SetOrder} fuel self task allow w :
  within steps (Session_run_task fuel self task allow) w.
Proof.
  unfold Session_run_task. sbind'. sbind'.
  sbind; [destruct (negb allow); wtriv|].
  destruct (cls a); try wtriv.
  sbind.
  { apply (within_map_each steps); [apply rtc_refl | apply steps_trans|].
    intros x v _ _. wtriv. }
  sbind; [apply run_body_steps|].
  sbind'. destruct (negb (Future_ready a4)); [wtriv|].
  sbind.
  { destruct a3; try (sbind; [by_hsteps'; apply Template_from_object_hsteps|];
                      sbind'; wtriv).
    wtriv. }
  destruct a5 as [fut|].
  - sbind'. sbind'.
    sbind; [by_hsteps'; apply Task_set_future_result_hsteps|].
    sbind; [by_hsteps'; apply Future_add_done_callback_hsteps|].
    sbind; [by_hsteps'; apply register_hsteps | wtriv].
  - sbind; [by_hsteps'; apply set_result_hsteps | wtriv].
Qed.

Lemma new_queue_steps w : within steps new_queue w.
Proof.
  intros w' [= <-]. apply hsteps_steps, hsteps_one. apply hs_queues.
Qed.

Lemma popleft_steps queue w : within steps (popleft queue) w.
Proof.
  intros w'. unfold popleft.
  destruct (queues w !! queue) as [[|t q]|]; simpl; try discriminate;
    intros [= <-].
  - apply rtc_refl.
  - apply hsteps_steps, hsteps_one. apply hs_queues.
Qed.

Lemma schedule_tasks_hsteps fuel queue fut w :
  within hsteps (schedule_tasks fuel queue fut) w.
Proof.
  unfold schedule_tasks. hbind'.
  apply (within_for_each hsteps); [apply rtc_refl | apply hsteps_trans|].
  intros t v _ _. hbind'.
  destruct (negb (Task_has_run a0)); [|wtriv].
  apply Future_add_ready_callback_hsteps.
Qed.

Lemma Task_future_result_hsteps self w :
  within hsteps (Task_future_result self) w.
Proof.
  unfold Task_future_result. hbind'.
  destruct (negb (Task_has_run a)); [wtriv|].
  destruct (Future_done a).
  - destruct (cls a) as [| |? ? ? [?|] ? ?]; wtriv.
  - destruct (cls a) as [| |? ? ? [?|] ? ?]; wtriv.
Qed.

Lemma eval_loop_steps `{Hashlib} `{Globals} `{SO : SetOrder} fuel n self queue w :
  within steps (eval_loop fuel n self queue) w.
Proof.
  revert w. induction n as [|n IH]; intros w; simpl.
  - sbind; [apply popleft_steps|]. destruct a; wtriv.
  - sbind; [apply popleft_steps|]. destruct a as [task|]; [|wtriv].
    sbind'. sbind'.
    destruct (cls a); try wtriv.
    sbind.
    { apply Session_record_steps. intros w2. apply Session_run_task_steps. }
    sbind'. sbind.
    { destruct (negb (Future_done a2)); [|wtriv].
      sbind; [by_hsteps'; apply Task_future_result_hsteps|].
      by_hsteps'. apply schedule_tasks_hsteps. }
    apply IH.
Qed.

Lemma Session_eval_steps `{Hashlib} `{Globals} `{SO : SetOrder} fuel self obj w :
  within steps (Session_eval fuel self obj) w.
Proof.
  unfold Session_eval. sbind.
  { destruct obj; try (sbind; [by_hsteps'; apply Template_from_object_hsteps|];
                       sbind'; wtriv).
    wtriv. }
  destruct a as [fut|]; [|wtriv].
  sbind; [by_hsteps'; apply register_hsteps|].
  sbind; [apply new_queue_steps|].
  sbind; [by_hsteps'; apply schedule_tasks_hsteps|].
  sbind; [apply eval_loop_steps | wtriv].
Qed.

(* ===================================================================== *)
(** ** A future that is not registered is never completed                 *)
(* ===================================================================== *)

(** [f] is as its constructor left it: its pending set is [pend], it has
    no result, it is not registered, and no future lists it as a child. *)
Definition unwired (f : ref) (pend : list ref) (w : world) : Prop :=
  exists fut, heap w !! f = Some fut /\
    _pending fut = pend /\ _result fut = None /\ _registered fut = false /\
    forall g gf, heap w !! g = Some gf -> f ∉ _children gf.

Lemma unwired_put f pend w r fr g :
  heap w !! r = Some fr ->
  unwired f pend w ->
  (r = f -> _pending g = _pending fr /\ _result g = _result fr /\
            _registered g = _registered fr) ->
  f ∉ _children g ->
  unwired f pend (put r g w).
Proof.
  intros Hr (fut & Hf & Hp & Hres & Hreg & Hch) Hsame Hnew.
  destruct (decide (r = f)) as [->|Hne].
  - destruct (Hsame eq_refl) as (Ep & Er & Eg).
    assert (fr = fut) as -> by congruence.
    exists g. split; [eapply put_lookup_eq; exact Hr|].
    repeat split; try congruence.
    intros g0 gf0. destruct (decide (g0 = f)) as [->|Hg].
    + rewrite (put_lookup_eq _ _ _ _ Hr). intros [= <-]. exact Hnew.
    + rewrite put_lookup_ne by congruence. apply Hch.
  - exists fut. split; [rewrite put_lookup_ne by exact Hne; exact Hf|].
    repeat split; try assumption.
    intros g0 gf0. destruct (decide (g0 = r)) as [->|Hg].
    + rewrite (put_lookup_eq _ _ _ _ Hr). intros [= <-]. exact Hnew.
    + rewrite put_lookup_ne by congruence. apply Hch.
Qed.

Lemma unwired_same_heap f pend w w' :
  heap w' = heap w -> unwired f pend w -> unwired f pend w'.
Proof. intros Hh (fut & H). exists fut. rewrite Hh. exact H. Qed.

Lemma not_elem_of_set_add (x y : ref) l : x <> y -> x ∉ l -> x ∉ set_add y l.
Proof.
  intros Hne Hl. unfold set_add. case_bool_decide; [exact Hl|].
  rewrite elem_of_app, list_elem_of_singleton. tauto.
Qed.

(** One write keeps [f] unwired, unless it is the write of [f]'s own
    [_registered]. *)
Lemma hstep_unwired f pend w w' :
  pend <> [] ->
  hstep w w' -> unwired f pend w ->
  (forall fut', heap w' !! f = Some fut' -> _registered fut' = false) ->
  unwired f pend w'.
Proof.
  intros Hpend Hstep Hu Hlater.
  pose proof Hu as (fut & Hf & Hp & Hres & Hreg & Hch).
  destruct Hstep.
  - exists fut. split; [simpl; apply lookup_app_l_Some; exact Hf|].
    repeat split; try assumption.
    intros g gf. simpl. intros Hg.
    apply lookup_app_Some in Hg as [Hg | [_ Hg]].
    + eapply Hch; exact Hg.
    + destruct (g - length (heap w))%nat; simpl in Hg; [|discriminate].
      injection Hg as <-. rewrite H. apply not_elem_of_nil.
  - eapply unwired_put; try eassumption.
    + intros ->. exfalso.
      specialize (Hlater _ (put_lookup_eq _ _ _ _ H)). discriminate.
    + simpl. eapply Hch; exact H.
  - eapply unwired_put; try eassumption.
    + intros _. repeat split.
    + simpl. apply not_elem_of_set_add.
      * intros ->. congruence.
      * eapply Hch; exact H.
  - eapply unwired_put; try eassumption.
    + intros ->. exfalso. exact (Hch _ _ H0 H1).
    + simpl. eapply Hch; exact H.
  - eapply unwired_put; try eassumption.
    + intros ->. exfalso. congruence.
    + simpl. eapply Hch; exact H.
  - eapply unwired_put; try eassumption.
    + intros _. repeat split.
    + simpl. eapply Hch; exact H.
  - eapply unwired_put; try eassumption.
    + intros _. repeat split.
    + simpl. eapply Hch; exact H.
  - eapply unwired_put; try eassumption.
    + intros _. repeat split.
    + simpl. eapply Hch; exact H.
  - eapply unwired_same_heap; [|exact Hu]. reflexivity.
Qed.

Lemma step_unwired f pend w w' :
  pend <> [] ->
  step w w' -> unwired f pend w ->
  (forall fut', heap w' !! f = Some fut' -> _registered fut' = false) ->
  unwired f pend w'.
Proof.
  intros Hpend [[Hs|Hs]|Hs] Hu Hlater.
  - eapply hstep_unwired; eassumption.
  - eapply unwired_same_heap; [|exact Hu]. destruct Hs; reflexivity.
  - eapply unwired_same_heap; [|exact Hu]. destruct Hs; reflexivity.
Qed.

Lemma steps_unwired f pend w w' :
  pend <> [] ->
  steps w w' -> unwired f pend w ->
  (forall fut', heap w' !! f = Some fut' -> _registered fut' = false) ->
  unwired f pend w'.
Proof.
  intros Hpend Hsteps. induction Hsteps as [w|w w1 w' H1 Hrest IH];
    intros Hu Hlater; [exact Hu|].
  apply IH; [|exact Hlater].
  eapply step_unwired; try eassumption.
  intros fut1 Hf1.
  destruct (ext_steps _ _ Hrest f fut1 Hf1) as (fut' & Hf' & _ & _ & Hreg & _).
  destruct (_registered fut1) eqn:E; [|reflexivity].
  rewrite (Hlater _ Hf') in Hreg. symmetry. apply Hreg. reflexivity.
Qed.

(** [register] leaves the flag set, so a future whose flag is not set has
    never been registered. *)
Lemma Future_register_sets_flag self w b w' :
  Future_register self w = Ok b w' ->
  exists fut', heap w' !! self = Some fut' /\ _registered fut' = true.
Proof.
  unfold Future_register. intros Hr.
  inv_bind Hr as f w0 Hf Hr. apply get_Ok in Hf as [-> Hf].
  destruct (_registered f) eqn:Hreg; simpl in Hr.
  - injection Hr as <- <-. exists f. split; assumption.
  - inv_bind Hr as u w1 Hu Hr. apply update_Ok in Hu as (f0 & Hf0 & ->).
    inv_bind Hr as u' w2 Hloop Hr. apply ret_Ok in Hr as [-> ->].
    assert (hsteps (put self (with_registered true f0) w) w2) as Hs.
    { eapply (within_for_each hsteps); [apply rtc_refl | apply hsteps_trans | |
                                        eapply Ok_final; exact Hloop].
      intros x v _ Hv. apply ext_hsteps in Hv.
      destruct (Hv self (with_registered true f0)) as (f' & Hf' & G).
      { eapply put_lookup_eq; exact Hf0. }
      eapply Future_add_child_hsteps; [exact Hf'|]. apply G. reflexivity. }
    destruct (ext_hsteps _ _ Hs self (with_registered true f0))
      as (f' & Hf' & _ & _ & Hreg' & _).
    { eapply put_lookup_eq; exact Hf0. }
    exists f'. split; [exact Hf' | apply Hreg'; reflexivity].
Qed.

(** C10: a future created with a parent that is not done, and on which
    [register] is never called (its [_registered] flag is still unset),
    is never told of a parent's completion, whatever the engine does: its
    pending set stays as it was created, it is neither ready nor done, no
    future lists it as a child, and [result()] without default raises
    [FutureNotDone]. *)
Theorem unregistered_future_never_completes
  (w w' : world) (f : ref) (fut fut' : future) :
  heap w !! f = Some fut ->
  _pending fut <> [] -> _result fut = None -> _registered fut = false ->
  (forall g gf, heap w !! g = Some gf -> f ∉ _children gf) ->
  steps w w' ->
  heap w' !! f = Some fut' -> _registered fut' = false ->
  _pending fut' = _pending fut /\
  Future_ready fut' = false /\
  Future_done fut' = false /\
  (forall g gf, heap w' !! g = Some gf -> f ∉ _children gf) /\
  (forall fuel, Future_result fuel f None w' = Exc FutureNotDone).
Proof.
  intros Hf Hpend Hres Hreg Hch Hsteps Hf' Hreg'.
  assert (unwired f (_pending fut) w') as (fut2 & Hf2 & Hp2 & Hr2 & _ & Hch2).
  { eapply steps_unwired; try eassumption.
    - exists fut. repeat split; assumption.
    - intros fut0 Hf0. congruence. }
  assert (fut2 = fut') as -> by congruence.
  split; [exact Hp2|]. split.
  { unfold Future_ready. rewrite Hp2. destruct (_pending fut); [contradiction|reflexivity]. }
  split; [unfold Future_done; rewrite Hr2; reflexivity|].
  split; [exact Hch2|].
  intros fuel. unfold Future_result, result_with. rewrite Hf', Hr2. reflexivity.
Qed.

Lemma unregistered_future_never_completes_witness :
  option_map _pending (heap unwired_after !! 1%nat) = Some [0%nat] /\
  option_map _result (heap unwired_after !! 0%nat)
    = Some (Some (VDict [("a", VInt 1)])) /\
  Future_result 0 1 None unwired_after = Exc FutureNotDone.
Proof.
  destruct (unregistered_future_never_completes
              unwired_before unwired_after 1
              {| _pending := [0%nat]; _children := []; _result := None;
                 _done_callbacks := []; _ready_callbacks := [CbResolve];
                 _registered := false;
                 _hashid := Indexor_hashid
                              (hash_text (H := demo_hashlib) (spec_text setup_func []))
                              [KStr "a"];
                 cls := IsIndexor 0 [KStr "a"] |}
              {| _pending := [0%nat]; _children := []; _result := None;
                 _done_callbacks := []; _ready_callbacks := [CbResolve];
                 _registered := false;
                 _hashid := Indexor_hashid
                              (hash_text (H := demo_hashlib) (spec_text setup_func []))
                              [KStr "a"];
                 cls := IsIndexor 0 [KStr "a"] |})
    as (Hp & Hready & Hdone & Hch & Hres).
  - reflexivity.
  - discriminate.
  - reflexivity.
  - reflexivity.
  - intros [|[|g]] gf Hg; simpl in Hg; try discriminate;
      injection Hg as <-; apply not_elem_of_nil.
  - apply hsteps_steps.
    apply (set_result_hsteps 2 0 (VDict [("a", VInt 1)]) unwired_before).
    reflexivity.
  - reflexivity.
  - reflexivity.
  - split; [reflexivity|]. split; [reflexivity|]. apply Hres.
Defined.

(* ===================================================================== *)
(** ** Session.record                                                     *)
(* ===================================================================== *)

Lemma task_tape_of_update self t s (w : world) :
  sessions w !! self = Some s ->
  task_tape_of self (set_sessions (<[self := with_task_tape t s]> (sessions w)) w)
  = Some t.
Proof.
  intros Hs. unfold task_tape_of. simpl.
  rewrite list_lookup_insert_eq by (eapply lookup_lt_Some; exact Hs).
  reflexivity.
Qed.

(** C8, the claim as stated fails: leaving a [record] scope that was
    entered while a tape was set ([Some 7]) does not bring that tape back,
    the tape is [None]. *)
Lemma record_exit_forgets_previous_tape :
  exists w', nested_record empty_world = Ok (Some 7%nat, None) w'.
Proof. eexists. vm_compute. reflexivity. Qed.

(** C8 (amended): [record(tape)] runs the statements of its scope in the
    store where [_task_tape] is [tape]; when the scope is left, by return
    or by exception, [_task_tape] is [None], whatever it was before the
    scope was entered; this is the value before entry exactly when no tape
    was set then. *)
Theorem Session_record_exit {A} (self tape : nat) (body : M A)
  (w : world) (s : session) :
  sessions w !! self = Some s ->
  exists w1,
    w1 = set_sessions (<[self := with_task_tape (Some tape) s]> (sessions w)) w /\
    task_tape_of self w1 = Some (Some tape) /\
    (forall a w2, body w1 = Ok a w2 -> is_Some (sessions w2 !! self) ->
       exists w', Session_record self tape body w = Ok a w' /\
                  task_tape_of self w' = Some None) /\
    (forall e w2, body w1 = Raise e w2 -> is_Some (sessions w2 !! self) ->
       exists w', Session_record self tape body w = Raise e w' /\
                  task_tape_of self w' = Some None) /\
    (Some None = task_tape_of self w <-> _task_tape s = None).
Proof.
  intros Hs. eexists. split; [reflexivity|].
  split; [apply task_tape_of_update; exact Hs|].
  split; [|split].
  - intros a w2 Hb [s2 Hs2].
    unfold Session_record, bind, update_session, try_finally.
    rewrite Hs, Hb. unfold bind. rewrite Hs2. simpl.
    eexists. split; [reflexivity|]. apply task_tape_of_update. exact Hs2.
  - intros e w2 Hb [s2 Hs2].
    unfold Session_record, bind, update_session, try_finally.
    rewrite Hs, Hb. unfold bind. rewrite Hs2. simpl.
    eexists. split; [reflexivity|]. apply task_tape_of_update. exact Hs2.
  - unfold task_tape_of. rewrite Hs. simpl. split; congruence.
Qed.

Lemma Session_record_exit_witness :
  exists w1,
    w1 = set_sessions
           (<[0%nat := with_task_tape (Some 3%nat) taped_session]>
              (sessions taped_world))
           taped_world /\
    task_tape_of 0 w1 = Some (Some 3%nat) /\
    (forall a w2, ret tt w1 = Ok a w2 -> is_Some (sessions w2 !! 0%nat) ->
       exists w', Session_record 0 3 (ret tt) taped_world = Ok a w' /\
                  task_tape_of 0 w' = Some None) /\
    (forall e w2, ret tt w1 = Raise e w2 -> is_Some (sessions w2 !! 0%nat) ->
       exists w', Session_record 0 3 (ret tt) taped_world = Raise e w' /\
                  task_tape_of 0 w' = Some None) /\
    (Some None = task_tape_of 0 taped_world <-> _task_tape taped_session = None).
Proof.
  apply (Session_record_exit 0 3 (ret tt) taped_world taped_session).
  reflexivity.
Defined.

(* ===================================================================== *)
(** ** Induction on values                                                *)
(* ===================================================================== *)

Section PyvalInd.
Variable P : pyval -> Prop.
Hypothesis HNone : P VNone.
Hypothesis HBool : forall b, P (VBool b).
Hypothesis HInt : forall z, P (VInt z).
Hypothesis HStr : forall s, P (VStr s).
Hypothesis HList : forall l, Forall P l -> P (VList l).
Hypothesis HDict : forall d, Forall (fun kv => P (snd kv)) d -> P (VDict d).
Hypothesis HFut : forall r, P (VFut r).

Fixpoint pyval_nested_ind (v : pyval) : P v :=
  match v with
  | VNone => HNone
  | VBool b => HBool b
  | VInt z => HInt z
  | VStr s => HStr s
  | VList l =>
      HList l ((fix go (l : list pyval) : Forall P l :=
                  match l with
                  | [] => @List.Forall_nil _ P
                  | x :: l' => @List.Forall_cons _ P x l' (pyval_nested_ind x) (go l')
                  end) l)
  | VDict d =>
      HDict d ((fix go (d : list (string * pyval))
                  : Forall (fun kv => P (snd kv)) d :=
                  match d with
                  | [] => @List.Forall_nil _ _
                  | kv :: d' =>
                      @List.Forall_cons _ (fun kv => P (snd kv)) kv d'
                                        (pyval_nested_ind (snd kv)) (go d')
                  end) d)
  | VFut r => HFut r
  end.

End PyvalInd.

(* ===================================================================== *)
(** ** Which exceptions the future classes raise                          *)
(* ===================================================================== *)

Section RaisesOnly.
Context (P : exn -> Prop).

Lemma raises_only_ret {A} (a : A) : raises_only P (ret a).
Proof. intros w e w' [=]. Qed.

Lemma raises_only_abort {A} : raises_only P (@abort A).
Proof. intros w e w' [=]. Qed.

Lemma raises_only_raise {A} e : P e -> raises_only P (@raise A e).
Proof. intros He w e0 w' [= <- _]. exact He. Qed.

Lemma raises_only_get r : raises_only P (get r).
Proof. intros w e w' H. exfalso. eapply get_not_Raise; exact H. Qed.

Lemma raises_only_update r g : raises_only P (update r g).
Proof. intros w e w' H. exfalso. eapply update_not_Raise; exact H. Qed.

Lemma raises_only_read {A} (g : world -> A) : raises_only P (read g).
Proof. intros w e w' [=]. Qed.

Lemma raises_only_alloc f : raises_only P (alloc f).
Proof. intros w e w' [=]. Qed.

Lemma raises_only_assert b : P AssertionError -> raises_only P (assert b).
Proof.
  intros HP w e w' H. apply assert_Raise in H as (_ & -> & _). exact HP.
Qed.

Lemma raises_only_lift {A} (r : world -> res A) :
  (forall w e, r w = Exc e -> P e) -> raises_only P (lift r).
Proof.
  intros Hr w e w' H. apply lift_Raise in H as [-> H]. eapply Hr; exact H.
Qed.

Lemma raises_only_bind {A B} (m : M A) (k : A -> M B) :
  raises_only P m -> (forall a, raises_only P (k a)) ->
  raises_only P (bind m k).
Proof.
  intros Hm Hk w e w' H. inv_bind H as a w1 H1 H2.
  - eapply Hm; exact H1.
  - eapply Hk; exact H2.
Qed.

Lemma raises_only_for_each {A} (l : list A) (body : A -> M unit) :
  (forall x, raises_only P (body x)) -> raises_only P (for_each l body).
Proof.
  intros Hb. induction l as [|x l IH]; simpl.
  - apply raises_only_ret.
  - apply raises_only_bind; [apply Hb | intros _; exact IH].
Qed.

Lemma raises_only_map_each {A B} (l : list A) (f : A -> M B) :
  (forall x, raises_only P (f x)) -> raises_only P (map_each l f).
Proof.
  intros Hf. induction l as [|x l IH]; simpl.
  - apply raises_only_ret.
  - apply raises_only_bind; [apply Hf|]. intros y.
    apply raises_only_bind; [exact IH|]. intros ys. apply raises_only_ret.
Qed.

End RaisesOnly.

Lemma res_bind_Exc {A B} (r : res A) (k : A -> res B) e :
  res_bind r k = Exc e -> r = Exc e \/ exists a, r = Val a /\ k a = Exc e.
Proof.
  destruct r as [a|e0|]; simpl; [|intros [= <-]|discriminate].
  - intros H. right. exists a. split; [reflexivity | exact H].
  - left. reflexivity.
Qed.

Lemma res_sequence_Exc {A} (l : list (res A)) e :
  res_sequence l = Exc e -> Exists (fun r => r = Exc e) l.
Proof.
  induction l as [|r l IH]; simpl; [discriminate|].
  intros H. apply res_bind_Exc in H as [H | (a & Ha & H)].
  - left. exact H.
  - apply res_bind_Exc in H as [H | (xs & Hxs & H)]; [|discriminate].
    right. apply IH. exact H.
Qed.

Lemma subscript_kernel obj k e : subscript obj k = Exc e -> kernel_exn e.
Proof.
  destruct obj, k; simpl; try (intros [= <-]; exact I); try discriminate.
  - destruct (_ || _); [intros [= <-]; exact I|].
    destruct (String.get _ _); [discriminate | intros [= <-]; exact I].
  - destruct (_ || _); [intros [= <-]; exact I|].
    destruct (_ !! _); [discriminate | intros [= <-]; exact I].
  - destruct (List.find _ _); [discriminate | intros [= <-]; exact I].
Qed.

Lemma subscripts_kernel obj keys e : subscripts obj keys = Exc e -> kernel_exn e.
Proof.
  revert obj. induction keys as [|k keys IH]; intros obj; simpl; [discriminate|].
  destruct (subscript obj k) eqn:E; [apply IH | | discriminate].
  intros [= <-]. eapply subscript_kernel; exact E.
Qed.

(** An exception of [decode_classes] comes from a class decoder. *)
Lemma decode_classes_Exc classes v e :
  decode_classes classes v = Exc e ->
  exists tag dec payload, classes tag = Some dec /\ dec payload = Exc e.
Proof.
  revert e. induction v as [| | | |l IH|d IH|] using pyval_nested_ind;
    intros e; simpl; try discriminate.
  - intros H. apply res_bind_Exc in H as [H | (l' & _ & H)]; [|discriminate].
    apply res_sequence_Exc in H. apply Exists_exists in H as (r & Hin & ->).
    apply list_elem_of_In, in_map_iff in Hin as (x & Hx & Hin).
    rewrite Forall_forall in IH. eapply IH; [|exact Hx].
    apply list_elem_of_In. exact Hin.
  - intros H. apply res_bind_Exc in H as [H | (d' & _ & H)].
    + apply res_sequence_Exc in H. apply Exists_exists in H as (r & Hin & ->).
      apply list_elem_of_In, in_map_iff in Hin as (kv & Hx & Hin).
      apply res_bind_Exc in Hx as [Hx | (y & _ & Hx)]; [|discriminate].
      rewrite Forall_forall in IH. eapply (IH kv); [|exact Hx].
      apply list_elem_of_In. exact Hin.
    + destruct d' as [|[tag payload] [|? ?]]; try discriminate.
      destruct (classes tag) as [dec|] eqn:E; [|discriminate].
      exists tag, dec, payload. split; assumption.
Qed.

Lemma result_with_None_kernel h r e :
  result_with (fun _ d => Val d) h r None = Exc e -> kernel_exn e.
Proof.
  unfold result_with. destruct (h !! r) as [f|]; [|discriminate].
  destruct (_result f); [discriminate|]. intros [= <-]. exact I.
Qed.

Lemma future_decoder_kernel futures result_of dct e :
  (forall r e, result_of r = Exc e -> kernel_exn e) ->
  future_decoder futures result_of dct = Exc e -> kernel_exn e.
Proof.
  intros Hres. unfold future_decoder. intros H.
  apply res_bind_Exc in H as [H | (hv & _ & H)].
  - eapply subscript_kernel; exact H.
  - destruct hv; try (injection H as <-; exact I); try discriminate.
    destruct (futures !! s) as [r|]; [eapply Hres; exact H|].
    injection H as <-. exact I.
Qed.

Lemma Template_substitute_kernel self w e :
  Template_substitute self w = Exc e -> kernel_exn e.
Proof.
  unfold Template_substitute, Template_substitute_with.
  destruct (heap w !! self) as [f|]; [|discriminate].
  destruct (cls f) as [jsonstr futures| |]; try discriminate.
  destruct (Json.loads jsonstr) as [v|]; [|intros [= <-]; exact I].
  intros H. apply decode_classes_Exc in H as (tag & dec & payload & Hc & Hd).
  destruct (_ || _); [|discriminate]. injection Hc as <-.
  eapply future_decoder_kernel; [|exact Hd].
  intros r e0. apply result_with_None_kernel.
Qed.

Lemma Indexor_resolve_kernel self w e :
  Indexor_resolve self w = Exc e -> kernel_exn e.
Proof.
  unfold Indexor_resolve.
  destruct (heap w !! self) as [f|]; [|discriminate].
  destruct (cls f) as [|task keys|]; try discriminate.
  intros H. apply res_bind_Exc in H as [H | (obj & _ & H)].
  - eapply result_with_None_kernel; exact H.
  - eapply subscripts_kernel; exact H.
Qed.

Lemma Future_result_None_kernel fuel self w e :
  Future_result fuel self None w = Exc e -> kernel_exn e.
Proof.
  unfold Future_result, result_with.
  destruct (heap w !! self) as [f|]; [|discriminate].
  destruct (_result f); [discriminate|]. intros [= <-]. exact I.
Qed.

Ltac rbind := apply raises_only_bind; [|intros ?].
Ltac rtriv :=
  first [ apply raises_only_ret | apply raises_only_abort
        | apply raises_only_get | apply raises_only_update
        | apply raises_only_read | apply raises_only_alloc
        | apply raises_only_assert; exact I
        | apply raises_only_raise; exact I ].

Lemma schedule_raises queue task : raises_only kernel_exn (schedule queue task).
Proof.
  intros w e w'. unfold schedule. destruct (queues w !! queue); [|discriminate].
  case_bool_decide; discriminate.
Qed.

Lemma invoke_raises sr cb self :
  (forall r v, raises_only kernel_exn (sr r v)) ->
  raises_only kernel_exn (invoke sr cb self).
Proof.
  intros Hsr. destruct cb; simpl.
  - rbind; [|apply Hsr]. apply raises_only_lift.
    intros w e. apply Template_substitute_kernel.
  - rbind; [|apply Hsr]. apply raises_only_lift.
    intros w e. apply Indexor_resolve_kernel.
  - apply schedule_raises.
  - rbind; [|apply Hsr]. apply raises_only_lift.
    intros w e. apply Future_result_None_kernel.
Qed.

Lemma Future_parent_done_raises sr self fut :
  (forall r v, raises_only kernel_exn (sr r v)) ->
  raises_only kernel_exn (Future_parent_done sr self fut).
Proof.
  intros Hsr. unfold Future_parent_done. rbind; [rtriv|].
  rbind; [case_bool_decide; rtriv|].
  rbind; [rtriv|]. destruct (Future_ready _); [|rtriv].
  apply raises_only_for_each. intros cb. apply invoke_raises. exact Hsr.
Qed.

Lemma Future_set_result_raises sr self result :
  (forall r v, raises_only kernel_exn (sr r v)) ->
  raises_only kernel_exn (Future_set_result sr self result).
Proof.
  intros Hsr. unfold Future_set_result, Future_notify.
  rbind; [rtriv|]. rbind; [rtriv|]. rbind; [rtriv|]. rbind; [rtriv|].
  rbind; [rtriv|].
  rbind; [apply raises_only_for_each; intros c;
          apply Future_parent_done_raises; exact Hsr|].
  rbind; [rtriv|].
  apply raises_only_for_each; intros cb; apply invoke_raises; exact Hsr.
Qed.

Lemma set_result_raises fuel self result :
  raises_only kernel_exn (set_result fuel self result).
Proof.
  revert self result. induction fuel as [|n IH]; intros self result; simpl.
  { rtriv. }
  rbind; [apply Future_set_result_raises; exact IH|].
  rbind; [rtriv|]. destruct (cls _); rtriv.
Qed.

Lemma Future_add_ready_callback_raises fuel self cb :
  raises_only kernel_exn (Future_add_ready_callback fuel self cb).
Proof.
  unfold Future_add_ready_callback. rbind; [rtriv|].
  destruct (Future_ready _); [|rtriv].
  apply invoke_raises. intros r v. apply set_result_raises.
Qed.

Lemma Future_init_raises parents hashid v :
  raises_only kernel_exn (Future_init parents hashid v).
Proof. intros w e w' [=]. Qed.

Lemma Template_init_raises `{Hashlib} `{SO : SetOrder} fuel jsonstr futures :
  raises_only kernel_exn (Template_init fuel jsonstr futures).
Proof.
  unfold Template_init. rbind; [rtriv|]. rbind; [apply Future_init_raises|].
  rbind; [rtriv|]. rbind; [apply Future_add_ready_callback_raises | rtriv].
Qed.

Lemma Template_from_object_raises `{Hashlib} `{SO : SetOrder} fuel obj :
  raises_only kernel_exn (Template_from_object fuel obj).
Proof.
  unfold Template_from_object. rbind; [rtriv|].
  rbind; [|apply Template_init_raises].
  apply raises_only_lift. intros w e.
  destruct (Json.dumps _ _); [discriminate | intros [= <-]; exact I].
Qed.

Lemma new_list_raises : raises_only kernel_exn new_list.
Proof. intros w e w' [=]. Qed.

Lemma Task_init_raises `{Hashlib} `{SO : SetOrder} fuel func args default label :
  raises_only kernel_exn (Task_init fuel func args default label).
Proof.
  unfold Task_init. rbind.
  { apply raises_only_map_each. intros x.
    destruct x; try apply Template_from_object_raises.
    simpl. rbind; rtriv. }
  rbind; [rtriv|]. rbind; [apply new_list_raises|].
  rbind; [apply Future_init_raises | rtriv].
Qed.

Lemma Future_register_raises self : raises_only kernel_exn (Future_register self).
Proof.
  unfold Future_register. rbind; [rtriv|].
  destruct (negb _); [|rtriv].
  rbind; [rtriv|]. rbind; [|rtriv].
  apply raises_only_for_each. intros x. unfold Future_add_child. rtriv.
Qed.

Lemma register_raises fuel self : raises_only kernel_exn (register fuel self).
Proof.
  revert self. induction fuel as [|n IH]; intros self; simpl; [rtriv|].
  rbind; [rtriv|]. destruct (cls _); try apply Future_register_raises.
  rbind; [apply Future_register_raises|].
  destruct a0; [|rtriv].
  rbind; [rtriv|]. rbind; [|rtriv].
  apply raises_only_for_each. intros x. rbind; [apply IH | rtriv].
Qed.

Lemma tape_record_raises self task : raises_only kernel_exn (tape_record self task).
Proof.
  unfold tape_record. rbind.
  { intros w e w' H. exfalso. eapply get_session_not_Raise; exact H. }
  destruct (_task_tape _); [|rtriv].
  intros w e w'. unfold list_append. destruct (lists w !! _); discriminate.
Qed.

(* ===================================================================== *)
(** ** What the constructors build                                        *)
(* ===================================================================== *)

Lemma ext_length w w' : ext w w' -> (length (heap w) <= length (heap w'))%nat.
Proof.
  intros Hext. destruct (heap w) as [|f h] eqn:E using rev_ind; [simpl; lia|].
  clear IHh.
  destruct (Hext (length h) f) as (f' & Hf' & _).
  { rewrite E. apply list_lookup_middle. reflexivity. }
  apply lookup_lt_Some in Hf'. rewrite length_app. simpl. lia.
Qed.

Lemma promote_hsteps `{Hashlib} `{SO : SetOrder} fuel arg w : within hsteps (promote fuel arg) w.
Proof.
  destruct arg; try apply Template_from_object_hsteps.
  simpl. hbind'. wtriv.
Qed.

(** [Task.__init__] promotes the arguments, in order, and then allocates
    the task object with the hashid computed from the promoted ones. *)
Lemma Task_init_Ok `{Hashlib} `{SO : SetOrder} fuel func args default label w cand w1 :
  Task_init fuel func args default label w = Ok cand w1 ->
  exists _args wm pend,
    map_each args (promote fuel) w = Ok _args wm /\
    hsteps w wm /\
    cand = length (heap wm) /\
    lists w1 = (lists wm ++ [[]])%list /\
    queues w1 = queues wm /\ sessions w1 = sessions wm /\
    heap w1 =
      (heap wm ++
       [{| _pending := pend; _children := []; _result := None;
           _done_callbacks := []; _ready_callbacks := [];
           _registered := false;
           _hashid := hash_text (spec_text func (hashids_of (heap wm) _args));
           cls := IsTask _args func (length (lists wm)) None default label |}])%list.
Proof.
  unfold Task_init. intros Hi.
  inv_bind Hi as _args wm Hargs Hi.
  assert (hsteps w wm) as Hwm.
  { eapply (within_map_each hsteps);
      [apply rtc_refl | apply hsteps_trans | | eapply Ok_final; exact Hargs].
    intros x v _ _. apply (promote_hsteps fuel x v). }
  inv_bind Hi as h w0 Hh Hi. apply read_Ok in Hh as [-> ->].
  inv_bind Hi as ch w0 Hch Hi. injection Hch as <- <-.
  inv_bind Hi as f w0 Hf Hi. injection Hf as <- <-.
  injection Hi as <- <-.
  exists _args, wm. eexists. split; [exact Hargs|].
  split; [exact Hwm|]. repeat split.
Qed.

Lemma Task_init_lookup `{Hashlib} `{SO : SetOrder} fuel func args default label w cand w1 :
  Task_init fuel func args default label w = Ok cand w1 ->
  exists cf, heap w1 !! cand = Some cf /\ is_task cf = true /\
             (length (heap w) <= cand)%nat /\
             lists w1 = (lists w ++ [[]])%list.
Proof.
  intros Hi. apply Task_init_Ok in Hi
    as (_args & wm & pend & _ & Hwm & -> & Hl & _ & _ & Hh).
  eexists. rewrite Hh. split; [apply list_lookup_middle; reflexivity|].
  split; [reflexivity|]. split.
  - apply ext_length, ext_hsteps, Hwm.
  - rewrite Hl, (hsteps_lists _ _ Hwm). reflexivity.
Qed.

(* ===================================================================== *)
(** ** create_task: a failure leaves the task table alone                 *)
(* ===================================================================== *)

Lemma tape_record_Ok self task w u w' s :
  tape_record self task w = Ok u w' ->
  sessions w !! self = Some s ->
  heap w' = heap w /\ sessions w' = sessions w /\
  match _task_tape s with
  | Some tape => exists l, lists w !! tape = Some l /\
                           lists w' = <[tape := (l ++ [task])%list]> (lists w)
  | None => lists w' = lists w
  end.
Proof.
  unfold tape_record. intros Ht Hs.
  inv_bind Ht as s0 w0 Hs0 Ht. apply get_session_Ok in Hs0 as [-> Hs0].
  assert (s0 = s) as -> by congruence.
  destruct (_task_tape s) as [tape|].
  - unfold list_append in Ht. destruct (lists w !! tape) as [l|] eqn:E; [|discriminate].
    injection Ht as _ <-. repeat split. exists l. split; reflexivity.
  - injection Ht as _ <-. repeat split.
Qed.

(** C9: when [create_task] raises [ArgNotInSession], no session has
    changed: the task table of the session holds the entries it held
    before the call, the candidate is not among them.  The candidate, a
    task object made by this call, has been appended to the tape of the
    session where one is set. *)
Theorem create_task_ArgNotInSession_keeps_table `{Hashlib} `{SO : SetOrder}
  (fuel self : nat) (func : pyfunc) (args : list pyval)
  (default : option pyval) (label : option string) (w w' : world) :
  Session_create_task fuel self func args default label w
    = Raise ArgNotInSession w' ->
  sessions w' = sessions w /\
  exists cand cf,
    heap w' !! cand = Some cf /\ is_task cf = true /\
    (length (heap w) <= cand)%nat /\
    forall s, sessions w !! self = Some s ->
      _tasks s !! _hashid cf = None /\
      forall tape l, _task_tape s = Some tape -> lists w !! tape = Some l ->
                     lists w' !! tape = Some (l ++ [cand])%list.
Proof.
  intros Hc.
  split; [apply csteps_sessions; eapply Session_create_task_Raise; exact Hc|].
  unfold Session_create_task in Hc.
  inv_bind Hc as cand w1 Hinit Hc.
  { exfalso. exact (Task_init_raises _ _ _ _ _ _ _ _ Hinit). }
  assert (csteps w w1) as H01
    by (eapply Task_init_csteps, Ok_final; exact Hinit).
  destruct (csteps_sessions _ _ H01) as [Hs1 _].
  pose proof (Task_init_lookup _ _ _ _ _ _ _ _ Hinit)
    as (cf0 & Hcf0 & Htask & Hlen & Hlists).
  inv_bind Hc as cf w1' Hcf Hc; [exfalso; eapply get_not_Raise; eassumption|].
  apply get_Ok in Hcf as [-> Hcf]. assert (cf0 = cf) as -> by congruence.
  inv_bind Hc as s w1' Hs Hc; [exfalso; eapply get_session_not_Raise; eassumption|].
  apply get_session_Ok in Hs as [-> Hs].
  destruct (_tasks s !! _hashid cf) as [known|] eqn:Hlook.
  { inv_bind Hc as u wt Ht Hc; [|discriminate].
    exfalso. exact (tape_record_raises _ _ _ _ _ Ht). }
  inv_bind Hc as u wt Ht Hc.
  { exfalso. exact (tape_record_raises _ _ _ _ _ Ht). }
  destruct (tape_record_Ok _ _ _ _ _ _ Ht Hs) as (Hht & Hst & Htape).
  assert (hsteps wt w') as Htw.
  { inv_bind Hc as u' wv Hv Hc.
    - destruct (cls cf); try discriminate.
      eapply create_task_validation_hsteps, Raise_final; exact Hv.
    - exfalso. inv_bind Hc as b wr Hr Hc.
      + exact (register_raises _ _ _ _ _ Hr).
      + inv_bind Hc as u'' wu Hu Hc; [eapply update_session_not_Raise; eassumption|].
        discriminate. }
  destruct (ext_hsteps _ _ Htw cand cf) as (cf' & Hcf' & (Hhash & Hcls) & _).
  { rewrite Hht. exact Hcf. }
  exists cand, cf'. split; [exact Hcf'|]. split.
  { unfold is_task in *. destruct (cls cf); try discriminate.
    destruct (cls cf'); try contradiction. reflexivity. }
  split; [exact Hlen|].
  intros s0 Hs0. rewrite Hs1 in Hs. assert (s0 = s) as -> by congruence.
  rewrite Hhash. split; [exact Hlook|].
  intros tape l Etape Hl. rewrite Etape in Htape.
  destruct Htape as (l1 & Hl1 & Hlt).
  rewrite (hsteps_lists _ _ Htw), Hlt.
  rewrite Hlists in Hl1. rewrite (lookup_app_l_Some _ _ _ _ Hl) in Hl1.
  injection Hl1 as <-.
  apply list_lookup_insert_eq. rewrite Hlists, length_app.
  apply lookup_lt_Some in Hl. lia.
Qed.

Lemma create_task_ArgNotInSession_keeps_table_witness :
  sessions after_failed_call = sessions foreign_task_world /\
  exists cand cf,
    heap after_failed_call !! cand = Some cf /\ is_task cf = true /\
    (length (heap foreign_task_world) <= cand)%nat /\
    forall s, sessions foreign_task_world !! 0%nat = Some s ->
      _tasks s !! _hashid cf = None /\
      forall tape l, _task_tape s = Some tape ->
                     lists foreign_task_world !! tape = Some l ->
                     lists after_failed_call !! tape = Some (l ++ [cand])%list.
Proof.
  apply (create_task_ArgNotInSession_keeps_table (H := demo_hashlib) (SO := insertion_order)
           2 0 setup_func [VFut 0] None None foreign_task_world after_failed_call).
  vm_compute. reflexivity.
Defined.

(* ===================================================================== *)
(** ** Task.spec and Task.hashid                                          *)
(* ===================================================================== *)

Lemma sequence_map_impl {A B} (f g : A -> option B) (l : list A) ys :
  Forall (fun x => forall t, f x = Some t -> g x = Some t) l ->
  Json.sequence (List.map f l) = Some ys ->
  Json.sequence (List.map g l) = Some ys.
Proof.
  intros HF. revert ys. induction HF as [|x l Hx _ IH]; intros ys; simpl; [auto|].
  destruct (f x) as [t|] eqn:Ef; [|discriminate].
  destruct (Json.sequence (List.map f l)) as [ts|]; [|discriminate].
  intros [= <-]. rewrite (Hx _ eq_refl), (IH _ eq_refl). reflexivity.
Qed.

(** Encoding succeeds with the same text when [default] handles more
    objects. *)
Lemma dumps_mono d1 d2 v t :
  (forall r t, d1 r = Some t -> d2 r = Some t) ->
  Json.dumps d1 v = Some t -> Json.dumps d2 v = Some t.
Proof.
  intros Hd. revert t.
  induction v as [| | | |l IH|d IH|r] using pyval_nested_ind; intros t;
    simpl; auto.
  - destruct (Json.sequence (List.map (Json.dumps d1) l)) as [chunks|] eqn:E;
      [|discriminate].
    rewrite (sequence_map_impl _ (Json.dumps d2) _ _ IH E). auto.
  - match goal with
    | |- context [Json.sequence (List.map ?f d)] =>
        destruct (Json.sequence (List.map f d)) as [items|] eqn:E; [|discriminate]
    end.
    erewrite sequence_map_impl; [eauto | | exact E].
    eapply Forall_impl; [exact IH|]. intros [k v] Hv t0; simpl in *.
    destruct (Json.dumps d1 v) as [tv|]; [|discriminate].
    rewrite (Hv _ eq_refl). auto.
Qed.

Lemma class_default_ext w w' r t :
  ext w w' -> class_default (heap w) r = Some t -> class_default (heap w') r = Some t.
Proof.
  intros Hext. unfold class_default.
  destruct (heap w !! r) as [f|] eqn:E; [|discriminate].
  destruct (Hext r f E) as (f' & -> & (Hh & Hc) & _). rewrite Hh.
  destruct (cls f), (cls f'); try contradiction; auto.
Qed.

Lemma arg_hashid_ext `{Hashlib} w w' arg hid :
  ext w w' -> arg_hashid (heap w) arg = Some hid -> arg_hashid (heap w') arg = Some hid.
Proof.
  intros Hext.
  assert (forall t, Json.dumps (class_default (heap w)) arg = Some t ->
                    Json.dumps (class_default (heap w')) arg = Some t) as Hd.
  { intros t. apply dumps_mono. intros r t0. apply class_default_ext. exact Hext. }
  unfold arg_hashid.
  destruct arg as [| | | | | |r];
    try (match goal with
         | |- context [Json.dumps (class_default (heap w)) ?a] =>
             remember (Json.dumps (class_default (heap w)) a) as o eqn:E;
             destruct o as [t|];
             [rewrite (Hd _ eq_refl); auto | discriminate]
         end).
  destruct (heap w !! r) as [f|] eqn:E; [|discriminate].
  destruct (Hext r f E) as (f' & -> & (Hh & _) & _). simpl. congruence.
Qed.

Lemma Template_init_Ok `{Hashlib} `{SO : SetOrder} fuel jsonstr futures w r w' :
  Template_init fuel jsonstr futures w = Ok r w' ->
  r = length (heap w) /\ hsteps w w' /\
  exists rf, heap w' !! r = Some rf /\
             _hashid rf = ("{}" ++ hash_text jsonstr)%string /\
             cls rf = IsTemplate jsonstr (futures_dict (heap w) (set_iter futures)).
Proof.
  intros Hi.
  assert (hsteps w w') as Hs
    by (eapply Template_init_hsteps, Ok_final; exact Hi).
  unfold Template_init in Hi.
  inv_bind Hi as h w0 Hh Hi. apply read_Ok in Hh as [-> ->].
  inv_bind Hi as f w0 Hf Hi. apply Future_init_Ok in Hf as (-> & _ & _ & _ & _ & _ & Hhash & Hcls).
  inv_bind Hi as self w0 Ha Hi. apply alloc_Ok in Ha as [-> ->].
  inv_bind Hi as u w1 Hcb Hi. apply ret_Ok in Hi as [-> ->].
  split; [reflexivity|]. split; [exact Hs|].
  assert (hsteps (set_heap (heap w ++ [f]) w) w1) as Hs2
    by (eapply Future_add_ready_callback_hsteps, Ok_final; exact Hcb).
  destruct (ext_hsteps _ _ Hs2 (length (heap w)) f) as (rf & Hrf & (Hh' & Hc') & _).
  { simpl. apply list_lookup_middle. reflexivity. }
  exists rf. split; [exact Hrf|]. split; [congruence|].
  rewrite Hcls in Hc'. destruct (cls rf); try contradiction.
  destruct Hc' as [-> ->]. reflexivity.
Qed.

Lemma Template_from_object_Ok `{Hashlib} `{SO : SetOrder} fuel obj w r w' :
  Template_from_object fuel obj w = Ok r w' ->
  exists jsonstr rf,
    Json.dumps (class_default (heap w)) obj = Some jsonstr /\
    (forall x, obj <> VFut x) /\
    r = length (heap w) /\ hsteps w w' /\
    heap w' !! r = Some rf /\
    _hashid rf = ("{}" ++ hash_text jsonstr)%string /\
    cls rf = IsTemplate jsonstr (futures_dict (heap w) (set_iter (tape_of obj []))).
Proof.
  unfold Template_from_object. intros Hi.
  inv_bind Hi as u w0 Ha Hi. apply assert_Ok in Ha as [Ha ->].
  inv_bind Hi as jsonstr w0 Hj Hi. apply lift_Ok in Hj as [-> Hj].
  destruct (Json.dumps (class_default (heap w)) obj) as [t|] eqn:E; [|discriminate].
  injection Hj as ->.
  apply Template_init_Ok in Hi as (-> & Hs & rf & Hrf & Hh & Hc).
  exists jsonstr, rf. repeat split; try assumption.
  intros x ->. discriminate.
Qed.

(** The object an argument is promoted to: the future itself, or a
    template whose text is the encoding of the argument. *)
Definition promoted (h : list future) (arg : pyval) (r : ref) : Prop :=
  exists rf, h !! r = Some rf /\
    match arg with
    | VFut r' => r = r'
    | _ => exists jsonstr futures,
             cls rf = IsTemplate jsonstr futures /\
             Json.dumps (class_default h) arg = Some jsonstr
    end.

Lemma promote_Ok `{Hashlib} `{SO : SetOrder} fuel arg w r w' :
  promote fuel arg w = Ok r w' ->
  hsteps w w' /\ promoted (heap w') arg r /\
  exists rf, heap w' !! r = Some rf /\
             arg_hashid (heap w') arg = Some (_hashid rf).
Proof.
  intros Hp.
  assert (hsteps w w') as Hs by (eapply promote_hsteps, Ok_final; exact Hp).
  split; [exact Hs|].
  destruct arg as [| | | | | |r0]; simpl in Hp;
    try (apply Template_from_object_Ok in Hp
           as (jsonstr & rf & Hd & _ & -> & _ & Hrf & Hh & Hc);
         assert (Json.dumps (class_default (heap w')) _ = Some jsonstr) as Hd'
           by (eapply dumps_mono; [|exact Hd];
               intros r0 t0; apply class_default_ext, ext_hsteps, Hs);
         split;
         [ exists rf; split; [exact Hrf|]; eexists _, _; split; eassumption
         | exists rf; split; [exact Hrf|]; unfold arg_hashid; rewrite Hd'; simpl; congruence ];
         fail).
  inv_bind Hp as f w0 Hf Hp. apply get_Ok in Hf as [-> Hf].
  apply ret_Ok in Hp as [-> ->].
  split; [exists f; split; [exact Hf | reflexivity]|].
  exists f. split; [exact Hf|]. simpl. rewrite Hf. reflexivity.
Qed.

Lemma promoted_ext w w' arg r :
  ext w w' -> promoted (heap w) arg r -> promoted (heap w') arg r.
Proof.
  intros Hext (rf & Hrf & Hp).
  destruct (Hext r rf Hrf) as (rf' & Hrf' & (_ & Hc) & _).
  exists rf'. split; [exact Hrf'|].
  destruct arg as [| | | | | |r1]; try exact Hp;
    destruct Hp as (jsonstr & futures & Hcls & Hd);
    rewrite Hcls in Hc; destruct (cls rf'); try contradiction;
    destruct Hc as [-> ->]; eexists _, _; (split; [reflexivity|]);
    (eapply dumps_mono; [|exact Hd]);
    intros r0 t0; apply class_default_ext, Hext.
Qed.

Lemma map_each_promote_Ok `{Hashlib} `{SO : SetOrder} fuel args w rs w' :
  map_each args (promote fuel) w = Ok rs w' ->
  hsteps w w' /\
  Forall2 (fun arg r => promoted (heap w') arg r /\
                        exists rf, heap w' !! r = Some rf /\
                                   arg_hashid (heap w') arg = Some (_hashid rf))
          args rs.
Proof.
  revert w rs. induction args as [|arg args IH]; intros w rs; simpl.
  - intros [= <- <-]. split; [apply rtc_refl | constructor].
  - intros Hm. inv_bind Hm as r w1 Hp Hm. inv_bind Hm as rs' w2 Hrest Hm.
    apply ret_Ok in Hm as [-> ->].
    apply promote_Ok in Hp as (Hs1 & Hpr & rf & Hrf & Hh).
    apply IH in Hrest as (Hs2 & HF).
    split; [eapply hsteps_trans; eassumption|].
    constructor; [|exact HF]. pose proof (ext_hsteps _ _ Hs2) as Hext.
    split; [eapply promoted_ext; eassumption|].
    destruct (Hext r rf Hrf) as (rf' & Hrf' & (Hh' & _) & _).
    exists rf'. split; [exact Hrf'|]. rewrite Hh'.
    eapply arg_hashid_ext; eassumption.
Qed.

Lemma dumps_strs d (l : list string) :
  Json.sequence (List.map (Json.dumps d) (List.map VStr l))
  = Some (List.map Json.encode_basestring_ascii l).
Proof.
  induction l as [|s l IH]; simpl; [reflexivity|]. rewrite IH. reflexivity.
Qed.

Lemma spec_text_dumps func hashids :
  Json.dumps (fun _ => None)
             (VList (VStr (get_fullname func) :: List.map VStr hashids))
  = Some (spec_text func hashids).
Proof.
  unfold spec_text.
  change (VStr (get_fullname func) :: List.map VStr hashids)
    with (List.map VStr (get_fullname func :: hashids)).
  cbn [Json.dumps]. rewrite dumps_strs. reflexivity.
Qed.

Lemma hashids_of_app h x (l : list ref) :
  Forall (fun r => is_Some (h !! r)) l ->
  hashids_of (h ++ [x]) l = hashids_of h l.
Proof.
  induction 1 as [|r l [f Hf] _ IH]; simpl; [reflexivity|].
  rewrite (lookup_app_l_Some _ _ _ _ Hf), Hf. f_equal. exact IH.
Qed.

(** The hashids of the promoted arguments are those of the arguments. *)
Lemma promoted_hashids `{Hashlib} w (args : list pyval) (rs : list ref) hids :
  Forall2 (fun arg r => exists rf, heap w !! r = Some rf /\
                                   arg_hashid (heap w) arg = Some (_hashid rf))
          args rs ->
  Forall2 (fun arg hid => arg_hashid (heap w) arg = Some hid) args hids ->
  hashids_of (heap w) rs = hids.
Proof.
  intros HF. revert hids. induction HF as [|arg r args rs (rf & Hrf & Hh) _ IH];
    intros hids Hhids; inversion Hhids; subst; simpl; [reflexivity|].
  rewrite Hrf. f_equal; [congruence | apply IH; assumption].
Qed.

Lemma hashids_of_Forall2 h (l : list ref) :
  Forall (fun r => is_Some (h !! r)) l ->
  Forall2 (fun r hid => exists rf, h !! r = Some rf /\ _hashid rf = hid)
          l (hashids_of h l).
Proof.
  induction 1 as [|r l [f Hf] _ IH]; simpl; constructor; [|exact IH].
  exists f. rewrite Hf. split; reflexivity.
Qed.


(* ===================================================================== *)
(** ** Deduplication                                                      *)
(* ===================================================================== *)

Lemma sstep_tasks w w' i s hid t :
  sstep w w' -> sessions w !! i = Some s -> _tasks s !! hid = Some t ->
  exists s', sessions w' !! i = Some s' /\ _tasks s' !! hid = Some t.
Proof.
  intros Hstep Hs Ht. destruct Hstep; simpl.
  - exists s. split; [apply lookup_app_l_Some; exact Hs | exact Ht].
  - destruct (decide (i0 = i)) as [->|Hne].
    + assert (s0 = s) as -> by congruence.
      eexists. split; [apply list_lookup_insert_eq; eapply lookup_lt_Some; exact Hs|].
      simpl. rewrite lookup_insert_ne; [exact Ht | congruence].
    + exists s. split; [|exact Ht].
      rewrite list_lookup_insert_ne by exact Hne. exact Hs.
  - destruct (decide (i0 = i)) as [->|Hne].
    + assert (s0 = s) as -> by congruence.
      eexists. split; [apply list_lookup_insert_eq; eapply lookup_lt_Some; exact Hs|].
      exact Ht.
    + exists s. split; [|exact Ht].
      rewrite list_lookup_insert_ne by exact Hne. exact Hs.
  - exists s. split; assumption.
Qed.

(** Entries of a task table stay as long as the session is not left. *)
Lemma steps_tasks w w' i s hid t :
  steps w w' -> sessions w !! i = Some s -> _tasks s !! hid = Some t ->
  exists s', sessions w' !! i = Some s' /\ _tasks s' !! hid = Some t.
Proof.
  intros Hsteps. revert s. induction Hsteps as [w|w w1 w' H1 _ IH]; intros s Hs Ht.
  - exists s. split; assumption.
  - destruct H1 as [H1|H1].
    + destruct (cstep_sessions _ _ H1) as [Hs1 _].
      apply (IH s); [rewrite Hs1; exact Hs | exact Ht].
    + destruct (sstep_tasks _ _ _ _ _ _ H1 Hs Ht) as (s1 & Hs1 & Ht1).
      apply (IH s1); assumption.
Qed.

(** The hashid of the candidate [create_task] builds. *)
Lemma Task_init_hashid `{Hashlib} `{SO : SetOrder} fuel func args default label w cand w1 cf hids :
  Task_init fuel func args default label w = Ok cand w1 ->
  heap w1 !! cand = Some cf ->
  Forall2 (fun arg hid => arg_hashid (heap w) arg = Some hid) args hids ->
  _hashid cf = hash_text (spec_text func hids).
Proof.
  intros Hi Hcf Hhids.
  apply Task_init_Ok in Hi
    as (_args & wm & pend & Hargs & Hwm & -> & Hl & _ & _ & Hh).
  rewrite Hh, list_lookup_middle in Hcf by reflexivity. injection Hcf as <-.
  simpl. f_equal. f_equal.
  apply map_each_promote_Ok in Hargs as (_ & HF).
  eapply promoted_hashids.
  - eapply Forall2_impl; [exact HF|]. intros arg r (_ & Hr). exact Hr.
  - eapply Forall2_impl; [exact Hhids|]. intros arg hid.
    apply arg_hashid_ext, ext_hsteps, Hwm.
Qed.

Lemma Session_active_Ok s w w' :
  Session_active w = Ok s w' -> w' = w /\ _active w = Some s.
Proof.
  unfold Session_active. destruct (_active w); [|discriminate].
  intros [= <- <-]. split; reflexivity.
Qed.

(** C2: in a session that stays active, a second call of a rule on
    arguments with the hashids of the first call returns the object the
    first call returned; it is the task stored in the task table of the
    session under the hashid of the call. *)
Theorem Rule_call_deduplicates `{Hashlib} `{SO : SetOrder}
  (fuel1 fuel2 : nat) (rule : Rule) (args1 args2 : list pyval)
  (hids : list string) (w1 w1' w2 w2' : world) (t1 t2 : ref) :
  Rule_call fuel1 rule args1 w1 = Ok t1 w1' ->
  steps w1' w2 ->
  _active w2 = _active w1 ->
  Rule_call fuel2 rule args2 w2 = Ok t2 w2' ->
  Forall2 (fun arg hid => arg_hashid (heap w1) arg = Some hid) args1 hids ->
  Forall2 (fun arg hid => arg_hashid (heap w2) arg = Some hid) args2 hids ->
  t2 = t1 /\
  exists self s,
    _active w2 = Some self /\ sessions w2 !! self = Some s /\
    _tasks s !! hash_text (spec_text (_rfunc rule) hids) = Some t1.
Proof.
  intros Hc1 Hsteps Hact Hc2 Hh1 Hh2.
  unfold Rule_call in Hc1, Hc2.
  inv_bind Hc1 as self w0 Ha1 Hc1. apply Session_active_Ok in Ha1 as [-> Ha1].
  inv_bind Hc2 as self2 w0 Ha2 Hc2. apply Session_active_Ok in Ha2 as [-> Ha2].
  assert (self2 = self) as -> by congruence.
  apply Session_create_task_Ok in Hc1
    as (c1 & wc1 & cf1 & s1 & Hi1 & Hcf1 & Hs1 & Hcase1).
  pose proof (Task_init_hashid _ _ _ _ _ _ _ _ _ _ Hi1 Hcf1 Hh1) as Hk1.
  rewrite Hk1 in Hcase1.
  assert (exists s, sessions w1' !! self = Some s /\
                    _tasks s !! hash_text (spec_text (_rfunc rule) hids) = Some t1)
    as (s1' & Hs1' & Ht1).
  { destruct Hcase1 as [[Hfound Hcs] | (Hnone & -> & wr & Hcs & Hsr & ->)].
    - exists s1. split; [|exact Hfound].
      destruct (csteps_sessions _ _ Hcs) as [-> _]. exact Hs1.
    - eexists. simpl. split.
      + apply list_lookup_insert_eq. rewrite Hsr. eapply lookup_lt_Some; exact Hs1.
      + simpl. apply lookup_insert_eq. }
  destruct (steps_tasks _ _ _ _ _ _ Hsteps Hs1' Ht1) as (s2 & Hs2 & Ht2).
  apply Session_create_task_Ok in Hc2
    as (c2 & wc2 & cf2 & s2' & Hi2 & Hcf2 & Hs2' & Hcase2).
  assert (s2' = s2) as -> by congruence.
  pose proof (Task_init_hashid _ _ _ _ _ _ _ _ _ _ Hi2 Hcf2 Hh2) as Hk2.
  rewrite Hk2 in Hcase2.
  split.
  - destruct Hcase2 as [[Hfound _] | (Hnone & _)]; congruence.
  - exists self, s2. repeat split; assumption.
Qed.


Lemma Rule_call_deduplicates_witness :
  1%nat = 1%nat /\
  exists self s,
    _active after_first_call = Some self /\
    sessions after_first_call !! self = Some s /\
    _tasks s !! hash_text (H := demo_hashlib)
                   (spec_text (_rfunc setup_rule) ["{}1"%string]) = Some 1%nat.
Proof.
  apply (Rule_call_deduplicates (H := demo_hashlib) (SO := insertion_order) 2 2 setup_rule
           [VInt 1] [VInt 1] ["{}1"%string]
           in_session after_first_call after_first_call after_second_call 1 1).
  - vm_compute. reflexivity.
  - apply rtc_refl.
  - reflexivity.
  - vm_compute. reflexivity.
  - repeat constructor.
  - repeat constructor.
Defined.

(* ===================================================================== *)
(** ** Indexors                                                           *)
(* ===================================================================== *)

Lemma insert_last {A} (l : list A) (x y : A) :
  <[length l := y]> (l ++ [x]) = l ++ [y].
Proof.
  rewrite insert_app_r_alt by lia. rewrite Nat.sub_diag. reflexivity.
Qed.

(** Running a call forward, statement by statement. *)
Lemma bind_get {B} r (k : future -> M B) w f :
  heap w !! r = Some f -> (let* x := get r in k x) w = k f w.
Proof. intros Hr. unfold bind, get. rewrite Hr. reflexivity. Qed.

Lemma bind_update {B} r g (k : unit -> M B) w f :
  heap w !! r = Some f -> bind (update r g) k w = k tt (put r (g f) w).
Proof. intros Hr. unfold bind, update. rewrite Hr. reflexivity. Qed.

Lemma bind_assert {B} b (k : unit -> M B) w :
  b = true -> bind (assert b) k w = k tt w.
Proof. intros ->. reflexivity. Qed.

Lemma bind_lift {A B} (r : world -> res A) (k : A -> M B) w a :
  r w = Val a -> bind (lift r) k w = k a w.
Proof. intros Hr. unfold bind, lift. rewrite Hr. reflexivity. Qed.

Lemma bind_ret {A B} (a : A) (k : A -> M B) w : bind (ret a) k w = k a w.
Proof. reflexivity. Qed.

Lemma bind_eq {A B} (m : M A) (k : A -> M B) w a w1 :
  m w = Ok a w1 -> bind m k w = k a w1.
Proof. intros Hm. unfold bind. rewrite Hm. reflexivity. Qed.

Lemma update_eq r g w f :
  heap w !! r = Some f -> update r g w = Ok tt (put r (g f) w).
Proof. intros Hr. unfold update. rewrite Hr. reflexivity. Qed.

Lemma alloc_lookup w f :
  heap (set_heap (heap w ++ [f]) w) !! length (heap w) = Some f.
Proof. simpl. apply list_lookup_middle. reflexivity. Qed.

Lemma put_alloc w f g :
  put (length (heap w)) g (set_heap (heap w ++ [f]) w)
  = set_heap (heap w ++ [g]) w.
Proof. unfold put, set_heap. simpl. rewrite insert_last. reflexivity. Qed.

(** [set_result] on a future without children and done-callbacks. *)
Lemma set_result_leaf fuel r v w f :
  heap w !! r = Some f ->
  _pending f = [] -> _result f = None ->
  _children f = [] -> _done_callbacks f = [] -> is_task f = false ->
  set_result (S fuel) r v w = Ok tt (put r (with_result (Some v) f) w).
Proof.
  intros Hf Hp Hr Hc Hd Ht. cbn [set_result].
  assert (heap (put r (with_result (Some v) f) w) !! r
          = Some (with_result (Some v) f)) as Hf'
    by (eapply put_lookup_eq; exact Hf).
  assert (Future_set_result (set_result fuel) r v w
          = Ok tt (put r (with_result (Some v) f) w)) as Hset.
  { unfold Future_set_result, Future_notify.
    rewrite (bind_get _ _ _ _ Hf).
    rewrite bind_assert by (unfold Future_ready; rewrite Hp; reflexivity).
    rewrite bind_assert by (unfold Future_done; rewrite Hr; reflexivity).
    rewrite (bind_update _ _ _ _ _ Hf).
    rewrite (bind_get _ _ _ _ Hf').
    change (_children (with_result (Some v) f)) with (_children f). rewrite Hc.
    cbn [for_each]. rewrite bind_ret.
    rewrite (bind_get _ _ _ _ Hf').
    change (_done_callbacks (with_result (Some v) f)) with (_done_callbacks f).
    rewrite Hd. reflexivity. }
  rewrite (bind_eq _ _ _ _ _ Hset), (bind_get _ _ _ _ Hf').
  unfold is_task in Ht. change (cls (with_result (Some v) f)) with (cls f).
  destruct (cls f); try discriminate; reflexivity.
Qed.

Lemma Future_init_one task tf hashid v w :
  heap w !! task = Some tf ->
  Future_init [task] hashid v w
  = Ok {| _pending := if Future_done tf then [] else [task];
          _children := []; _result := None;
          _done_callbacks := []; _ready_callbacks := [];
          _registered := false; _hashid := hashid; cls := v |} w.
Proof.
  intros Ht. unfold Future_init. simpl. rewrite Ht.
  destruct (Future_done tf); reflexivity.
Qed.

Lemma Future_add_ready_callback_defer fuel self cb w f :
  heap w !! self = Some f -> Future_ready f = false ->
  Future_add_ready_callback fuel self cb w
  = Ok tt (put self (with_ready_callbacks (_ready_callbacks f ++ [cb]) f) w).
Proof.
  intros Hf Hr. unfold Future_add_ready_callback.
  rewrite (bind_get _ _ _ _ Hf), Hr. rewrite (update_eq _ _ _ _ Hf). reflexivity.
Qed.

(** [Indexor.__init__] on a task that is not done. *)
Lemma Indexor_init_pending fuel task keys tf w :
  heap w !! task = Some tf -> _result tf = None ->
  Indexor_init fuel task keys w
  = Ok (length (heap w)) (set_heap (heap w ++ [new_indexor tf task keys]) w).
Proof.
  intros Ht Hr. unfold Indexor_init.
  rewrite (bind_get _ _ _ _ Ht).
  erewrite bind_eq by (apply Future_init_one; exact Ht).
  unfold Future_done. rewrite Hr.
  erewrite bind_eq by reflexivity.
  erewrite bind_eq
    by (apply Future_add_ready_callback_defer; [apply alloc_lookup | reflexivity]).
  rewrite put_alloc. reflexivity.
Qed.

(** [Indexor.__init__] on a task that is done resolves at once. *)
Lemma Indexor_init_done fuel task keys tf v w i w' :
  heap w !! task = Some tf -> _result tf = Some v ->
  Indexor_init (S fuel) task keys w = Ok i w' ->
  exists v' fi,
    subscripts v keys = Val v' /\
    i = length (heap w) /\
    heap w' = (heap w ++ [fi])%list /\
    cls fi = IsIndexor task keys /\ _result fi = Some v'.
Proof.
  intros Ht Hr Hi. unfold Indexor_init in Hi.
  rewrite (bind_get _ _ _ _ Ht) in Hi.
  erewrite bind_eq in Hi by (apply Future_init_one; exact Ht).
  unfold Future_done in Hi. rewrite Hr in Hi.
  erewrite bind_eq in Hi by reflexivity.
  inv_bind Hi as u w1 Hcb Hi. apply ret_Ok in Hi as [-> ->].
  unfold Future_add_ready_callback in Hcb.
  rewrite (bind_get _ _ _ _ (alloc_lookup _ _)) in Hcb.
  cbv beta iota delta [Future_ready _pending] in Hcb.
  cbn [invoke] in Hcb.
  inv_bind Hcb as v' w0 Hres Hset. apply lift_Ok in Hres as [-> Hres].
  unfold Indexor_resolve in Hres. rewrite alloc_lookup in Hres.
  cbv beta iota delta [cls] in Hres.
  unfold result_with in Hres. cbn [heap set_heap] in Hres.
  rewrite (lookup_app_l_Some _ _ _ _ Ht), Hr in Hres. simpl in Hres.
  erewrite set_result_leaf in Hset;
    [| apply alloc_lookup | reflexivity | reflexivity | reflexivity
     | reflexivity | reflexivity].
  injection Hset as Hw1. subst w1.
  eexists v', _. split; [exact Hres|]. split; [reflexivity|].
  split; [unfold put; cbn [heap set_heap]; apply insert_last|].
  split; reflexivity.
Qed.

(** The chain [task[k1]...[kn]] on a task that is not done: every link
    allocates an indexor of the task, the last one with the whole path. *)
Lemma getitems_pending_from fuel task tf keys0 keys w self sf :
  heap w !! task = Some tf -> _result tf = None ->
  heap w !! self = Some sf ->
  (cls sf = IsIndexor task keys0 \/ (is_task sf = true /\ self = task /\ keys0 = [])) ->
  keys <> [] ->
  exists h',
    length h' = (length keys - 1)%nat /\
    getitems fuel self keys w
    = Ok (length (heap w) + length keys - 1)%nat
         (set_heap (heap w ++ h' ++ [new_indexor tf task (keys0 ++ keys)]) w).
Proof.
  revert w self sf keys0.
  induction keys as [|k keys IH]; intros w self sf keys0 Ht' Hr Hs Hc Hne;
    [contradiction|].
  clear Hne.
  assert (getitem fuel self k w
          = Ok (length (heap w))
               (set_heap (heap w ++ [new_indexor tf task (keys0 ++ [k])]) w)) as Hg.
  { unfold getitem, bind, get. rewrite Hs.
    destruct Hc as [Hc | (Hc & -> & ->)].
    - rewrite Hc. apply Indexor_init_pending; assumption.
    - unfold is_task in Hc. destruct (cls sf); try discriminate.
      apply Indexor_init_pending; assumption. }
  simpl. unfold bind at 1. rewrite Hg.
  destruct keys as [|k' keys'].
  - simpl. exists []. split; [reflexivity|]. unfold ret. f_equal. lia.
  - edestruct (IH (set_heap (heap w ++ [new_indexor tf task (keys0 ++ [k])]) w)
                  (length (heap w)) (new_indexor tf task (keys0 ++ [k]))
                  (keys0 ++ [k])%list) as (h' & Hlen & Hh').
    + simpl. apply lookup_app_l_Some. exact Ht'.
    + exact Hr.
    + simpl. apply list_lookup_middle. reflexivity.
    + left. reflexivity.
    + discriminate.
    + exists (new_indexor tf task (keys0 ++ [k]) :: h').
      split; [simpl in *; lia|].
      rewrite Hh'. simpl. rewrite length_app. simpl.
      rewrite <- !app_assoc. simpl. f_equal. lia.
Qed.

(** *** An indexor that is registered gets the result of its path *)

Lemma poised_put i task keys w r fr g :
  heap w !! r = Some fr -> poised i task keys w ->
  (r = i -> cls g = cls fr /\ _pending g = _pending fr /\
            _result g = _result fr /\
            exists cbs, _ready_callbacks g = (_ready_callbacks fr ++ cbs)%list) ->
  poised i task keys (put r g w).
Proof.
  intros Hr (fi & Hfi & Hc & Hp & Hres & cbs & Hcb) Hsame.
  destruct (decide (r = i)) as [->|Hne].
  - assert (fr = fi) as -> by congruence.
    destruct (Hsame eq_refl) as (Ec & Ep & Er & cbs' & Ecb).
    exists g. split; [eapply put_lookup_eq; exact Hr|].
    repeat split; try congruence.
    exists (cbs ++ cbs')%list. rewrite Ecb, Hcb. reflexivity.
  - exists fi. rewrite put_lookup_ne by exact Hne.
    repeat split; try assumption. exists cbs. exact Hcb.
Qed.

Lemma poised_same_heap i task keys w w' :
  heap w' = heap w -> poised i task keys w -> poised i task keys w'.
Proof. intros Hh (fi & H). exists fi. rewrite Hh. exact H. Qed.

Lemma set_remove_other (p t : ref) : p <> t -> set_remove p [t] = [t].
Proof.
  intros Hne. unfold set_remove. simpl.
  destruct (Nat.eqb_spec p t) as [->|_]; [contradiction | reflexivity].
Qed.

(** A write keeps the indexor waiting as long as the task has no result
    afterwards. *)
Lemma hstep_waiting i task keys w w' :
  hstep w w' -> waiting i task keys w ->
  (forall tf', heap w' !! task = Some tf' -> _result tf' = None) ->
  waiting i task keys w'.
Proof.
  intros Hstep [Hpo (tf & Htf & Hch & Hres)] Hlater.
  pose proof Hpo as (fi & Hfi & Hc & Hp & Hri & cbs & Hcb).
  assert (forall r fr g, heap w !! r = Some fr ->
            (r = i -> cls g = cls fr /\ _pending g = _pending fr /\
                      _result g = _result fr /\
                      exists cbs, _ready_callbacks g = (_ready_callbacks fr ++ cbs)%list) ->
            (r = task -> forall c, c ∈ _children fr -> c ∈ _children g) ->
            (forall tf', heap (put r g w) !! task = Some tf' -> _result tf' = None) ->
            waiting i task keys (put r g w)) as Hput.
  { intros r fr g Hr Hsame Hkids Hl. split; [eapply poised_put; eassumption|].
    destruct (decide (r = task)) as [->|Hne].
    - assert (fr = tf) as -> by congruence.
      exists g. split; [eapply put_lookup_eq; exact Hr|].
      split; [apply Hkids; [reflexivity | exact Hch]|].
      apply Hl. eapply put_lookup_eq; exact Hr.
    - exists tf. rewrite put_lookup_ne by exact Hne. repeat split; assumption. }
  destruct Hstep.
  - split.
    + exists fi. split; [simpl; apply lookup_app_l_Some; exact Hfi|].
      repeat split; try assumption. exists cbs. exact Hcb.
    + exists tf. split; [simpl; apply lookup_app_l_Some; exact Htf|].
      split; assumption.
  - apply (Hput r f); try assumption.
    + intros _. repeat split. exists []. simpl. rewrite app_nil_r. reflexivity.
    + intros _ c Hc0. exact Hc0.
  - apply (Hput r f); try assumption.
    + intros _. repeat split. exists []. simpl. rewrite app_nil_r. reflexivity.
    + intros _ c0 Hc0. simpl. apply elem_of_set_add. exact Hc0.
  - apply (Hput r f); try assumption.
    + intros ->. assert (f = fi) as -> by congruence.
      repeat split; [|exists []; simpl; rewrite app_nil_r; reflexivity].
      simpl. rewrite Hp. apply set_remove_other. intros ->.
      assert (pf = tf) as -> by congruence.
      rewrite Hres in H2. destruct H2 as [? [=]].
    + intros _ c Hc0. exact Hc0.
  - apply (Hput r f); try assumption.
    + intros ->. exfalso. congruence.
    + intros _ c Hc0. exact Hc0.
  - apply (Hput r f); try assumption.
    + intros _. repeat split. exists []. simpl. rewrite app_nil_r. reflexivity.
    + intros _ c Hc0. exact Hc0.
  - apply (Hput r f); try assumption.
    + intros _. repeat split. exists [cb]. reflexivity.
    + intros _ c Hc0. exact Hc0.
  - apply (Hput r f); try assumption.
    + intros ->. assert (f = fi) as -> by congruence.
      repeat split; [|exists []; simpl; rewrite app_nil_r; reflexivity].
      simpl. rewrite Hc. reflexivity.
    + intros _ c Hc0. exact Hc0.
  - split; [eapply poised_same_heap; [|exact Hpo]; reflexivity|].
    exists tf. repeat split; assumption.
Qed.

Lemma steps_waiting i task keys w w' :
  steps w w' -> waiting i task keys w ->
  (forall tf', heap w' !! task = Some tf' -> _result tf' = None) ->
  waiting i task keys w'.
Proof.
  intros Hsteps. induction Hsteps as [w|w w1 w' H1 Hrest IH];
    intros Hw Hlater; [exact Hw|].
  apply IH; [|exact Hlater].
  assert (forall tf1, heap w1 !! task = Some tf1 -> _result tf1 = None) as Hmid.
  { intros tf1 Htf1.
    destruct (ext_steps _ _ Hrest task tf1 Htf1) as (tf' & Htf' & _ & Hres & _).
    destruct (_result tf1) as [x|] eqn:E; [|reflexivity].
    rewrite (Hlater _ Htf') in Hres. specialize (Hres x eq_refl). discriminate. }
  destruct H1 as [[H1|H1]|H1].
  - eapply hstep_waiting; eassumption.
  - destruct Hw as [Hpo Ht]. split.
    + eapply poised_same_heap; [|exact Hpo]. destruct H1; reflexivity.
    + destruct H1; exact Ht.
  - destruct Hw as [Hpo Ht]. split.
    + eapply poised_same_heap; [|exact Hpo]. destruct H1; reflexivity.
    + destruct H1; exact Ht.
Qed.

(** While the task notifies other children, the indexor stays poised. *)
Definition keeps_due (i task : ref) (keys : list key) (v : pyval)
  : relation world :=
  fun w w' => due i task keys v w -> due i task keys v w'.

Section Due.
Context (i task : ref) (keys : list key) (v : pyval).
Local Abbreviation R := (keeps_due i task keys v).

Lemma keeps_due_refl w : R w w.
Proof. intros H. exact H. Qed.

Lemma keeps_due_trans w1 w2 w3 : R w1 w2 -> R w2 w3 -> R w1 w3.
Proof. intros H12 H23 H. apply H23, H12, H. Qed.

Lemma within_due_intro {A} (m : M A) w :
  (due i task keys v w -> within R m w) -> within R m w.
Proof. intros H w' Hf Hd. exact (H Hd w' Hf Hd). Qed.

Lemma due_put w r fr g :
  heap w !! r = Some fr -> due i task keys v w ->
  (r = i -> cls g = cls fr /\ _pending g = _pending fr /\
            _result g = _result fr /\
            exists cbs, _ready_callbacks g = (_ready_callbacks fr ++ cbs)%list) ->
  (r = task -> _result g = _result fr) ->
  due i task keys v (put r g w).
Proof.
  intros Hr [Hpo (tf & Htf & Hres)] Hsame Htask.
  split; [eapply poised_put; eassumption|].
  destruct (decide (r = task)) as [->|Hne].
  - assert (fr = tf) as -> by congruence.
    exists g. split; [eapply put_lookup_eq; exact Hr|].
    rewrite (Htask eq_refl). exact Hres.
  - exists tf. rewrite put_lookup_ne by exact Hne. split; assumption.
Qed.

Lemma due_same_heap w w' :
  heap w' = heap w -> due i task keys v w -> due i task keys v w'.
Proof.
  intros Hh [Hpo (tf & Htf)]. split; [eapply poised_same_heap; eassumption|].
  exists tf. rewrite Hh. exact Htf.
Qed.

Ltac dbind a w1 Hm :=
  apply (within_bind R keeps_due_refl keeps_due_trans) ||
  apply (within_bind R keeps_due_trans);
  [ | intros a w1 Hm _ ].

Lemma wdue_get r w : within R (get r) w.
Proof. apply within_get. apply keeps_due_refl. Qed.

Lemma wdue_lift {A} (r : world -> res A) w : within R (lift r) w.
Proof. apply within_lift. apply keeps_due_refl. Qed.

Lemma wdue_assert b w : within R (assert b) w.
Proof. apply within_assert. apply keeps_due_refl. Qed.

Lemma wdue_ret {A} (a : A) w : within R (ret a) w.
Proof. apply within_ret. apply keeps_due_refl. Qed.

Lemma wdue_raise {A} e w : within R (@raise A e) w.
Proof. apply within_raise. apply keeps_due_refl. Qed.

Section DueCascade.
Context (sr : ref -> pyval -> M unit)
        (Hsr : forall r v0 w, within R (sr r v0) w).

Lemma invoke_due cb self w : within R (invoke sr cb self) w.
Proof.
  destruct cb; simpl.
  - apply (within_bind R keeps_due_trans); [apply wdue_lift|].
    intros a w1 _ _. apply Hsr.
  - apply (within_bind R keeps_due_trans); [apply wdue_lift|].
    intros a w1 _ _. apply Hsr.
  - intros w'. unfold schedule. destruct (queues w !! queue); [|discriminate].
    case_bool_decide; simpl; intros [= <-] Hd; [exact Hd|].
    eapply due_same_heap; [|exact Hd]. reflexivity.
  - apply (within_bind R keeps_due_trans); [apply wdue_lift|].
    intros a w1 _ _. apply Hsr.
Qed.

Lemma Future_parent_done_due c r w :
  (c = i -> r <> task) ->
  within R (Future_parent_done sr c r) w.
Proof.
  intros Hne. unfold Future_parent_done.
  apply (within_bind R keeps_due_trans); [apply wdue_get|]. intros fc w0 Hfc _.
  apply get_Ok in Hfc as [-> Hfc].
  apply (within_bind R keeps_due_trans).
  { case_bool_decide; [|apply wdue_raise].
    apply within_update. intros f Hf Hd. eapply due_put; try eassumption.
    - intros ->. destruct Hd as [(fi & Hfi & _ & Hp & _) _].
      assert (f = fi) as -> by congruence.
      repeat split; [|exists []; simpl; rewrite app_nil_r; reflexivity].
      simpl. rewrite Hp. apply set_remove_other. apply Hne. reflexivity.
    - intros _. reflexivity. }
  intros u w1 _ _.
  apply (within_bind R keeps_due_trans); [apply wdue_get|]. intros f1 w2 _ _.
  destruct (Future_ready f1); [|apply wdue_ret].
  apply (within_for_each R); [apply keeps_due_refl | apply keeps_due_trans|].
  intros cb w3 _ _. apply invoke_due.
Qed.

Lemma Future_notify_due self w :
  self <> task -> within R (Future_notify sr self) w.
Proof.
  intros Hne. unfold Future_notify.
  apply (within_bind R keeps_due_trans); [apply wdue_get|]. intros f w0 _ _.
  apply (within_bind R keeps_due_trans).
  { apply (within_for_each R); [apply keeps_due_refl | apply keeps_due_trans|].
    intros c w1 _ _. apply Future_parent_done_due. intros _. exact Hne. }
  intros u w1 _ _.
  apply (within_bind R keeps_due_trans); [apply wdue_get|]. intros f1 w2 _ _.
  apply (within_for_each R); [apply keeps_due_refl | apply keeps_due_trans|].
  intros cb w3 _ _. apply invoke_due.
Qed.

Lemma Future_set_result_due self result w :
  within R (Future_set_result sr self result) w.
Proof.
  apply within_due_intro. intros Hd. unfold Future_set_result.
  apply (within_bind R keeps_due_trans); [apply wdue_get|]. intros f w0 Hf _.
  apply get_Ok in Hf as [-> Hf].
  apply (within_bind R keeps_due_trans); [apply wdue_assert|]. intros u w0 Hready _.
  apply assert_Ok in Hready as [Hready ->].
  apply (within_bind R keeps_due_trans); [apply wdue_assert|]. intros u' w0 Hdone _.
  apply assert_Ok in Hdone as [Hdone ->].
  destruct Hd as [(fi & Hfi & _ & Hp & _) (tf & Htf & Hres)].
  assert (self <> i) as Hni.
  { intros ->. assert (f = fi) as -> by congruence.
    unfold Future_ready in Hready. rewrite Hp in Hready. discriminate. }
  assert (self <> task) as Hnt.
  { intros ->. assert (f = tf) as -> by congruence.
    unfold Future_done in Hdone. rewrite Hres in Hdone. discriminate. }
  apply (within_bind R keeps_due_trans).
  { apply within_update. intros f0 Hf0 Hd. eapply due_put; try eassumption;
      intros ->; contradiction. }
  intros u'' w1 _ _. apply Future_notify_due. exact Hnt.
Qed.

End DueCascade.

Lemma set_result_due fuel self result w :
  within R (set_result fuel self result) w.
Proof.
  revert self result w. induction fuel as [|n IH]; intros self result w; simpl.
  { intros w' [=]. }
  apply (within_bind R keeps_due_trans);
    [apply Future_set_result_due; exact IH|].
  intros u w1 _ _.
  apply (within_bind R keeps_due_trans); [apply wdue_get|]. intros f w2 Hf _.
  apply get_Ok in Hf as [-> Hf].
  destruct (cls f) eqn:Ecls; try apply wdue_ret.
  apply within_update. intros f0 Hf0 Hd. eapply due_put; try eassumption.
  - intros ->. assert (f0 = f) as -> by congruence.
    destruct Hd as [(fi & Hfi & Hc & _) _].
    assert (f = fi) as -> by congruence. congruence.
  - intros _. reflexivity.
Qed.

End Due.

Lemma for_each_app_Ok {A} (l1 l2 : list A) (body : A -> M unit) w u w' :
  for_each (l1 ++ l2) body w = Ok u w' ->
  exists wm, for_each l1 body w = Ok tt wm /\ for_each l2 body wm = Ok u w'.
Proof.
  revert w. induction l1 as [|x l1 IH]; intros w; simpl.
  - intros H. exists w. split; [reflexivity | exact H].
  - intros H. inv_bind H as u0 w1 Hx H.
    destruct (IH _ H) as (wm & H1 & H2). exists wm. split; [|exact H2].
    unfold bind. rewrite Hx. destruct u0. exact H1.
Qed.

Lemma set_result_Ok_result fuel r v w u w' :
  set_result fuel r v w = Ok u w' ->
  exists f', heap w' !! r = Some f' /\ _result f' = Some v.
Proof.
  destruct fuel as [|n]; [discriminate|]. cbn [set_result]. intros H.
  inv_bind H as u0 w5 Hset Htail.
  unfold Future_set_result in Hset.
  inv_bind Hset as f w0 Hf Hset. apply get_Ok in Hf as [-> Hf].
  inv_bind Hset as u1 w0 Ha Hset. apply assert_Ok in Ha as [_ ->].
  inv_bind Hset as u2 w0 Ha Hset. apply assert_Ok in Ha as [_ ->].
  inv_bind Hset as u3 w1 Hu Hnotify. apply update_Ok in Hu as (f0 & Hf0 & ->).
  assert (hsteps (put r (with_result (Some v) f0) w) w5) as H15.
  { eapply Future_notify_hsteps;
      [intros; apply set_result_hsteps | eapply put_lookup_eq; exact Hf0
      | reflexivity | eapply Ok_final; exact Hnotify]. }
  assert (hsteps w5 w') as H5.
  { revert Htail. intros Htail.
    assert (within hsteps
              (let* f := get r in
               match cls f with
               | IsTask _ _ _ _ _ _ => update r (with_future_result None)
               | _ => ret tt
               end) w5) as Hw.
    { hbind as f1 w6 Hf1; [wtriv|]. destruct (cls f1); try wtriv.
      apply within_update. intros f3 Hf3. apply hsteps_one.
      apply hs_future_result. exact Hf3. }
    apply Hw. eapply Ok_final; exact Htail. }
  eapply (has_result_hsteps _ _ r _ v (hsteps_trans _ _ _ H15 H5));
    [eapply put_lookup_eq; exact Hf0 | reflexivity].
Qed.

(** When the task gets its result and [set_result] returns, the waiting
    indexor has the result of its path. *)
Lemma set_result_delivers fuel i task keys v w u w' :
  waiting i task keys w -> i <> task ->
  set_result fuel task v w = Ok u w' ->
  exists v', subscripts v keys = Val v' /\
    (exists fi', heap w' !! i = Some fi' /\ _result fi' = Some v') /\
    (exists tf', heap w' !! task = Some tf' /\ _result tf' = Some v).
Proof.
  intros [Hpo (tf & Htf & Hch & Hres)] Hne Hcall.
  pose proof (set_result_Ok_result _ _ _ _ _ _ Hcall) as Htask.
  destruct fuel as [|n]; [discriminate|]. cbn [set_result] in Hcall.
  inv_bind Hcall as u0 w5 Hset Htail.
  assert (hsteps w5 w') as H5.
  { assert (within hsteps
              (let* f := get task in
               match cls f with
               | IsTask _ _ _ _ _ _ => update task (with_future_result None)
               | _ => ret tt
               end) w5) as Hw.
    { hbind as f1 w6 Hf1; [wtriv|]. destruct (cls f1); try wtriv.
      apply within_update. intros f3 Hf3. apply hsteps_one.
      apply hs_future_result. exact Hf3. }
    apply Hw. eapply Ok_final; exact Htail. }
  unfold Future_set_result in Hset.
  inv_bind Hset as f w0 Hf Hset. apply get_Ok in Hf as [-> Hf].
  assert (f = tf) as -> by congruence.
  inv_bind Hset as u1 w0 Ha Hset. apply assert_Ok in Ha as [_ ->].
  inv_bind Hset as u2 w0 Ha Hset. apply assert_Ok in Ha as [_ ->].
  inv_bind Hset as u3 w1 Hu Hnotify. apply update_Ok in Hu as (f0 & Hf0 & ->).
  assert (f0 = tf) as -> by congruence.
  set (w1 := put task (with_result (Some v) tf) w) in *.
  assert (heap w1 !! task = Some (with_result (Some v) tf)) as Htf1
    by (eapply put_lookup_eq; exact Htf).
  assert (due i task keys v w1) as Hdue1.
  { split.
    - eapply poised_put; [exact Htf | exact Hpo |]. intros ->. contradiction.
    - eexists. split; [exact Htf1 | reflexivity]. }
  unfold Future_notify in Hnotify.
  inv_bind Hnotify as f1 w0 Hf1 Hnotify. apply get_Ok in Hf1 as [-> Hf1].
  assert (f1 = with_result (Some v) tf) as -> by congruence.
  inv_bind Hnotify as u4 wl Hloop Hrest.
  change (_children (with_result (Some v) tf)) with (_children tf) in Hloop.
  destruct (list_elem_of_split_l _ _ Hch) as (l1 & l2 & El & Hnotin).
  rewrite El in Hloop.
  apply for_each_app_Ok in Hloop as (wa & Hl1 & Hl2).
  assert (forall c, c ∈ l1 -> c ∈ _children (with_result (Some v) tf)) as Hsub1.
  { intros c Hc. simpl. rewrite El. apply elem_of_app. left. exact Hc. }
  assert (forall c, c ∈ l2 -> c ∈ _children (with_result (Some v) tf)) as Hsub2.
  { intros c Hc. simpl. rewrite El. apply elem_of_app. right. right. exact Hc. }
  assert (hsteps w1 wa) as H1a.
  { eapply (children_loop_hsteps (set_result n));
      [intros; apply set_result_hsteps | exact Htf1 | reflexivity | exact Hsub1
      | eapply Ok_final; exact Hl1]. }
  assert (due i task keys v wa) as Hduea.
  { eapply (within_for_each (keeps_due i task keys v));
      [apply keeps_due_refl | apply keeps_due_trans | | eapply Ok_final; exact Hl1
      | exact Hdue1].
    intros c w2 Hc _. apply Future_parent_done_due.
    - intros r v0 w3. apply set_result_due.
    - intros ->. contradiction. }
  cbn [for_each] in Hl2. inv_bind Hl2 as u5 wb Hturn Hl2.
  destruct Hduea as [(fi & Hfi & Hcls & Hp & Hri & cbs & Hcb) (tfa & Htfa & Hresa)].
  unfold Future_parent_done in Hturn.
  inv_bind Hturn as fi0 w0 Hg Hturn. apply get_Ok in Hg as [-> Hg].
  assert (fi0 = fi) as -> by congruence.
  rewrite Hp in Hturn.
  rewrite bool_decide_eq_true_2 in Hturn by (apply list_elem_of_singleton; reflexivity).
  inv_bind Hturn as u6 w0 Hu Hturn. apply update_Ok in Hu as (fi' & Hfi' & ->).
  assert (fi' = fi) as -> by congruence. rewrite Hp in Hturn.
  assert (set_remove task [task] = []) as Hrm
    by (unfold set_remove; simpl; rewrite Nat.eqb_refl; reflexivity).
  rewrite Hrm in Hturn.
  set (wa1 := put i (with_pending [] fi) wa) in *.
  assert (heap wa1 !! i = Some (with_pending [] fi)) as Hfi1
    by (eapply put_lookup_eq; exact Hfi).
  inv_bind Hturn as fi1 w0 Hg1 Hturn. apply get_Ok in Hg1 as [-> Hg1].
  assert (fi1 = with_pending [] fi) as -> by congruence.
  change (Future_ready (with_pending [] fi)) with true in Hturn.
  change (_ready_callbacks (with_pending [] fi)) with (_ready_callbacks fi) in Hturn.
  rewrite Hcb in Hturn. cbn [for_each invoke] in Hturn.
  inv_bind Hturn as u7 wa2 Hinv Hcbs.
  inv_bind Hinv as v' w0 Hres' Hseti. apply lift_Ok in Hres' as [-> Hres'].
  unfold Indexor_resolve in Hres'. rewrite Hfi1 in Hres'.
  change (cls (with_pending [] fi)) with (cls fi) in Hres'. rewrite Hcls in Hres'.
  unfold result_with in Hres'.
  assert (heap wa1 !! task = Some tfa) as Htfa1
    by (unfold wa1; rewrite put_lookup_ne by exact Hne; exact Htfa).
  rewrite Htfa1, Hresa in Hres'. simpl in Hres'.
  exists v'. split; [exact Hres'|]. split; [|exact Htask].
  destruct (set_result_Ok_result _ _ _ _ _ _ Hseti) as (fi2 & Hfi2 & Hr2).
  assert (hsteps wa2 wb) as H2b.
  { eapply (within_for_each hsteps);
      [apply rtc_refl | apply hsteps_trans | | eapply Ok_final; exact Hcbs].
    intros cb w2 _ _. apply invoke_hsteps. intros. apply set_result_hsteps. }
  assert (hsteps wa wa2) as Ha2.
  { eapply hsteps_trans.
    - apply hsteps_one.
      apply (hs_parent_done wa i fi task tfa Hfi Htfa).
      + destruct (ext_hsteps _ _ H1a task _ Htf1) as (t' & Ht' & _ & _ & _ & Hc').
        assert (t' = tfa) as -> by congruence. apply Hc'. exact Hch.
      + rewrite Hresa. eexists; reflexivity.
    - rewrite Hp, Hrm. fold wa1.
      eapply set_result_hsteps, Ok_final; exact Hseti. }
  assert (hsteps wb wl) as Hbl.
  { destruct (ext_hsteps _ _ (hsteps_trans _ _ _ H1a (hsteps_trans _ _ _ Ha2 H2b))
                task _ Htf1) as (tb & Htb & _ & Hrb & _ & Hcb').
    eapply (children_loop_hsteps (set_result n));
      [intros; apply set_result_hsteps | exact Htb | apply Hrb; reflexivity
      | | eapply Ok_final; exact Hl2].
    intros c Hc. apply Hcb', Hsub2, Hc. }
  assert (hsteps wl w5) as Hl5.
  { inv_bind Hrest as f2 w0 Hg2 Hrest. apply get_Ok in Hg2 as [-> Hg2].
    eapply (within_for_each hsteps);
      [apply rtc_refl | apply hsteps_trans | | eapply Ok_final; exact Hrest].
    intros cb w2 _ _. apply invoke_hsteps. intros. apply set_result_hsteps. }
  eapply has_result_hsteps; [|exact Hfi2 | exact Hr2].
  eapply hsteps_trans; [exact H2b|].
  eapply hsteps_trans; [exact Hbl|].
  eapply hsteps_trans; eassumption.
Qed.

(** A write keeps the indexor poised as long as the task has no
    result. *)
Lemma hstep_poised i task keys w w' :
  hstep w w' -> poised i task keys w ->
  (forall tf, heap w !! task = Some tf -> _result tf = None) ->
  poised i task keys w'.
Proof.
  intros Hstep Hpo Hnot.
  pose proof Hpo as (fi & Hfi & Hc & Hp & Hri & cbs & Hcb).
  destruct Hstep.
  - exists fi. split; [simpl; apply lookup_app_l_Some; exact Hfi|].
    repeat split; try assumption. exists cbs. exact Hcb.
  - eapply poised_put; try eassumption.
    intros _. repeat split. exists []. simpl. rewrite app_nil_r. reflexivity.
  - eapply poised_put; try eassumption.
    intros _. repeat split. exists []. simpl. rewrite app_nil_r. reflexivity.
  - eapply poised_put; try eassumption.
    intros ->. assert (f = fi) as -> by congruence.
    repeat split; [|exists []; simpl; rewrite app_nil_r; reflexivity].
    simpl. rewrite Hp. apply set_remove_other. intros ->.
    rewrite (Hnot _ H0) in H2. destruct H2 as [? [=]].
  - eapply poised_put; try eassumption.
    intros ->. exfalso. congruence.
  - eapply poised_put; try eassumption.
    intros _. repeat split. exists []. simpl. rewrite app_nil_r. reflexivity.
  - eapply poised_put; try eassumption.
    intros _. repeat split. exists [cb]. reflexivity.
  - eapply poised_put; try eassumption.
    intros ->. assert (f = fi) as -> by congruence.
    repeat split; [|exists []; simpl; rewrite app_nil_r; reflexivity].
    simpl. rewrite Hc. reflexivity.
  - eapply poised_same_heap; [|exact Hpo]. reflexivity.
Qed.

(** A result is kept, so a task without result had none before. *)
Lemma not_done_before task w w' :
  ext w w' ->
  (forall tf', heap w' !! task = Some tf' -> _result tf' = None) ->
  forall tf, heap w !! task = Some tf -> _result tf = None.
Proof.
  intros He Hlater tf Htf.
  destruct (He task tf Htf) as (tf' & Htf' & _ & Hres & _).
  destruct (_result tf) as [x|] eqn:E; [|reflexivity].
  rewrite (Hlater _ Htf') in Hres. specialize (Hres x eq_refl). discriminate.
Qed.

Lemma steps_poised i task keys w w' :
  steps w w' -> poised i task keys w ->
  (forall tf', heap w' !! task = Some tf' -> _result tf' = None) ->
  poised i task keys w'.
Proof.
  intros Hsteps. induction Hsteps as [w|w w1 w' H1 Hrest IH];
    intros Hpo Hlater; [exact Hpo|].
  apply IH; [|exact Hlater].
  assert (forall tf, heap w !! task = Some tf -> _result tf = None) as Hnow.
  { eapply not_done_before; [|exact Hlater].
    apply ext_steps. eapply rtc_l; eassumption. }
  destruct H1 as [[H1|H1]|H1].
  - eapply hstep_poised; eassumption.
  - eapply poised_same_heap; [|exact Hpo]. destruct H1; reflexivity.
  - eapply poised_same_heap; [|exact Hpo]. destruct H1; reflexivity.
Qed.

(** The first [register] of a poised indexor, while the task is not done,
    returns [True] and leaves it waiting for the task. *)
Lemma register_poised fuel i task keys tf w b w' :
  poised i task keys w ->
  (forall fi, heap w !! i = Some fi -> _registered fi = false) ->
  heap w !! task = Some tf -> _result tf = None -> i <> task ->
  register (S fuel) i w = Ok b w' ->
  b = true /\ waiting i task keys w'.
Proof.
  intros (fi & Hi & Hc & Hp & Hres & cbs & Hcb) Hunreg Ht Hr Hne Hreg.
  pose proof (Hunreg _ Hi) as Hflag.
  cbn [register] in Hreg.
  rewrite (bind_get _ _ _ _ Hi), Hc in Hreg.
  unfold Future_register in Hreg.
  rewrite (bind_get _ _ _ _ Hi), Hflag in Hreg. cbn [negb] in Hreg.
  rewrite (bind_update _ _ _ _ _ Hi), Hp in Hreg. cbn [for_each] in Hreg.
  unfold Future_add_child in Hreg.
  assert (heap (put i (with_registered true fi) w) !! task = Some tf) as Ht1
    by (rewrite put_lookup_ne by exact Hne; exact Ht).
  inv_bind Hreg as u w1 Hloop Hreg. apply ret_Ok in Hreg as [<- ->].
  inv_bind Hloop as u' w2 Hadd Hloop. apply ret_Ok in Hloop as [_ ->].
  rewrite (update_eq _ _ _ _ Ht1) in Hadd. injection Hadd as _ <-.
  split; [reflexivity|]. split.
  - exists (with_registered true fi). split.
    + rewrite put_lookup_ne by congruence. eapply put_lookup_eq; exact Hi.
    + repeat split; try assumption. exists cbs. exact Hcb.
  - eexists. split; [eapply put_lookup_eq; exact Ht1|].
    split; [simpl; apply elem_of_set_add_new | exact Hr].
Qed.

(** *** An indexor that is never registered stays without result *)

Lemma idle_put i task w r fr g :
  heap w !! r = Some fr -> idle i task w ->
  (r = i -> _pending g = _pending fr /\ _result g = _result fr /\
            _registered g = _registered fr) ->
  (r = task -> i ∉ _children g) ->
  idle i task (put r g w).
Proof.
  intros Hr (fi & Hfi & Hp & Hres & Hreg & Hch) Hsame Hnew.
  assert (forall tf, heap (put r g w) !! task = Some tf -> i ∉ _children tf) as Hch'.
  { intros tf. destruct (decide (r = task)) as [->|Hne].
    - rewrite (put_lookup_eq _ _ _ _ Hr). intros [= <-]. apply Hnew. reflexivity.
    - rewrite put_lookup_ne by congruence. apply Hch. }
  destruct (decide (r = i)) as [->|Hne].
  - destruct (Hsame eq_refl) as (Ep & Er & Eg).
    assert (fr = fi) as -> by congruence.
    exists g. split; [eapply put_lookup_eq; exact Hr|].
    repeat split; try congruence. exact Hch'.
  - exists fi. split; [rewrite put_lookup_ne by exact Hne; exact Hfi|].
    repeat split; try assumption.
Qed.

(** One write keeps the indexor idle, unless it is the write of its own
    [_registered]. *)
Lemma hstep_idle i task w w' :
  hstep w w' -> idle i task w ->
  (forall fi', heap w' !! i = Some fi' -> _registered fi' = false) ->
  idle i task w'.
Proof.
  intros Hstep Hid Hlater.
  pose proof Hid as (fi & Hfi & Hp & Hres & Hreg & Hch).
  destruct Hstep.
  - exists fi. split; [simpl; apply lookup_app_l_Some; exact Hfi|].
    repeat split; try assumption.
    intros tf. simpl. intros Ht.
    apply lookup_app_Some in Ht as [Ht | [_ Ht]].
    + eapply Hch; exact Ht.
    + destruct (task - length (heap w))%nat; simpl in Ht; [|discriminate].
      injection Ht as <-. rewrite H. apply not_elem_of_nil.
  - eapply idle_put; try eassumption.
    + intros ->. exfalso.
      specialize (Hlater _ (put_lookup_eq _ _ _ _ H)). discriminate.
    + intros ->. simpl. eapply Hch; exact H.
  - eapply idle_put; try eassumption.
    + intros _. repeat split.
    + intros ->. simpl. apply not_elem_of_set_add.
      * intros ->. congruence.
      * eapply Hch; exact H.
  - eapply idle_put; try eassumption.
    + intros ->. assert (f = fi) as -> by congruence.
      repeat split. simpl. rewrite Hp. apply set_remove_other.
      intros ->. exact (Hch _ H0 H1).
    + intros ->. simpl. eapply Hch; exact H.
  - eapply idle_put; try eassumption.
    + intros ->. exfalso. congruence.
    + intros ->. simpl. eapply Hch; exact H.
  - eapply idle_put; try eassumption.
    + intros _. repeat split.
    + intros ->. simpl. eapply Hch; exact H.
  - eapply idle_put; try eassumption.
    + intros _. repeat split.
    + intros ->. simpl. eapply Hch; exact H.
  - eapply idle_put; try eassumption.
    + intros _. repeat split.
    + intros ->. simpl. eapply Hch; exact H.
  - destruct Hid as (fi0 & Hid). exists fi0. exact Hid.
Qed.

Lemma steps_idle i task w w' :
  steps w w' -> idle i task w ->
  (forall fi', heap w' !! i = Some fi' -> _registered fi' = false) ->
  idle i task w'.
Proof.
  intros Hsteps. induction Hsteps as [w|w w1 w' H1 Hrest IH];
    intros Hid Hlater; [exact Hid|].
  apply IH; [|exact Hlater].
  assert (forall fi1, heap w1 !! i = Some fi1 -> _registered fi1 = false) as Hmid.
  { intros fi1 Hf1.
    destruct (ext_steps _ _ Hrest i fi1 Hf1) as (fi' & Hf' & _ & _ & Hreg & _).
    destruct (_registered fi1) eqn:E; [|reflexivity].
    rewrite (Hlater _ Hf') in Hreg. symmetry. apply Hreg. reflexivity. }
  destruct H1 as [[H1|H1]|H1].
  - eapply hstep_idle; eassumption.
  - destruct Hid as (fi0 & Hid). exists fi0.
    destruct H1; exact Hid.
  - destruct Hid as (fi0 & Hid). exists fi0.
    destruct H1; exact Hid.
Qed.

Lemma getitems_hsteps fuel keys : forall self w,
  within hsteps (getitems fuel self keys) w.
Proof.
  induction keys as [|k keys IH]; intros self w; cbn [getitems].
  - apply within_ret. intros; apply rtc_refl.
  - apply (within_bind hsteps hsteps_trans); [apply getitem_hsteps|].
    intros idx w1 _ _. apply IH.
Qed.

(** *** An indexor of a task that is done *)

Lemma subscripts_app v (l1 l2 : list key) :
  subscripts v (l1 ++ l2) = res_bind (subscripts v l1) (fun x => subscripts x l2).
Proof.
  revert v. induction l1 as [|k l1 IH]; intros v; simpl; [reflexivity|].
  destruct (subscript v k); simpl; [apply IH | reflexivity | reflexivity].
Qed.

(** An indexor as [Indexor.__init__] leaves it when the task is done. *)
Lemma Indexor_init_done_Ok fuel task keys tf v v' w :
  heap w !! task = Some tf -> _result tf = Some v ->
  subscripts v keys = Val v' ->
  exists fi,
    Indexor_init (S fuel) task keys w
    = Ok (length (heap w)) (set_heap (heap w ++ [fi]) w) /\
    cls fi = IsIndexor task keys /\ _result fi = Some v'.
Proof.
  intros Ht Hr Hv.
  set (f0 := {| _pending := []; _children := []; _result := None;
                _done_callbacks := []; _ready_callbacks := [];
                _registered := false;
                _hashid := Indexor_hashid (_hashid tf) keys;
                cls := IsIndexor task keys |}).
  exists (with_result (Some v') f0). split; [|split; reflexivity].
  assert (Future_add_ready_callback (S fuel) (length (heap w)) CbResolve
            (set_heap (heap w ++ [f0]) w)
          = Ok tt (put (length (heap w)) (with_result (Some v') f0)
                       (set_heap (heap w ++ [f0]) w))) as Hcb.
  { unfold Future_add_ready_callback.
    rewrite (bind_get _ _ _ _ (alloc_lookup _ _)).
    cbv beta iota delta [Future_ready _pending f0]. cbn [invoke].
    erewrite bind_lift.
    - apply set_result_leaf; try reflexivity. apply alloc_lookup.
    - unfold Indexor_resolve. rewrite alloc_lookup.
      cbv beta iota delta [cls]. unfold result_with. cbn [heap set_heap].
      rewrite (lookup_app_l_Some _ _ _ _ Ht), Hr. simpl. exact Hv. }
  unfold Indexor_init.
  rewrite (bind_get _ _ _ _ Ht).
  erewrite bind_eq by (apply Future_init_one; exact Ht).
  unfold Future_done. rewrite Hr.
  erewrite bind_eq by reflexivity.
  erewrite bind_eq by exact Hcb.
  rewrite put_alloc. reflexivity.
Qed.

(** The chain [task[k1]...[kn]] on a task that is done returns when the
    result has the path. *)
Lemma getitems_done_Ok fuel task tf v keys0 keys v' w self sf :
  heap w !! task = Some tf -> _result tf = Some v ->
  heap w !! self = Some sf ->
  (cls sf = IsIndexor task keys0 \/ (is_task sf = true /\ self = task /\ keys0 = [])) ->
  subscripts v (keys0 ++ keys) = Val v' ->
  exists i w1, getitems (S fuel) self keys w = Ok i w1.
Proof.
  revert w self sf keys0.
  induction keys as [|k keys IH]; intros w self sf keys0 Ht Hr Hs Hc Hv.
  - exists self, w. reflexivity.
  - replace (keys0 ++ k :: keys)%list with ((keys0 ++ [k]) ++ keys)%list in Hv
      by (rewrite <- app_assoc; reflexivity).
    rewrite subscripts_app in Hv.
    destruct (subscripts v (keys0 ++ [k])) as [v1| |] eqn:Hv1; try discriminate.
    simpl in Hv.
    destruct (Indexor_init_done_Ok fuel task (keys0 ++ [k]) tf v v1 w Ht Hr Hv1)
      as (fi & Hinit & Hcls & Hres).
    assert (getitem (S fuel) self k w
            = Ok (length (heap w)) (set_heap (heap w ++ [fi]) w)) as Hg.
    { unfold getitem. rewrite (bind_get _ _ _ _ Hs).
      destruct Hc as [Hc | (Hc & -> & ->)].
      - rewrite Hc. exact Hinit.
      - unfold is_task in Hc. destruct (cls sf); try discriminate. exact Hinit. }
    cbn [getitems]. rewrite (bind_eq _ _ _ _ _ Hg).
    eapply (IH _ (length (heap w)) fi (keys0 ++ [k])%list);
      [ simpl; apply lookup_app_l_Some; exact Ht | exact Hr
      | simpl; apply list_lookup_middle; reflexivity
      | left; exact Hcls
      | rewrite subscripts_app, Hv1; exact Hv ].
Qed.

(** The chain [task[k1]...[kn]] on a task that is done. *)
Lemma getitems_done_from fuel task tf v keys0 keys w self sf i w1 :
  heap w !! task = Some tf -> _result tf = Some v ->
  heap w !! self = Some sf ->
  (cls sf = IsIndexor task keys0 \/ (is_task sf = true /\ self = task /\ keys0 = [])) ->
  keys <> [] ->
  getitems (S fuel) self keys w = Ok i w1 ->
  exists v' fi,
    subscripts v (keys0 ++ keys) = Val v' /\
    heap w1 !! i = Some fi /\ cls fi = IsIndexor task (keys0 ++ keys) /\
    _result fi = Some v'.
Proof.
  revert w self sf keys0.
  induction keys as [|k keys IH]; intros w self sf keys0 Ht Hr Hs Hc Hne Hg;
    [contradiction|].
  clear Hne. cbn [getitems] in Hg. inv_bind Hg as i1 w' Hk Hg.
  assert (Indexor_init (S fuel) task (keys0 ++ [k]) w = Ok i1 w') as Hinit.
  { unfold getitem in Hk. rewrite (bind_get _ _ _ _ Hs) in Hk.
    destruct Hc as [Hc | (Hc & -> & ->)].
    - rewrite Hc in Hk. exact Hk.
    - unfold is_task in Hc. destruct (cls sf); try discriminate. exact Hk. }
  destruct (Indexor_init_done _ _ _ _ _ _ _ _ Ht Hr Hinit)
    as (v1 & fi1 & Hv1 & -> & Hh & Hcls & Hres).
  assert (heap w' !! length (heap w) = Some fi1) as Hfi1
    by (rewrite Hh; apply list_lookup_middle; reflexivity).
  destruct keys as [|k' keys'].
  - apply ret_Ok in Hg as [-> ->]. exists v1, fi1. repeat split; assumption.
  - replace (keys0 ++ k :: k' :: keys')%list
      with ((keys0 ++ [k]) ++ k' :: keys')%list
      by (rewrite <- app_assoc; reflexivity).
    eapply (IH w' (length (heap w)) fi1 (keys0 ++ [k])%list);
      [ rewrite Hh; apply lookup_app_l_Some; exact Ht | exact Hr | exact Hfi1
      | left; exact Hcls | discriminate | exact Hg ].
Qed.

(** C4, the claim as stated fails: [task['a']], built before the task is
    done and never registered, has no result after the task is done with
    the result [{'a': 1}]: [result()] raises [FutureNotDone], while
    [task.result()['a']] is [1]. *)
Lemma unregistered_indexor_has_no_result :
  getitems 2 0 [KStr "a"] task_world = Ok 1%nat unwired_before /\
  set_result 2 0 (VDict [("a", VInt 1)]) unwired_before = Ok tt unwired_after /\
  res_bind (Future_result 0 0 None unwired_after)
           (fun obj => subscripts obj [KStr "a"]) = Val (VInt 1) /\
  Future_result 0 1 None unwired_after = Exc FutureNotDone.
Proof.
  split; [vm_compute; reflexivity|].
  split; [vm_compute; reflexivity|].
  split; vm_compute; reflexivity.
Qed.

(** C4 (amended): for a task and a non-empty key path [k1..kn],
    [task[k1]...[kn]] is an indexor of that task with the key path
    [[k1,...,kn]], each subscript making a new indexor with the path one
    key longer and the same task.

    Built while the task is not done, the expression returns an indexor
    without result, and then, whatever else is written meanwhile:
    - if [register()] is called on it for the first time in some later
      store in which the task is still not done, the call returns [True]
      and puts it among the children of the task, and once
      [task.set_result(v)] has returned, its [result()] is [v[k1]...[kn]];
    - more generally, in any later store in which it is among the children
      of the task (however it was registered), [task.set_result(v)]
      leaves it with the result [v[k1]...[kn]];
    - as long as it is not registered it has no result, also after the
      task is done: [result()] raises [FutureNotDone] (the children of
      the task being objects of the store when the indexor is built).

    Built when the task is done with the result [v], the expression
    returns if [v[k1]...[kn]] exists, the indexor has that result from
    its construction, and the expression returns in no other case. *)
Theorem Indexor_of_task (fuel : nat) (w : world) (task : ref) (tf : future)
  (keys : list key) :
  heap w !! task = Some tf -> is_task tf = true -> keys <> [] ->
  (_result tf = None ->
   exists i w1,
     getitems fuel task keys w = Ok i w1 /\
     heap w1 !! i = Some (new_indexor tf task keys) /\
     (forall fuel1 fuel2 w1' b w2 w3 v u w4,
        steps w1 w1' ->
        (forall fi, heap w1' !! i = Some fi -> _registered fi = false) ->
        register (S fuel1) i w1' = Ok b w2 ->
        steps w2 w3 ->
        (forall tf3, heap w3 !! task = Some tf3 -> _result tf3 = None) ->
        set_result fuel2 task v w3 = Ok u w4 ->
        b = true /\ child_of i task w2 /\
        exists v', subscripts v keys = Val v' /\
                   Future_result 0 i None w4 = Val v' /\
                   Future_result 0 task None w4 = Val v) /\
     (forall fuel2 w3 v u w4,
        steps w1 w3 ->
        child_of i task w3 ->
        (forall tf3, heap w3 !! task = Some tf3 -> _result tf3 = None) ->
        set_result fuel2 task v w3 = Ok u w4 ->
        exists v', subscripts v keys = Val v' /\
                   Future_result 0 i None w4 = Val v' /\
                   Future_result 0 task None w4 = Val v) /\
     ((forall c, c ∈ _children tf -> (c < length (heap w))%nat) ->
      forall fuel3 w2,
        steps w1 w2 ->
        (forall fi, heap w2 !! i = Some fi -> _registered fi = false) ->
        Future_result fuel3 i None w2 = Exc FutureNotDone)) /\
  (forall v,
     _result tf = Some v ->
     (forall v', subscripts v keys = Val v' ->
                 exists i w1, getitems (S fuel) task keys w = Ok i w1) /\
     (forall i w1,
        getitems (S fuel) task keys w = Ok i w1 ->
        exists v' fi,
          subscripts v keys = Val v' /\
          heap w1 !! i = Some fi /\ cls fi = IsIndexor task keys /\
          Future_result 0 i None w1 = Val v')).
Proof.
  intros Ht Htask Hne. split.
  - intros Hr.
    destruct (getitems_pending_from fuel task tf [] keys w task tf Ht Hr Ht)
      as (h' & Hlen & Hg); [right; repeat split; exact Htask | exact Hne|].
    simpl in Hg. eexists _, _. split; [exact Hg|].
    assert (length keys <> 0)%nat as Hk by (destruct keys; [contradiction|discriminate]).
    set (i := (length (heap w) + length keys - 1)%nat) in *.
    set (w1 := set_heap (heap w ++ h' ++ [new_indexor tf task keys]) w) in *.
    assert (heap w1 !! i = Some (new_indexor tf task keys)) as Hi.
    { unfold w1, i. simpl. rewrite app_assoc.
      replace (length (heap w) + length keys - 1)%nat
        with (length (heap w ++ h')) by (rewrite length_app; lia).
      apply list_lookup_middle. reflexivity. }
    assert (heap w1 !! task = Some tf) as Ht1
      by (unfold w1; simpl; apply lookup_app_l_Some; exact Ht).
    assert (length (heap w) <= i)%nat as Hfresh by (unfold i; lia).
    assert (i <> task) as Hit.
    { apply lookup_lt_Some in Ht. lia. }
    assert (poised i task keys w1) as Hpo.
    { eexists. split; [exact Hi|]. repeat split. exists []. reflexivity. }
    assert (forall w3 v fuel2 u w4,
              waiting i task keys w3 ->
              set_result fuel2 task v w3 = Ok u w4 ->
              exists v', subscripts v keys = Val v' /\
                         Future_result 0 i None w4 = Val v' /\
                         Future_result 0 task None w4 = Val v) as Hdeliver.
    { intros w3 v fuel2 u w4 Hw3 Hset.
      destruct (set_result_delivers _ _ _ _ _ _ _ _ Hw3 Hit Hset)
        as (v' & Hv' & (fi' & Hfi' & Hri') & (tf' & Htf' & Hrt')).
      exists v'. split; [exact Hv'|].
      unfold Future_result, result_with. rewrite Hfi', Hri', Htf', Hrt'.
      split; reflexivity. }
    split; [exact Hi|]. split; [|split].
    + intros fuel1 fuel2 w1' b w2 w3 v u w4 Hs1 Hunreg Hreg Hs2 Hnot Hset.
      assert (hsteps w1' w2) as Hs12
        by (eapply register_hsteps, Ok_final; exact Hreg).
      assert (forall tf1, heap w1' !! task = Some tf1 -> _result tf1 = None) as Hnot1.
      { eapply not_done_before; [|exact Hnot].
        apply ext_steps. eapply steps_trans; [apply hsteps_steps; exact Hs12 | exact Hs2]. }
      destruct (ext_steps _ _ Hs1 task tf Ht1) as (tf1 & Htf1 & _).
      pose proof (steps_poised _ _ _ _ _ Hs1 Hpo Hnot1) as Hpo1.
      destruct (register_poised _ _ _ _ _ _ _ _ Hpo1 Hunreg Htf1 (Hnot1 _ Htf1) Hit Hreg)
        as [-> Hw2].
      split; [reflexivity|]. split.
      * destruct Hw2 as [_ (tf2 & Htf2 & Hch2 & _)]. exists tf2. split; assumption.
      * apply (Hdeliver w3 v fuel2 u w4); [|exact Hset].
        eapply steps_waiting; eassumption.
    + intros fuel2 w3 v u w4 Hs Hch Hnot Hset.
      apply (Hdeliver w3 v fuel2 u w4); [|exact Hset].
      split; [eapply steps_poised; eassumption|].
      destruct Hch as (tf3 & Htf3 & Hch). exists tf3.
      split; [exact Htf3|]. split; [exact Hch | apply Hnot; exact Htf3].
    + intros Hclosed fuel3 w2 Hs Hunreg.
      assert (idle i task w1) as Hid.
      { eexists. split; [exact Hi|]. repeat split.
        intros tf0 Htf0. assert (tf0 = tf) as -> by congruence.
        intros Hin. apply Hclosed in Hin. lia. }
      destruct (steps_idle _ _ _ _ Hs Hid Hunreg) as (fi2 & Hfi2 & _ & Hres2 & _).
      unfold Future_result, result_with. rewrite Hfi2, Hres2. reflexivity.
  - intros v Hr. split.
    + intros v' Hv.
      apply (getitems_done_Ok fuel task tf v [] keys v' w task tf Ht Hr Ht
               (or_intror (conj Htask (conj eq_refl eq_refl))) Hv).
    + intros i w1 Hg.
      destruct (getitems_done_from fuel task tf v [] keys w task tf i w1
                  Ht Hr Ht (or_intror (conj Htask (conj eq_refl eq_refl))) Hne Hg)
        as (v' & fi & Hv & Hfi & Hc & Hres).
      exists v', fi. simpl in Hv, Hc. repeat split; try assumption.
      unfold Future_result, result_with. rewrite Hfi, Hres. reflexivity.
Qed.

Lemma Indexor_of_task_witness :
  (getitems 2 0 [KStr "a"; KStr "b"] task_world = Ok 2%nat nested_before /\
   register 1 2 nested_other = Ok true nested_registered /\
   set_result 2 0 keyed_result nested_registered = Ok tt nested_done /\
   child_of 2 0 nested_registered /\
   Future_result 0 2 None nested_done = Val (VInt 2) /\
   Future_result 0 0 None nested_done = Val keyed_result) /\
  (set_result 2 0 keyed_result nested_other = Ok tt nested_never /\
   Future_result 0 2 None nested_never = Exc FutureNotDone) /\
  (getitems 2 0 [KStr "a"; KStr "b"] session_task_world = Ok 2%nat session_nested /\
   Session_create_task (H := demo_hashlib) (SO := insertion_order)
     3 0 setup_func [VFut 2%nat] None None session_nested = Ok 3%nat session_wired /\
   set_result 3 0 keyed_result session_wired = Ok tt session_done /\
   Future_result 0 2 None session_done = Val (VInt 2)) /\
  (exists i w1 fi,
     getitems 3 0 [KStr "a"; KStr "b"] done_task_world = Ok i w1 /\
     heap w1 !! i = Some fi /\ cls fi = IsIndexor 0 [KStr "a"; KStr "b"] /\
     Future_result 0 i None w1 = Val (VInt 2)).
Proof.
  assert (getitems 2 0 [KStr "a"; KStr "b"] task_world = Ok 2%nat nested_before)
    as Eg by (vm_compute; reflexivity).
  assert (register 1 2 nested_other = Ok true nested_registered)
    as Er by (vm_compute; reflexivity).
  assert (set_result 2 0 keyed_result nested_registered = Ok tt nested_done)
    as Es by (vm_compute; reflexivity).
  assert (set_result 2 0 keyed_result nested_other = Ok tt nested_never)
    as En by (vm_compute; reflexivity).
  assert (steps nested_before nested_other) as Hother.
  { apply hsteps_steps.
    apply (getitems_hsteps 2 [KStr "a/b"] 0 nested_before). vm_compute. reflexivity. }
  destruct (Indexor_of_task 2 task_world 0 task_record [KStr "a"; KStr "b"])
    as [Hpending _]; [vm_compute; reflexivity | reflexivity | discriminate |].
  destruct (Hpending eq_refl) as (i & w1 & Hg & _ & Hreg & _ & Hnever).
  rewrite Eg in Hg. injection Hg as <- <-.
  split; [|split; [|split]].
  - destruct (Hreg 0%nat 2%nat nested_other true nested_registered nested_registered
                keyed_result tt nested_done)
      as (_ & Hch & v' & Hv' & Hi & Ht).
    + exact Hother.
    + intros fi Hfi. vm_compute in Hfi. injection Hfi as <-. reflexivity.
    + exact Er.
    + apply rtc_refl.
    + intros tf3 Htf3. vm_compute in Htf3. injection Htf3 as <-. reflexivity.
    + exact Es.
    + vm_compute in Hv'. injection Hv' as <-.
      split; [exact Eg|]. split; [exact Er|]. split; [exact Es|].
      split; [exact Hch|]. split; [exact Hi | exact Ht].
  - split; [exact En|].
    apply (Hnever ltac:(intros c Hc; inversion Hc) 0%nat nested_never).
    + eapply steps_trans; [exact Hother|]. apply hsteps_steps.
      apply (set_result_hsteps 2 0 keyed_result nested_other). vm_compute. reflexivity.
    + intros fi Hfi. vm_compute in Hfi. injection Hfi as <-. reflexivity.
  - assert (getitems 2 0 [KStr "a"; KStr "b"] session_task_world
            = Ok 2%nat session_nested) as Eg' by (vm_compute; reflexivity).
    assert (Session_create_task (H := demo_hashlib) (SO := insertion_order)
              3 0 setup_func [VFut 2%nat] None None session_nested
            = Ok 3%nat session_wired) as Ec by (vm_compute; reflexivity).
    assert (set_result 3 0 keyed_result session_wired = Ok tt session_done)
      as Es' by (vm_compute; reflexivity).
    split; [exact Eg'|]. split; [exact Ec|]. split; [exact Es'|].
    destruct (Indexor_of_task 2 session_task_world 0
                (with_registered true task_record) [KStr "a"; KStr "b"])
      as [Hpending' _]; [vm_compute; reflexivity | reflexivity | discriminate |].
    destruct (Hpending' eq_refl) as (i' & w1' & Hg' & _ & _ & Hchild & _).
    rewrite Eg' in Hg'. injection Hg' as <- <-.
    destruct (Hchild 3%nat session_wired keyed_result tt session_done)
      as (v' & Hv' & Hi & _).
    + apply (Session_create_task_steps (H := demo_hashlib) (SO := insertion_order)
               3 0 setup_func [VFut 2%nat] None None session_nested).
      vm_compute. reflexivity.
    + eexists. split; [vm_compute; reflexivity|]. constructor.
    + intros tf3 Htf3. vm_compute in Htf3. injection Htf3 as <-. reflexivity.
    + exact Es'.
    + vm_compute in Hv'. injection Hv' as <-. exact Hi.
  - destruct (Indexor_of_task 2 done_task_world 0
                (with_result (Some keyed_result) task_record) [KStr "a"; KStr "b"])
      as [_ Hdone]; [vm_compute; reflexivity | reflexivity | discriminate |].
    destruct (Hdone keyed_result eq_refl) as [Hreturns Hresult].
    destruct (Hreturns (VInt 2)) as (i' & w1' & Hg'); [vm_compute; reflexivity|].
    destruct (Hresult i' w1' Hg') as (v' & fi & Hv' & Hfi & Hc & Hi).
    vm_compute in Hv'. injection Hv' as <-.
    exists i', w1', fi. split; [exact Hg'|]. split; [exact Hfi|].
    split; [exact Hc | exact Hi].
Defined.

(* ===================================================================== *)
(** ** The JSON text layer: decoding what was encoded                     *)
(* ===================================================================== *)

Local Open Scope string_scope.

Lemma append_cons c (a b : string) : String c a ++ b = String c (a ++ b).
Proof. reflexivity. Qed.

Lemma append_nil (b : string) : "" ++ b = b.
Proof. reflexivity. Qed.

Lemma append_assoc (a b c : string) : (a ++ b) ++ c = a ++ (b ++ c).
Proof.
  induction a as [|x a IH]; [reflexivity|].
  rewrite !append_cons, IH. reflexivity.
Qed.

(** *** Strings *)

(** Scanning the escape of one character gives the character back. *)
Lemma scanstring_escape_char (c : ascii) (x : string) :
  Json.scanstring (Json.escape_char c ++ x)
  = match Json.scanstring x with
    | Some (t, rest) => Some (String c t, rest)
    | None => None
    end.
Proof.
  destruct c as [[|] [|] [|] [|] [|] [|] [|] [|]]; reflexivity.
Qed.

Lemma scanstring_escape (s rest : string) :
  Json.scanstring (Json.escape s ++ String Json.dquote rest) = Some (s, rest).
Proof.
  induction s as [|c s IH]; [reflexivity|].
  cbn [Json.escape]. rewrite append_assoc, scanstring_escape_char, IH. reflexivity.
Qed.

Lemma scanstring_literal (s rest : string) :
  exists x, Json.encode_basestring_ascii s ++ rest = String Json.dquote x /\
            Json.scanstring x = Some (s, rest).
Proof.
  unfold Json.encode_basestring_ascii. rewrite append_cons.
  eexists. split; [reflexivity|].
  rewrite append_assoc. apply scanstring_escape.
Qed.

(** *** Numbers *)

(** What can follow a number in a text. *)
Definition follow_ok (rest : string) : Prop :=
  match rest with
  | EmptyString => True
  | String c _ => Json.is_digit c = false /\ Json.starts_float rest = false
  end.

Lemma span_digits_uint d rest :
  follow_ok rest ->
  Json.span_digits (NilEmpty.string_of_uint d ++ rest)
  = (NilEmpty.string_of_uint d, rest).
Proof.
  intros Hrest. induction d; cbn [NilEmpty.string_of_uint];
    rewrite ?append_cons; cbn [Json.span_digits];
    try (change (Json.is_digit _) with true; cbv iota; rewrite IHd; reflexivity).
  rewrite append_nil. destruct rest as [|c rest]; [reflexivity|].
  destruct Hrest as [Hd _]. cbn [Json.span_digits]. rewrite Hd. reflexivity.
Qed.

Lemma nzhead_head d :
  match Decimal.nzhead d with Decimal.D0 _ => False | _ => True end.
Proof. induction d; simpl; auto. Qed.

Lemma to_uint_head p :
  match Pos.to_uint p with Decimal.D0 _ | Decimal.Nil => False | _ => True end.
Proof.
  pose proof (DecimalPos.Unsigned.to_of (Pos.to_uint p)) as H.
  rewrite DecimalPos.Unsigned.of_to in H. simpl in H.
  pose proof (DecimalPos.Unsigned.to_uint_nonzero p) as Hnz.
  pose proof (nzhead_head (Pos.to_uint p)) as Hh.
  unfold Decimal.unorm in H.
  destruct (Decimal.nzhead (Pos.to_uint p)) eqn:E; rewrite H in *;
    try exact I; try contradiction.
Qed.

Lemma scan_number_uint d rest (sign : bool) :
  follow_ok rest ->
  match d with Decimal.D0 _ | Decimal.Nil => False | _ => True end ->
  (let (ds, r) := Json.span_digits (NilEmpty.string_of_uint d ++ rest) in
   match ds with
   | EmptyString => None
   | String c ds' =>
       if ((Json.code c =? 48)%N && negb (String.eqb ds' EmptyString))%bool then None
       else if Json.starts_float r then None
       else match NilZero.uint_of_string ds with
            | Some u => Some (if sign then Z.opp (Z.of_uint u) else Z.of_uint u, r)
            | None => None
            end
   end)
  = Some (if sign then Z.opp (Z.of_uint d) else Z.of_uint d, rest).
Proof.
  intros Hrest Hd. rewrite (span_digits_uint d rest Hrest).
  assert (Json.starts_float rest = false) as Hf
    by (destruct rest; [reflexivity | apply Hrest]).
  assert (NilZero.uint_of_string (NilEmpty.string_of_uint d) = Some d) as Hu.
  { assert (NilZero.string_of_uint d = NilEmpty.string_of_uint d) as <-
      by (destruct d; try contradiction; reflexivity).
    apply NilZero.usu. intros ->. contradiction. }
  destruct d; try contradiction; cbn [NilEmpty.string_of_uint] in *;
    change (Json.code _ =? 48)%N with false; cbv iota; cbn [andb];
    rewrite Hf, Hu; reflexivity.
Qed.

Lemma span_digits_follow rest :
  follow_ok rest -> Json.span_digits rest = (EmptyString, rest).
Proof.
  destruct rest as [|c rest]; [reflexivity|]. intros [Hd _].
  cbn [Json.span_digits]. rewrite Hd. reflexivity.
Qed.

Lemma starts_float_follow rest :
  follow_ok rest -> Json.starts_float rest = false.
Proof. destruct rest; [reflexivity | intros [_ H]; exact H]. Qed.

Lemma string_of_uint_head p :
  NilZero.string_of_uint (Pos.to_uint p) = NilEmpty.string_of_uint (Pos.to_uint p).
Proof.
  pose proof (to_uint_head p) as Hh.
  destruct (Pos.to_uint p); try contradiction; reflexivity.
Qed.

Lemma of_uint_to_uint p : Z.of_uint (Pos.to_uint p) = Z.pos p.
Proof. unfold Z.of_uint. rewrite DecimalPos.Unsigned.of_to. reflexivity. Qed.

Lemma scan_number_int_repr z rest :
  follow_ok rest ->
  Json.scan_number (Json.int_repr z ++ rest) = Some (z, rest).
Proof.
  intros Hrest. unfold Json.int_repr.
  destruct z as [|p|p].
  - change (NilZero.string_of_int (Z.to_int 0) ++ rest) with (String "0" rest).
    unfold Json.scan_number.
    change (Json.code "0" =? 45)%N with false. cbv iota.
    cbn [Json.span_digits]. change (Json.is_digit "0") with true. cbv iota.
    rewrite (span_digits_follow rest Hrest), (starts_float_follow rest Hrest).
    reflexivity.
  - pose proof (to_uint_head p) as Hh.
    pose proof (scan_number_uint (Pos.to_uint p) rest false Hrest Hh) as Hs.
    rewrite of_uint_to_uint in Hs. rewrite <- Hs.
    cbn [Z.to_int NilZero.string_of_int]. rewrite string_of_uint_head.
    unfold Json.scan_number.
    destruct (Pos.to_uint p); try contradiction;
      cbn [NilEmpty.string_of_uint]; rewrite append_cons;
      change (Json.code _ =? 45)%N with false; reflexivity.
  - pose proof (to_uint_head p) as Hh.
    pose proof (scan_number_uint (Pos.to_uint p) rest true Hrest Hh) as Hs.
    rewrite of_uint_to_uint in Hs.
    change (- Z.pos p) with (Z.neg p) in Hs.
    rewrite <- Hs.
    cbn [Z.to_int NilZero.string_of_int]. rewrite string_of_uint_head.
    rewrite append_cons. unfold Json.scan_number.
    change (Json.code "-" =? 45)%N with true. reflexivity.
Qed.

(** The first character of the text of a value. *)
Definition value_head (c : ascii) : Prop :=
  Json.is_ws c = false /\ (Json.code c =? 93)%N = false /\
  (Json.code c =? 125)%N = false /\ (Json.code c =? 44)%N = false.

Definition numeric_head (c : ascii) : Prop :=
  (Json.code c =? 45)%N = true \/ Json.is_digit c = true.

Lemma int_repr_head z :
  exists c t, Json.int_repr z = String c t /\ numeric_head c.
Proof.
  unfold Json.int_repr. destruct z as [|p|p].
  - eexists _, _. split; [reflexivity|]. right. reflexivity.
  - pose proof (to_uint_head p) as Hh. cbn [Z.to_int NilZero.string_of_int].
    destruct (Pos.to_uint p); try contradiction;
      (eexists _, _; split; [reflexivity | right; reflexivity]).
  - eexists _, _. split; [reflexivity|]. left. reflexivity.
Qed.

Lemma numeric_head_value c : numeric_head c -> value_head c.
Proof.
  unfold numeric_head, value_head, Json.is_ws, Json.is_digit.
  intros [H|H].
  - apply N.eqb_eq in H. rewrite H. repeat split; reflexivity.
  - apply andb_true_iff in H as [H1 H2].
    apply N.leb_le in H1. apply N.leb_le in H2.
    repeat split; try (apply N.eqb_neq; lia).
    repeat (apply orb_false_iff; split); apply N.eqb_neq; lia.
Qed.

Lemma scan_once_number fuel c t :
  numeric_head c ->
  Json.scan_once (S fuel) (String c t)
  = match Json.scan_number (String c t) with
    | Some (z, rest) => Some (VInt z, rest)
    | None => None
    end.
Proof.
  intros Hc. cbn [Json.scan_once].
  assert (forall k, (k = 34 \/ k = 123 \/ k = 91 \/ k = 110 \/ k = 116 \/ k = 102)%N ->
                    (Json.code c =? k)%N = false) as Hk.
  { intros k Hk. apply N.eqb_neq. destruct Hc as [H|H].
    - apply N.eqb_eq in H. lia.
    - unfold Json.is_digit in H. apply andb_true_iff in H as [H1 H2].
      apply N.leb_le in H1. apply N.leb_le in H2. lia. }
  rewrite !Hk by lia. reflexivity.
Qed.

(** *** Texts and their heads *)

Lemma length_append (a b : string) :
  String.length (a ++ b) = (String.length a + String.length b)%nat.
Proof.
  induction a as [|c a IH]; [reflexivity|].
  rewrite append_cons. cbn [String.length]. rewrite IH. reflexivity.
Qed.

Definition starts_value (s : string) : Prop :=
  match s with
  | String c _ => value_head c
  | EmptyString => False
  end.

Lemma starts_value_append s x : starts_value s -> starts_value (s ++ x).
Proof. destruct s; [contradiction|]. rewrite append_cons. exact id. Qed.

Lemma skip_ws_value s : starts_value s -> Json.skip_ws s = s.
Proof.
  destruct s as [|c s]; [reflexivity|]. intros [Hws _].
  cbn [Json.skip_ws]. rewrite Hws. reflexivity.
Qed.

Lemma skip_ws_space s : Json.skip_ws (String " " s) = Json.skip_ws s.
Proof. reflexivity. Qed.

Lemma value_head_literal c :
  (if Json.is_ws c then false
   else negb ((Json.code c =? 93) || (Json.code c =? 125) || (Json.code c =? 44))%N)
  = true ->
  value_head c.
Proof.
  unfold value_head. destruct (Json.is_ws c); [discriminate|].
  intros H. apply negb_true_iff in H.
  apply orb_false_iff in H as [H H3]. apply orb_false_iff in H as [H1 H2].
  auto.
Qed.

Lemma dumps_starts_value v t :
  Json.dumps (fun _ => None) v = Some t -> starts_value t.
Proof.
  destruct v as [|[|]|z|s|l|d|r]; cbn [Json.dumps].
  - intros [= <-]. apply value_head_literal. reflexivity.
  - intros [= <-]. apply value_head_literal. reflexivity.
  - intros [= <-]. apply value_head_literal. reflexivity.
  - intros [= <-]. destruct (int_repr_head z) as (c & t & -> & Hc).
    apply numeric_head_value, Hc.
  - intros [= <-]. apply value_head_literal. reflexivity.
  - destruct (Json.sequence _); intros [= <-].
    apply value_head_literal. reflexivity.
  - destruct (Json.sequence _); intros [= <-].
    apply value_head_literal. reflexivity.
  - discriminate.
Qed.

Lemma join_cons2 sep (x y : string) l :
  Json.join sep (x :: y :: l) = x ++ sep ++ Json.join sep (y :: l).
Proof. reflexivity. Qed.

Lemma join_starts_value sep x l :
  starts_value x -> starts_value (Json.join sep (x :: l)).
Proof.
  intros Hx. destruct l as [|y l]; [exact Hx|].
  rewrite join_cons2. apply starts_value_append, Hx.
Qed.

Lemma sequence_cons {A} (o : option A) l :
  Json.sequence (o :: l)
  = match o, Json.sequence l with
    | Some x, Some xs => Some (x :: xs)
    | _, _ => None
    end.
Proof. reflexivity. Qed.

Lemma scan_items_S f s acc :
  Json.scan_items (S f) s acc
  = match Json.scan_once f s with
    | Some (v, rest) =>
        match Json.skip_ws rest with
        | String c r =>
            if (Json.code c =? 93)%N then Some (List.rev (v :: acc), r)
            else if (Json.code c =? 44)%N
                 then Json.scan_items f (Json.skip_ws r) (v :: acc)
                 else None
        | EmptyString => None
        end
    | None => None
    end.
Proof. reflexivity. Qed.

(** A value that is read back from its text, whatever follows. *)
Definition reads_back (v : pyval) : Prop :=
  forall t, Json.dumps (fun _ => None) v = Some t -> wf_val v ->
  forall fuel rest, (String.length t <= fuel)%nat -> follow_ok rest ->
  Json.scan_once fuel (t ++ rest) = Some (sort_keys v, rest).

Lemma scan_items_join l :
  Forall reads_back l ->
  forall chunks,
    Json.sequence (List.map (Json.dumps (fun _ => None)) l) = Some chunks ->
    List.fold_right (fun x acc => wf_val x /\ acc) True l ->
    l <> [] ->
    forall fuel acc rest,
      (String.length (Json.join ", " chunks) < fuel)%nat ->
      Json.scan_items fuel (Json.join ", " chunks ++ String "]" rest) acc
      = Some ((List.rev acc ++ List.map sort_keys l)%list, rest).
Proof.
  induction 1 as [|x l Hx Hl IH]; intros chunks Hseq Hwf Hne fuel acc rest Hfuel;
    [congruence|].
  cbn [List.map] in Hseq. rewrite sequence_cons in Hseq.
  destruct (Json.dumps _ x) as [tx|] eqn:Ex; [|discriminate].
  destruct (Json.sequence _) as [chunks'|] eqn:El; [|discriminate].
  injection Hseq as <-. destruct Hwf as [Hwx Hwl].
  destruct fuel as [|f]; [lia|]. rewrite scan_items_S.
  destruct l as [|y l'].
  - injection El as <-. cbn [Json.join] in *.
    rewrite (Hx tx Ex Hwx f (String "]" rest)); [| lia | split; reflexivity].
    reflexivity.
  - cbn [List.map] in El. rewrite sequence_cons in El.
    destruct (Json.dumps _ y) as [ty|] eqn:Ey; [|discriminate].
    destruct (Json.sequence (List.map _ l')) as [chunks''|] eqn:El'; [|discriminate].
    injection El as <-.
    rewrite join_cons2 in *. rewrite !length_append in Hfuel.
    change (String.length ", ") with 2%nat in Hfuel.
    rewrite !append_assoc.
    change (", " ++ ?x) with (String "," (String " " x)).
    rewrite (Hx tx Ex Hwx f); [| lia | split; reflexivity].
    change (Json.skip_ws (String "," ?x)) with (String "," x).
    change (Json.code "," =? 93)%N with false.
    change (Json.code "," =? 44)%N with true. cbv iota.
    rewrite skip_ws_space, skip_ws_value
      by (apply starts_value_append, join_starts_value;
          eapply dumps_starts_value; exact Ey).
    rewrite (IH (ty :: chunks'')); [| | exact Hwl | discriminate | lia].
    + cbn [List.rev List.map]. rewrite <- app_assoc. reflexivity.
    + reflexivity.
Qed.

(** *** Dictionaries *)

Lemma scan_members_S f s acc :
  Json.scan_members (S f) s acc
  = match Json.scanstring s with
    | Some (k, rest) =>
        match Json.skip_ws rest with
        | String c r =>
            if (Json.code c =? 58)%N then
              match Json.scan_once f (Json.skip_ws r) with
              | Some (v, rest') =>
                  match Json.skip_ws rest' with
                  | String c' r' =>
                      if (Json.code c' =? 125)%N
                      then Some (List.rev ((k, v) :: acc), r')
                      else if (Json.code c' =? 44)%N then
                        match Json.skip_ws r' with
                        | String q r'' =>
                            if (Json.code q =? 34)%N
                            then Json.scan_members f r'' ((k, v) :: acc)
                            else None
                        | EmptyString => None
                        end
                      else None
                  | EmptyString => None
                  end
              | None => None
              end
            else None
        | EmptyString => None
        end
    | None => None
    end.
Proof. reflexivity. Qed.

(** The text of one item of a dictionary. *)
Definition member_text (kt : string * string) : string :=
  Json.encode_basestring_ascii (fst kt) ++ Json.key_separator ++ snd kt.

Lemma member_text_eq k t x :
  member_text (k, t) ++ x
  = String Json.dquote
      (Json.escape k ++ String Json.dquote (String ":" (String " " (t ++ x)))).
Proof.
  unfold member_text, Json.encode_basestring_ascii, Json.key_separator, Json.str1.
  cbn [fst snd]. rewrite !append_cons, !append_assoc, !append_cons, !append_nil.
  reflexivity.
Qed.

Lemma member_text_length k t :
  (String.length t + 4 <= String.length (member_text (k, t)))%nat.
Proof.
  unfold member_text, Json.encode_basestring_ascii, Json.key_separator, Json.str1.
  cbn [fst snd]. rewrite append_cons. cbn [String.length].
  rewrite !length_append. cbn [String.length]. lia.
Qed.

Lemma join_member_head (texts : list string) kt x :
  exists s, Json.join ", " (member_text kt :: texts) ++ x = String Json.dquote s.
Proof.
  destruct kt as [k t]. destruct texts as [|y texts].
  - cbn [Json.join]. rewrite member_text_eq. eexists. reflexivity.
  - rewrite join_cons2, append_assoc, member_text_eq. eexists. reflexivity.
Qed.

(** An item with its value and the text of the value. *)
Definition item_ok (it : string * (pyval * string)) : Prop :=
  reads_back (fst (snd it)) /\
  Json.dumps (fun _ => None) (fst (snd it)) = Some (snd (snd it)) /\
  wf_val (fst (snd it)).

Definition item_text (it : string * (pyval * string)) : string * string :=
  (fst it, snd (snd it)).

Definition item_read (it : string * (pyval * string)) : string * pyval :=
  (fst it, sort_keys (fst (snd it))).

Lemma scan_members_join its :
  Forall item_ok its ->
  its <> [] ->
  forall fuel acc rest s,
    String Json.dquote s
    = Json.join ", " (List.map (fun it => member_text (item_text it)) its)
      ++ String "}" rest ->
    (String.length
       (Json.join ", " (List.map (fun it => member_text (item_text it)) its))
     <= fuel)%nat ->
    Json.scan_members fuel s acc
    = Some ((List.rev acc ++ List.map item_read its)%list, rest).
Proof.
  induction 1 as [|[k [v t]] its (Hread & Hd & Hwf) Hits IH];
    intros Hne fuel acc rest s Hs Hfuel; [congruence|].
  cbn [fst snd] in *. cbn [List.map] in Hs, Hfuel.
  unfold item_text at 1 in Hs. unfold item_text at 1 in Hfuel.
  cbn [fst snd] in Hs, Hfuel.
  pose proof (member_text_length k t) as Hlen.
  pose proof (dumps_starts_value _ _ Hd) as Hhead.
  destruct its as [|it' its'].
  - cbn [List.map Json.join] in Hs, Hfuel.
    rewrite member_text_eq in Hs. injection Hs as ->.
    destruct fuel as [|f]; [lia|].
    rewrite scan_members_S, scanstring_escape.
    change (Json.skip_ws (String ":" ?x)) with (String ":" x).
    change (Json.code ":" =? 58)%N with true. cbv iota.
    rewrite skip_ws_space, skip_ws_value by (apply starts_value_append, Hhead).
    rewrite (Hread t Hd Hwf f); [| lia | split; reflexivity].
    reflexivity.
  - cbn [List.map] in Hs, Hfuel. rewrite join_cons2 in Hs, Hfuel.
    rewrite !length_append in Hfuel.
    change (String.length ", ") with 2%nat in Hfuel.
    destruct (join_member_head
                (List.map (fun it => member_text (item_text it)) its')
                (item_text it') (String "}" rest)) as [s' Hs'].
    rewrite !append_assoc, Hs', member_text_eq in Hs. injection Hs as ->.
    destruct fuel as [|f]; [lia|].
    rewrite scan_members_S, scanstring_escape.
    change (Json.skip_ws (String ":" ?x)) with (String ":" x).
    change (Json.code ":" =? 58)%N with true. cbv iota.
    rewrite skip_ws_space, skip_ws_value by (apply starts_value_append, Hhead).
    change (", " ++ ?x) with (String "," (String " " x)).
    rewrite (Hread t Hd Hwf f); [| lia | split; reflexivity].
    change (Json.skip_ws (String "," ?x)) with (String "," x).
    change (Json.code "," =? 125)%N with false.
    change (Json.code "," =? 44)%N with true. cbv iota.
    change (Json.skip_ws (String " " (String Json.dquote s')))
      with (String Json.dquote s').
    change (Json.code Json.dquote =? 34)%N with true. cbv iota.
    rewrite (IH ltac:(discriminate) f ((k, sort_keys v) :: acc) rest s');
      [| symmetry; exact Hs' | cbn [List.map]; lia].
    cbn [List.rev List.map]. rewrite <- app_assoc. reflexivity.
Qed.

(** *** [sorted(dct.items())] and [dict(pairs)] *)

Section Sorted_items.
Context {A : Type}.
Implicit Types l : list (string * A).

Lemma insert_item_perm k (v : A) l :
  Permutation (Json.insert_item k v l) ((k, v) :: l).
Proof.
  induction l as [|[k' v'] l IH]; cbn [Json.insert_item]; [reflexivity|].
  destruct (String.leb k k'); [reflexivity|].
  rewrite IH. apply perm_swap.
Qed.

Lemma sorted_items_perm l : Permutation (Json.sorted_items l) l.
Proof.
  induction l as [|[k v] l IH]; cbn [Json.sorted_items]; [reflexivity|].
  rewrite insert_item_perm, IH. reflexivity.
Qed.

Lemma insert_item_HdRel k0 k (v : A) l :
  String.leb k0 k = true ->
  HdRel (fun a b => String.leb a b = true) k0 (List.map fst l) ->
  HdRel (fun a b => String.leb a b = true) k0
        (List.map fst (Json.insert_item k v l)).
Proof.
  intros Hk Hl. destruct l as [|[k' v'] l]; cbn [Json.insert_item].
  - constructor. exact Hk.
  - destruct (String.leb k k'); constructor; [exact Hk|].
    inversion Hl; assumption.
Qed.

Lemma insert_item_sorted k (v : A) l :
  Sorted (fun a b => String.leb a b = true) (List.map fst l) ->
  Sorted (fun a b => String.leb a b = true)
         (List.map fst (Json.insert_item k v l)).
Proof.
  induction l as [|[k' v'] l IH]; cbn [Json.insert_item]; intros Hs.
  - repeat constructor.
  - destruct (String.leb k k') eqn:E.
    + constructor; [exact Hs|]. constructor. exact E.
    + cbn [List.map fst] in *. inversion Hs as [|? ? Hs' Hhd]; subst.
      constructor; [apply IH, Hs'|].
      apply insert_item_HdRel; [|exact Hhd].
      destruct (String.leb_total k k') as [H|H]; [congruence | exact H].
Qed.

Lemma sorted_items_sorted l :
  Sorted (fun a b => String.leb a b = true)
         (List.map fst (Json.sorted_items l)).
Proof.
  induction l as [|[k v] l IH]; cbn [Json.sorted_items]; [constructor|].
  apply insert_item_sorted, IH.
Qed.

Lemma dict_set_fresh k (v : A) l :
  ~ In k (List.map fst l) -> Json.dict_set k v l = (l ++ [(k, v)])%list.
Proof.
  induction l as [|[k' v'] l IH]; cbn [Json.dict_set List.map fst In];
    intros Hk; [reflexivity|].
  destruct (String.eqb_spec k k') as [->|Hne]; [tauto|].
  rewrite IH by tauto. reflexivity.
Qed.

Lemma dict_of_pairs_from l : forall acc,
  NoDup (List.map fst (acc ++ l)%list) ->
  List.fold_left (fun d kv => Json.dict_set (fst kv) (snd kv) d) l acc
  = (acc ++ l)%list.
Proof.
  induction l as [|[k v] l IH]; intros acc Hnd; cbn [List.fold_left fst snd].
  - rewrite app_nil_r. reflexivity.
  - assert (~ In k (List.map fst acc)) as Hk.
    { rewrite List.map_app in Hnd. apply NoDup_app in Hnd as (_ & Hd & _).
      intros Hin. apply (Hd k); apply list_elem_of_In; [exact Hin|].
      left. reflexivity. }
    rewrite dict_set_fresh by exact Hk.
    rewrite IH; rewrite <- app_assoc; [reflexivity | exact Hnd].
Qed.

Lemma dict_of_pairs_NoDup l :
  NoDup (List.map fst l) -> Json.dict_of_pairs l = l.
Proof. intros Hnd. apply (dict_of_pairs_from l []). exact Hnd. Qed.

End Sorted_items.

Lemma insert_item_map {A B} (g : A -> B) k v (l : list (string * A)) :
  Json.insert_item k (g v) (List.map (fun kv => (fst kv, g (snd kv))) l)
  = List.map (fun kv => (fst kv, g (snd kv))) (Json.insert_item k v l).
Proof.
  induction l as [|[k' v'] l IH]; [reflexivity|].
  cbn [Json.insert_item List.map fst snd].
  destruct (String.leb k k'); [reflexivity|].
  cbn [List.map fst snd]. rewrite IH. reflexivity.
Qed.

Lemma sorted_items_map {A B} (g : A -> B) (l : list (string * A)) :
  Json.sorted_items (List.map (fun kv => (fst kv, g (snd kv))) l)
  = List.map (fun kv => (fst kv, g (snd kv))) (Json.sorted_items l).
Proof.
  induction l as [|[k v] l IH]; [reflexivity|].
  cbn [Json.sorted_items List.map fst snd]. rewrite IH.
  apply insert_item_map.
Qed.

(** *** The round trip of the text layer *)

Lemma dict_items_triples d : forall items,
  Json.sequence
    (List.map (fun kv => match Json.dumps (fun _ => None) (snd kv) with
                         | Some t => Some (fst kv, t)
                         | None => None
                         end) d) = Some items ->
  Forall (fun kv => reads_back (snd kv)) d ->
  List.fold_right (fun kv acc => wf_val (snd kv) /\ acc) True d ->
  exists its,
    Forall item_ok its /\
    List.map (fun it => (fst it, snd (snd it))) its = items /\
    List.map (fun it => (fst it, fst (snd it))) its = d.
Proof.
  induction d as [|[k v] d IH]; intros items Hseq Hall Hwf.
  - injection Hseq as <-. exists []. repeat split. constructor.
  - cbn [List.map fst snd] in Hseq. rewrite sequence_cons in Hseq.
    destruct (Json.dumps _ v) as [t|] eqn:Ev; [|discriminate].
    destruct (Json.sequence _) as [items'|] eqn:Es; [|discriminate].
    injection Hseq as <-. destruct Hwf as [Hwv Hwd].
    inversion Hall as [|? ? Hv Hd]; subst.
    destruct (IH items' eq_refl Hd Hwd) as (its & Hits & Ht & Hv').
    exists ((k, (v, t)) :: its). split; [|split].
    + constructor; [|exact Hits]. repeat split; assumption.
    + cbn [List.map fst snd]. rewrite Ht. reflexivity.
    + cbn [List.map fst snd]. rewrite Hv'. reflexivity.
Qed.

Lemma scan_once_empty_list f rest :
  Json.scan_once (S f) (String "[" (String "]" rest)) = Some (VList [], rest).
Proof. reflexivity. Qed.

Lemma scan_once_list f s :
  starts_value s ->
  Json.scan_once (S f) (String "[" s)
  = match Json.scan_items f s [] with
    | Some (items, rest) => Some (VList items, rest)
    | None => None
    end.
Proof.
  intros Hs. cbn [Json.scan_once].
  change (Json.code "[" =? 34)%N with false.
  change (Json.code "[" =? 123)%N with false.
  change (Json.code "[" =? 91)%N with true. cbv iota.
  rewrite (skip_ws_value s Hs).
  destruct s as [|c s]; [contradiction|].
  destruct Hs as (_ & -> & _). reflexivity.
Qed.

Lemma scan_once_dict f s :
  Json.scan_once (S f) (String "{" (String Json.dquote s))
  = match Json.scan_members f s [] with
    | Some (pairs, rest) => Some (VDict (Json.dict_of_pairs pairs), rest)
    | None => None
    end.
Proof. reflexivity. Qed.

Ltac norm_append :=
  repeat rewrite ?append_cons, ?append_nil, ?append_assoc.

Ltac norm_append_in H :=
  repeat rewrite ?append_cons, ?append_nil, ?append_assoc in H.

Lemma scan_once_dumps v : reads_back v.
Proof.
  induction v as [| b | z | s | l IH | d IH | r] using pyval_nested_ind;
    intros t Ht Hwf fuel rest Hfuel Hrest.
  - injection Ht as <-. destruct fuel as [|f]; [cbn in Hfuel; lia|]. reflexivity.
  - destruct b; injection Ht as <-;
      (destruct fuel as [|f]; [cbn in Hfuel; lia|]); reflexivity.
  - injection Ht as <-.
    destruct (int_repr_head z) as (c & t & Hz & Hc).
    destruct fuel as [|f]; [rewrite Hz in Hfuel; cbn in Hfuel; lia|].
    pose proof (scan_number_int_repr z rest Hrest) as Hn.
    rewrite Hz, append_cons in *. rewrite (scan_once_number f c _ Hc), Hn.
    reflexivity.
  - injection Ht as <-.
    destruct fuel as [|f]; [cbn in Hfuel; lia|].
    destruct (scanstring_literal s rest) as (x & -> & Hx).
    cbn [Json.scan_once]. change (Json.code Json.dquote =? 34)%N with true.
    cbv iota. rewrite Hx. reflexivity.
  - cbn [Json.dumps] in Ht.
    destruct (Json.sequence _) as [chunks|] eqn:Es; [|discriminate].
    injection Ht as <-. unfold Json.item_separator in *. norm_append_in Hfuel.
    cbn [String.length] in Hfuel. rewrite length_append in Hfuel.
    cbn [String.length] in Hfuel.
    destruct fuel as [|f]; [lia|].
    norm_append.
    destruct l as [|x l].
    + injection Es as <-. reflexivity.
    + assert (starts_value (Json.join ", " chunks)) as Hhead.
      { cbn [List.map] in Es. rewrite sequence_cons in Es.
        destruct (Json.dumps _ x) as [tx|] eqn:Ex; [|discriminate].
        destruct (Json.sequence _); [|discriminate]. injection Es as <-.
        apply join_starts_value. eapply dumps_starts_value, Ex. }
      rewrite scan_once_list by (apply starts_value_append, Hhead).
      rewrite (scan_items_join (x :: l) IH chunks Es Hwf); [| discriminate | lia].
      reflexivity.
  - cbn [Json.dumps] in Ht.
    destruct (Json.sequence _) as [items|] eqn:Es; [|discriminate].
    injection Ht as <-. destruct Hwf as [Hnd Hwf].
    destruct (dict_items_triples d items Es IH Hwf) as (its & Hits & <- & <-).
    rewrite (sorted_items_map (fun vt : pyval * string => snd vt) its) in *.
    cbn [sort_keys]. rewrite !List.map_map in *. cbn [fst snd] in *.
    rewrite (sorted_items_map (fun vt : pyval * string => sort_keys (fst vt)) its).
    change (fun x : string * (pyval * string) =>
              Json.encode_basestring_ascii (fst x)
              ++ Json.key_separator ++ snd (snd x))
      with (fun it => member_text (item_text it)) in *.
    change (fun x : string * (pyval * string) => (fst x, sort_keys (fst (snd x))))
      with item_read.
    pose proof (sorted_items_perm its) as Hperm.
    assert (Forall item_ok (Json.sorted_items its)) as Hsits
      by (rewrite Hperm; exact Hits).
    assert (NoDup (List.map fst (List.map item_read (Json.sorted_items its))))
      as Hnds.
    { unfold item_read. rewrite List.map_map. cbn [fst]. rewrite Hperm. exact Hnd. }
    unfold Json.item_separator in *. norm_append_in Hfuel. norm_append.
    cbn [String.length] in Hfuel. rewrite length_append in Hfuel.
    cbn [String.length] in Hfuel.
    destruct fuel as [|f]; [lia|].
    destruct (Json.sorted_items its) as [|it sits] eqn:Esits.
    + reflexivity.
    + cbn [List.map] in Hfuel |- *.
      destruct (join_member_head
                  (List.map (fun it => member_text (item_text it)) sits)
                  (item_text it) (String "}" rest)) as [s' Hs'].
      rewrite Hs', scan_once_dict.
      rewrite (scan_members_join (it :: sits) Hsits ltac:(discriminate)
                 f [] rest s' (eq_sym Hs')) by (cbn [List.map]; lia).
      cbn [List.rev app]. rewrite dict_of_pairs_NoDup by exact Hnds.
      reflexivity.
  - discriminate.
Qed.

Lemma append_nil_r (a : string) : a ++ "" = a.
Proof.
  induction a as [|c a IH]; [reflexivity|]. rewrite append_cons, IH. reflexivity.
Qed.

(** [json.loads(json.dumps(v, sort_keys=True))] is [v] with the items of
    every dictionary in the order of their keys. *)
Lemma loads_dumps v t :
  Json.dumps (fun _ => None) v = Some t -> wf_val v ->
  Json.loads t = Some (sort_keys v).
Proof.
  intros Ht Hwf. unfold Json.loads.
  rewrite (skip_ws_value t (dumps_starts_value v t Ht)).
  pose proof (scan_once_dumps v t Ht Hwf (S (String.length t)) ""
                ltac:(lia) I) as Hs.
  rewrite append_nil_r in Hs. rewrite Hs. reflexivity.
Qed.

(** *** Encoding with classes: the text is the one of the value in which
    every future stands as its tagged object. *)

Section Dumps_subst.
Variable dflt : ref -> option string.
Variable tree : ref -> option pyval.
Hypothesis dflt_tree :
  forall r, dflt r = match tree r with
                     | Some x => Json.dumps (fun _ => None) x
                     | None => None
                     end.

Lemma dumps_subst v : forall t,
  Json.dumps dflt v = Some t ->
  exists v', subst_futures tree v = Some v' /\
             Json.dumps (fun _ => None) v' = Some t.
Proof.
  induction v as [| b | z | s | l IH | d IH | r] using pyval_nested_ind; intros t Ht;
    try (eexists; split; [reflexivity | exact Ht]).
  - cbn [Json.dumps] in Ht.
    destruct (Json.sequence _) as [chunks|] eqn:Es; [|discriminate].
    injection Ht as <-.
    assert (exists l', Json.sequence (List.map (subst_futures tree) l) = Some l' /\
                       Json.sequence (List.map (Json.dumps (fun _ => None)) l')
                       = Some chunks) as (l' & Hl' & Hc).
    { clear -IH Es. revert chunks Es.
      induction IH as [|x l Hx Hl IHl]; intros chunks Es.
      - injection Es as <-. exists []. split; reflexivity.
      - cbn [List.map] in Es. rewrite sequence_cons in Es.
        destruct (Json.dumps dflt x) as [tx|] eqn:Ex; [|discriminate].
        destruct (Json.sequence _) as [chunks'|] eqn:Es'; [|discriminate].
        injection Es as <-.
        destruct (Hx tx eq_refl) as (x' & Hx' & Htx).
        destruct (IHl chunks' eq_refl) as (l' & Hl' & Hc).
        exists (x' :: l'). cbn [List.map]. rewrite !sequence_cons, Hx', Hl', Htx, Hc.
        split; reflexivity. }
    exists (VList l'). cbn [subst_futures Json.dumps]. rewrite Hl', Hc.
    split; reflexivity.
  - cbn [Json.dumps] in Ht.
    destruct (Json.sequence _) as [items|] eqn:Es; [|discriminate].
    injection Ht as <-.
    assert (exists d',
              Json.sequence
                (List.map (fun kv => option_map (fun y => (fst kv, y))
                                                (subst_futures tree (snd kv))) d)
              = Some d' /\
              Json.sequence
                (List.map (fun kv => match Json.dumps (fun _ => None) (snd kv) with
                                     | Some t => Some (fst kv, t)
                                     | None => None
                                     end) d') = Some items) as (d' & Hd' & Hc).
    { clear -IH Es. revert items Es.
      induction IH as [|[k x] d Hx Hd IHd]; intros items Es.
      - injection Es as <-. exists []. split; reflexivity.
      - cbn [List.map fst snd] in Es, Hx. rewrite sequence_cons in Es.
        destruct (Json.dumps dflt x) as [tx|] eqn:Ex; [|discriminate].
        destruct (Json.sequence _) as [items'|] eqn:Es'; [|discriminate].
        injection Es as <-.
        destruct (Hx tx eq_refl) as (x' & Hx' & Htx).
        destruct (IHd items' eq_refl) as (d' & Hd' & Hc).
        exists ((k, x') :: d'). cbn [List.map fst snd].
        rewrite !sequence_cons, Hx', Hd', Htx, Hc.
        split; reflexivity. }
    exists (VDict d'). cbn [subst_futures Json.dumps]. rewrite Hd', Hc.
    split; reflexivity.
  - cbn [Json.dumps subst_futures] in *. rewrite dflt_tree in Ht.
    destruct (tree r) as [x|]; [|discriminate].
    exists x. split; [reflexivity | exact Ht].
Qed.

End Dumps_subst.

Lemma class_default_tree h r :
  class_default h r = match class_tree h r with
                      | Some x => Json.dumps (fun _ => None) x
                      | None => None
                      end.
Proof.
  unfold class_default, class_tree.
  destruct (h !! r) as [f|]; [|reflexivity].
  destruct (cls f); reflexivity.
Qed.

(* ===================================================================== *)
(** ** The texts that are hashed                                          *)
(* ===================================================================== *)

Lemma fold_right_and_Forall {A} (P : A -> Prop) (l : list A) :
  List.fold_right (fun x acc => P x /\ acc) True l <-> Forall P l.
Proof.
  induction l as [|x l IH]; cbn [List.fold_right].
  - split; [constructor | trivial].
  - rewrite IH. split.
    + intros [Hx Hl]. constructor; assumption.
    + intros Hf. inversion Hf; subst. split; assumption.
Qed.

Lemma sequence_Some_Forall2 {A B} (g : A -> option B) l : forall l',
  Json.sequence (List.map g l) = Some l' ->
  Forall2 (fun x y => g x = Some y) l l'.
Proof.
  induction l as [|x l IH]; intros l' Hs.
  - injection Hs as <-. constructor.
  - cbn [List.map] in Hs. rewrite sequence_cons in Hs.
    destruct (g x) as [y|] eqn:Ex; [|discriminate].
    destruct (Json.sequence _) as [ys|]; [|discriminate].
    injection Hs as <-. constructor; [exact Ex | apply IH; reflexivity].
Qed.

Lemma sequence_items_Forall2 {A B} (g : A -> option B) (d : list (string * A)) :
  forall d',
    Json.sequence
      (List.map (fun kv => option_map (fun y => (fst kv, y)) (g (snd kv))) d)
    = Some d' ->
    Forall2 (fun kv kv' => fst kv' = fst kv /\ g (snd kv) = Some (snd kv')) d d'.
Proof.
  intros d' Hs. apply sequence_Some_Forall2 in Hs.
  induction Hs as [|[k x] [k' y] d d' Hxy Hd IH]; constructor; [|exact IH].
  cbn [fst snd] in *. destruct (g x); [|discriminate].
  injection Hxy as <- <-. split; reflexivity.
Qed.

(** *** Keys in order *)

Lemma keys_sorted_sort_keys v : keys_sorted (sort_keys v).
Proof.
  induction v as [| b | z | s | l IH | d IH | r] using pyval_nested_ind;
    cbn [sort_keys keys_sorted]; try exact I.
  - apply fold_right_and_Forall. apply List.Forall_map. exact IH.
  - split; [apply sorted_items_sorted|].
    apply (fold_right_and_Forall (fun kv => keys_sorted (snd kv))).
    rewrite sorted_items_perm. apply List.Forall_map. exact IH.
Qed.

(** *** Whitespace *)

Definition between (st : ws_state) : Prop :=
  match st with
  | WsInStr | WsInEsc => False
  | _ => True
  end.

(** A text that takes the scanner from between two tokens to the end of
    a value. *)
Definition ws_value (t : string) : Prop :=
  forall st x, between st -> ws_run false st (t ++ x) = ws_run false WsPlain x.

Lemma ws_escape_char c x :
  ws_run false WsInStr (Json.escape_char c ++ x) = ws_run false WsInStr x.
Proof.
  destruct c as [[|] [|] [|] [|] [|] [|] [|] [|]]; reflexivity.
Qed.

Lemma ws_escape s x :
  ws_run false WsInStr (Json.escape s ++ x) = ws_run false WsInStr x.
Proof.
  induction s as [|c s IH]; [reflexivity|].
  cbn [Json.escape]. rewrite append_assoc, ws_escape_char. exact IH.
Qed.

Lemma ws_string s : ws_value (Json.encode_basestring_ascii s).
Proof.
  intros st x Hst. unfold Json.encode_basestring_ascii, Json.str1.
  rewrite append_cons, append_assoc.
  transitivity (ws_run false WsInStr
                  (Json.escape s ++ String Json.dquote "" ++ x)).
  - destruct st; try contradiction; reflexivity.
  - rewrite ws_escape. reflexivity.
Qed.

Lemma ws_digits d : forall st x,
  between st ->
  ws_run false st (NilEmpty.string_of_uint d ++ x)
  = ws_run false match d with Decimal.Nil => st | _ => WsPlain end x.
Proof.
  induction d as [|d IH|d IH|d IH|d IH|d IH|d IH|d IH|d IH|d IH|d IH];
    intros st x Hst; [reflexivity|..];
    cbn [NilEmpty.string_of_uint]; rewrite append_cons;
    (transitivity (ws_run false WsPlain (NilEmpty.string_of_uint d ++ x));
     [destruct st; try contradiction; reflexivity|]);
    rewrite (IH WsPlain x I); destruct d; reflexivity.
Qed.

Lemma ws_int z : ws_value (Json.int_repr z).
Proof.
  intros st x Hst. unfold Json.int_repr. destruct z as [|p|p].
  - destruct st; try contradiction; reflexivity.
  - cbn [Z.to_int NilZero.string_of_int]. rewrite string_of_uint_head.
    rewrite (ws_digits _ st x Hst).
    pose proof (to_uint_head p) as Hh.
    destruct (Pos.to_uint p); try contradiction; reflexivity.
  - cbn [Z.to_int NilZero.string_of_int]. rewrite string_of_uint_head.
    rewrite append_cons.
    transitivity (ws_run false WsPlain
                    (NilEmpty.string_of_uint (Pos.to_uint p) ++ x)).
    + destruct st; try contradiction; reflexivity.
    + rewrite (ws_digits _ WsPlain x I).
      destruct (Pos.to_uint p); reflexivity.
Qed.

Lemma ws_join texts :
  Forall ws_value texts -> texts <> [] ->
  ws_value (Json.join ", " texts).
Proof.
  induction 1 as [|t texts Ht Hts IH]; intros Hne; [congruence|].
  destruct texts as [|t' texts'].
  - exact Ht.
  - intros st x Hst. rewrite join_cons2, !append_assoc, (Ht st _ Hst).
    change (", " ++ ?y) with (String "," (String " " y)).
    transitivity (ws_run false WsAfterSpace
                    (Json.join ", " (t' :: texts') ++ x)); [reflexivity|].
    apply IH; [discriminate | exact I].
Qed.

Lemma ws_member k t : ws_value t -> ws_value (member_text (k, t)).
Proof.
  intros Ht st x Hst. unfold member_text, Json.key_separator. cbn [fst snd].
  rewrite !append_assoc, (ws_string k st _ Hst).
  change (": " ++ ?y) with (String ":" (String " " y)).
  transitivity (ws_run false WsAfterSpace (t ++ x)); [reflexivity|].
  apply Ht. exact I.
Qed.

Lemma ws_dumps v : forall t,
  Json.dumps (fun _ => None) v = Some t -> ws_value t.
Proof.
  induction v as [| b | z | s | l IH | d IH | r] using pyval_nested_ind;
    intros t Ht.
  - injection Ht as <-. intros [] x Hst; try contradiction; reflexivity.
  - destruct b; injection Ht as <-;
      intros [] x Hst; try contradiction; reflexivity.
  - injection Ht as <-. apply ws_int.
  - injection Ht as <-. apply ws_string.
  - cbn [Json.dumps] in Ht.
    destruct (Json.sequence _) as [chunks|] eqn:Es; [|discriminate].
    injection Ht as <-. apply sequence_Some_Forall2 in Es.
    assert (Forall ws_value chunks) as Hc.
    { clear -IH Es. induction Es as [|x tx l chunks Hx Hl IHl]; [constructor|].
      inversion IH; subst. constructor; [auto | apply IHl; assumption]. }
    intros st x Hst. unfold Json.item_separator. norm_append.
    transitivity (ws_run false WsPlain (Json.join ", " chunks ++ String "]" x));
      [destruct st; try contradiction; reflexivity|].
    destruct chunks as [|c chunks]; [reflexivity|].
    rewrite (ws_join (c :: chunks) Hc ltac:(discriminate) WsPlain _ I).
    reflexivity.
  - cbn [Json.dumps] in Ht.
    destruct (Json.sequence _) as [items|] eqn:Es; [|discriminate].
    injection Ht as <-. apply sequence_Some_Forall2 in Es.
    assert (Forall (fun kt => ws_value (snd kt)) items) as Hc.
    { clear -IH Es. induction Es as [|[k x] kt d items Hx Hd IHd]; [constructor|].
      inversion IH; subst. cbn [fst snd] in *.
      destruct (Json.dumps _ x) as [tx|] eqn:Ex; [|discriminate].
      injection Hx as <-. constructor; [cbn [snd]; auto | apply IHd; assumption]. }
    rewrite <- (sorted_items_perm items) in Hc.
    intros st x Hst. unfold Json.item_separator. norm_append.
    change (fun kt : string * string =>
              Json.encode_basestring_ascii (fst kt) ++ Json.key_separator ++ snd kt)
      with member_text.
    transitivity (ws_run false WsPlain
                    (Json.join ", " (List.map member_text (Json.sorted_items items))
                     ++ String "}" x));
      [destruct st; try contradiction; reflexivity|].
    destruct (Json.sorted_items items) as [|it sits]; [reflexivity|].
    rewrite (ws_join (List.map member_text (it :: sits))); [reflexivity | | discriminate | exact I].
    apply List.Forall_map. eapply List.Forall_impl; [|exact Hc].
    intros [k t] Hkt. apply ws_member, Hkt.
  - discriminate.
Qed.

Lemma separator_spaces_only_dumps v t :
  Json.dumps (fun _ => None) v = Some t -> separator_spaces_only t = true.
Proof.
  intros Ht. unfold separator_spaces_only.
  pose proof (ws_dumps v t Ht WsPlain "" I) as Hw.
  rewrite append_nil_r in Hw. rewrite Hw. reflexivity.
Qed.

(** *** Well-formed values stay well-formed when futures are replaced *)

Section Subst_wf.
Variable tree : ref -> option pyval.
Hypothesis tree_wf : forall r x, tree r = Some x -> wf_val x.

Lemma subst_futures_wf v : forall v',
  wf_val v -> subst_futures tree v = Some v' -> wf_val v'.
Proof.
  induction v as [| b | z | s | l IH | d IH | r] using pyval_nested_ind;
    intros v' Hwf Hs; cbn [subst_futures] in Hs;
    try (injection Hs as <-; exact Hwf).
  - destruct (Json.sequence _) as [l'|] eqn:Es; [|discriminate].
    injection Hs as <-. apply sequence_Some_Forall2 in Es.
    cbn [wf_val] in *. apply fold_right_and_Forall in Hwf.
    apply fold_right_and_Forall.
    clear -IH Hwf Es. induction Es as [|x x' l l' Hx Hl IHl]; [constructor|].
    inversion IH; subst. inversion Hwf; subst.
    constructor; [eauto | apply IHl; assumption].
  - destruct (Json.sequence _) as [d'|] eqn:Es; [|discriminate].
    injection Hs as <-. apply sequence_items_Forall2 in Es.
    cbn [wf_val] in *. destruct Hwf as [Hnd Hwf].
    apply (fold_right_and_Forall (fun kv => wf_val (snd kv))) in Hwf.
    assert (List.map fst d' = List.map fst d) as Hkeys.
    { clear -Es. induction Es as [|kv kv' d d' [Hk _] Hd IHd]; [reflexivity|].
      cbn [List.map]. rewrite Hk, IHd. reflexivity. }
    split; [rewrite Hkeys; exact Hnd|].
    apply (fold_right_and_Forall (fun kv => wf_val (snd kv))).
    clear -IH Hwf Es. induction Es as [|kv kv' d d' [_ Hx] Hd IHd]; [constructor|].
    inversion IH; subst. inversion Hwf; subst.
    constructor; [eauto | apply IHd; assumption].
  - eapply tree_wf. exact Hs.
Qed.

End Subst_wf.

Lemma NoDup_singleton_key (k : string) : NoDup [k].
Proof. apply NoDup_singleton. Qed.

Lemma class_tree_wf h r x : class_tree h r = Some x -> wf_val x.
Proof.
  unfold class_tree. destruct (h !! r) as [f|]; [|discriminate].
  destruct (cls f); intros [= <-]; cbn [wf_val List.map fst snd List.fold_right];
    repeat split; apply NoDup_singleton_key.
Qed.

(** What holds of every text the engine hashes. *)
Definition canonical (t : string) : Prop :=
  separator_spaces_only t = true /\
  exists v, Json.loads t = Some v /\ keys_sorted v.

Lemma dumps_canonical v t :
  Json.dumps (fun _ => None) v = Some t -> wf_val v -> canonical t.
Proof.
  intros Ht Hwf. split; [eapply separator_spaces_only_dumps, Ht|].
  exists (sort_keys v). split; [apply loads_dumps; assumption|].
  apply keys_sorted_sort_keys.
Qed.

Lemma dumps_class_canonical h obj t :
  Json.dumps (class_default h) obj = Some t -> wf_val obj -> canonical t.
Proof.
  intros Ht Hwf.
  destruct (dumps_subst (class_default h) (class_tree h)
              (class_default_tree h) obj t Ht) as (v' & Hv' & Ht').
  apply (dumps_canonical v' t Ht').
  eapply subst_futures_wf; [apply class_tree_wf | exact Hwf | exact Hv'].
Qed.

Lemma wf_val_strs (l : list string) : wf_val (VList (List.map VStr l)).
Proof.
  cbn [wf_val]. apply fold_right_and_Forall, List.Forall_map.
  apply List.Forall_forall. intros; exact I.
Qed.




(* ===================================================================== *)
(** ** [Template.from_object] followed by [Template.substitute]           *)
(* ===================================================================== *)

(** *** The tape *)

Lemma tape_of_mono v : forall tape r, r ∈ tape -> r ∈ tape_of v tape.
Proof.
  induction v as [| b | z | s | l IH | d IH | x] using pyval_nested_ind;
    intros tape r Hr; cbn [tape_of]; try exact Hr.
  - revert tape Hr. induction IH as [|y l Hy Hl IHl]; intros tape Hr; [exact Hr|].
    cbn [List.fold_left]. apply IHl, Hy, Hr.
  - revert tape Hr. induction IH as [|y l Hy Hl IHl]; intros tape Hr; [exact Hr|].
    cbn [List.fold_left]. apply IHl, Hy, Hr.
  - apply elem_of_set_add, Hr.
Qed.

Lemma tape_fold_mono {A} (g : A -> pyval) (l : list A) : forall tape r,
  r ∈ tape -> r ∈ List.fold_left (fun t x => tape_of (g x) t) l tape.
Proof.
  induction l as [|y l IH]; intros tape r Hr; [exact Hr|].
  cbn [List.fold_left]. apply IH, tape_of_mono, Hr.
Qed.

Lemma futures_all_tape (P : ref -> Prop) v : forall tape,
  (forall r, r ∈ tape_of v tape -> P r) -> futures_all P v.
Proof.
  induction v as [| b | z | s | l IH | d IH | x] using pyval_nested_ind;
    intros tape HP; cbn [futures_all tape_of] in *; try exact I.
  - revert tape HP. induction IH as [|y l Hy Hl IHl]; intros tape HP; [exact I|].
    cbn [List.fold_left List.fold_right] in *. split.
    + apply (Hy tape). intros r Hr.
      apply HP, (tape_fold_mono (fun x => x)), Hr.
    + apply (IHl (tape_of y tape)), HP.
  - revert tape HP. induction IH as [|y l Hy Hl IHl]; intros tape HP; [exact I|].
    cbn [List.fold_left List.fold_right] in *. split.
    + apply (Hy tape). intros r Hr.
      apply HP, (tape_fold_mono snd), Hr.
    + apply (IHl (tape_of (snd y) tape)), HP.
  - apply HP, elem_of_set_add_new.
Qed.

(** [{fut.hashid: fut for fut in futures}] has an entry for the hashid of
    each of the futures, and the entry is one of them with that hashid. *)
Lemma futures_dict_lookup h (tape : list ref) r f :
  r ∈ tape -> h !! r = Some f ->
  exists r' f',
    r' ∈ tape /\ h !! r' = Some f' /\ _hashid f' = _hashid f /\
    futures_dict h tape !! _hashid f = Some r'.
Proof.
  unfold futures_dict. intros Hr Hf.
  induction tape as [|x tape IH] using rev_ind; [inversion Hr|].
  rewrite List.fold_left_app. cbn [List.fold_left].
  destruct (h !! x) as [fx|] eqn:Ex.
  - destruct (decide (_hashid fx = _hashid f)) as [He|Hne].
    + exists x, fx. rewrite <- He, lookup_insert_eq.
      repeat split; auto. apply elem_of_app. right.
      apply list_elem_of_singleton. reflexivity.
    + rewrite lookup_insert_ne by exact Hne.
      apply elem_of_app in Hr as [Hr|Hr].
      * destruct (IH Hr) as (r' & f' & Hr' & Hf' & Hh & Hl).
        exists r', f'. repeat split; auto. apply elem_of_app. left. exact Hr'.
      * apply list_elem_of_singleton in Hr. subst x. congruence.
  - apply elem_of_app in Hr as [Hr|Hr].
    + destruct (IH Hr) as (r' & f' & Hr' & Hf' & Hh & Hl).
      exists r', f'. repeat split; auto. apply elem_of_app. left. exact Hr'.
    + apply list_elem_of_singleton in Hr. subst x. congruence.
Qed.

(** *** Sequences of results, sorted items *)

Lemma res_sequence_Forall2 {A B} (g : A -> res B) l1 l2 :
  Forall2 (fun a b => g a = Val b) l1 l2 ->
  res_sequence (List.map g l1) = Val l2.
Proof.
  induction 1 as [|a b l1 l2 Hab Hl IH]; [reflexivity|].
  cbn [List.map res_sequence]. rewrite Hab, IH. reflexivity.
Qed.

Section Sorted_Forall2.
Context {A B : Type} (Q : string * A -> string * B -> Prop).
Hypothesis Q_keys : forall a b, Q a b -> fst a = fst b.

Lemma insert_item_Forall2 k v1 v2 l1 l2 :
  Q (k, v1) (k, v2) -> Forall2 Q l1 l2 ->
  Forall2 Q (Json.insert_item k v1 l1) (Json.insert_item k v2 l2).
Proof.
  intros Hk. induction 1 as [|[k1 a] [k2 b] l1 l2 Hab Hl IH];
    cbn [Json.insert_item].
  - repeat constructor. exact Hk.
  - pose proof (Q_keys _ _ Hab) as Hkk. cbn [fst] in Hkk. subst k2.
    destruct (String.leb k k1).
    + constructor; [exact Hk|]. constructor; assumption.
    + constructor; assumption.
Qed.

Lemma sorted_items_Forall2 l1 l2 :
  Forall2 Q l1 l2 -> Forall2 Q (Json.sorted_items l1) (Json.sorted_items l2).
Proof.
  induction 1 as [|[k1 a] [k2 b] l1 l2 Hab Hl IH]; [constructor|].
  cbn [Json.sorted_items].
  pose proof (Q_keys _ _ Hab) as Hkk. cbn [fst] in Hkk. subst k2.
  apply insert_item_Forall2; assumption.
Qed.

End Sorted_Forall2.

Lemma sorted_items_singleton {A} (l : list (string * A)) x :
  Json.sorted_items l = [x] -> l = [x].
Proof.
  intros Hs. pose proof (sorted_items_perm l) as Hp. rewrite Hs in Hp.
  apply Permutation_singleton_l in Hp. symmetry. exact Hp.
Qed.

(** *** Decoding the text of a value *)

Section Decode.
Variable tree : ref -> option pyval.
Variable futures : gmap string ref.
Variable result_of : ref -> res pyval.
Variable result : ref -> option pyval.

Local Abbreviation classes :=
  (fun tag : string =>
     if String.eqb tag "Task" || String.eqb tag "Indexor"
     then Some (future_decoder futures result_of)
     else None).

(** What the encoder writes for [r] is a tagged object whose hashid leads
    the decoder to a future with the result of [r]. *)
Definition linked (r : ref) : Prop :=
  forall t e,
    tree r = Some t -> result r = Some e ->
    exists tag hid r',
      is_class_tag tag = true /\
      t = VDict [(tag, VDict [("hashid", VStr hid)])] /\
      futures !! hid = Some r' /\
      result_of r' = Val e.

Definition decodes (v : pyval) : Prop :=
  untagged v -> futures_all linked v ->
  forall v' expected,
    subst_futures tree v = Some v' ->
    subst_futures result v = Some expected ->
    exists out,
      decode_classes classes (sort_keys v') = Val out /\ py_eq out expected.

Lemma decodes_tagged tag hid r' e :
  is_class_tag tag = true ->
  futures !! hid = Some r' ->
  result_of r' = Val e ->
  decode_classes classes (sort_keys (VDict [(tag, VDict [("hashid", VStr hid)])]))
  = Val e.
Proof.
  intros Htag Hf Hr. unfold is_class_tag in Htag.
  cbn [sort_keys List.map fst snd Json.sorted_items Json.insert_item].
  cbn [decode_classes List.map res_sequence res_bind fst snd].
  change (String.eqb "hashid" "Task" || String.eqb "hashid" "Indexor") with false.
  cbv iota. cbn [res_bind]. rewrite Htag.
  unfold future_decoder. cbn. rewrite Hf. exact Hr.
Qed.

Lemma decodes_list l :
  Forall decodes l ->
  Forall untagged l -> Forall (futures_all linked) l ->
  forall l' le,
    Forall2 (fun x x' => subst_futures tree x = Some x') l l' ->
    Forall2 (fun x e => subst_futures result x = Some e) l le ->
    exists outs,
      res_sequence (List.map (decode_classes classes) (List.map sort_keys l'))
      = Val outs /\
      Forall2 py_eq outs le.
Proof.
  induction 1 as [|x l Hx Hl IH]; intros Hu Hf l' le Hl' Hle.
  - inversion Hl'; subst. inversion Hle; subst. exists []. split; constructor.
  - inversion Hl' as [|? x' ? l1' Hx' Hl1']; subst.
    inversion Hle as [|? e ? le1 He Hle1]; subst.
    inversion Hu; subst. inversion Hf; subst.
    destruct (Hx ltac:(assumption) ltac:(assumption) x' e Hx' He)
      as (out & Hout & Heq).
    destruct (IH ltac:(assumption) ltac:(assumption) l1' le1 Hl1' Hle1)
      as (outs & Houts & Heqs).
    exists (out :: outs). cbn [List.map res_sequence].
    rewrite Hout, Houts. split; [reflexivity|]. constructor; assumption.
Qed.

Lemma decodes_items d :
  Forall (fun kv => decodes (snd kv)) d ->
  Forall (fun kv => untagged (snd kv)) d ->
  Forall (fun kv => futures_all linked (snd kv)) d ->
  forall d' de,
    Forall2 (fun kv kv' => fst kv' = fst kv /\
                           subst_futures tree (snd kv) = Some (snd kv')) d d' ->
    Forall2 (fun kv ke => fst ke = fst kv /\
                          subst_futures result (snd kv) = Some (snd ke)) d de ->
    exists mid,
      Forall2 (fun a ko : string * pyval =>
                 fst a = fst ko /\ decode_classes classes (snd a) = Val (snd ko))
              (List.map (fun kv => (fst kv, sort_keys (snd kv))) d') mid /\
      Forall2 (fun ko ke : string * pyval =>
                 fst ko = fst ke /\ py_eq (snd ko) (snd ke)) mid de /\
      List.map fst mid = List.map fst d.
Proof.
  induction 1 as [|[k x] d Hx Hd IH]; intros Hu Hf d' de Hd' Hde.
  - inversion Hd'; subst. inversion Hde; subst. exists [].
    repeat split; constructor.
  - inversion Hd' as [|? [k' x'] ? d1' [Hk' Hx'] Hd1']; subst.
    inversion Hde as [|? [ke e] ? de1 [Hke He] Hde1]; subst.
    inversion Hu; subst. inversion Hf; subst. cbn [fst snd] in *. subst.
    destruct (Hx ltac:(assumption) ltac:(assumption) x' e Hx' He)
      as (out & Hout & Heq).
    destruct (IH ltac:(assumption) ltac:(assumption) d1' de1 Hd1' Hde1)
      as (mid & Hmid & Heqs & Hkeys).
    exists ((k, out) :: mid). cbn [List.map fst snd]. split; [|split].
    + constructor; [split; [reflexivity | exact Hout] | exact Hmid].
    + constructor; [split; [reflexivity | exact Heq] | exact Heqs].
    + rewrite Hkeys. reflexivity.
Qed.

Lemma decodes_all v : decodes v.
Proof.
  induction v as [| b | z | s | l IH | d IH | r] using pyval_nested_ind;
    intros Hu Hf v' expected Hv' He; cbn [subst_futures] in Hv', He;
    try (injection Hv' as <-; injection He as <-;
         eexists; split; [reflexivity | apply py_eq_refl]).
  - destruct (Json.sequence _) as [l'|] eqn:El'; [|discriminate].
    injection Hv' as <-.
    destruct (Json.sequence (List.map (subst_futures result) l)) as [le|] eqn:Ele;
      [|discriminate].
    injection He as <-.
    apply sequence_Some_Forall2 in El', Ele.
    cbn [untagged futures_all] in Hu, Hf.
    apply fold_right_and_Forall in Hu, Hf.
    destruct (decodes_list l IH Hu Hf l' le El' Ele) as (outs & Houts & Heq).
    exists (VList outs). cbn [sort_keys decode_classes]. rewrite Houts.
    split; [reflexivity|]. apply py_eq_list, Heq.
  - destruct (Json.sequence _) as [d'|] eqn:Ed'; [|discriminate].
    injection Hv' as <-.
    destruct (Json.sequence
                (List.map (fun kv => option_map (fun y => (fst kv, y))
                                       (subst_futures result (snd kv))) d))
      as [de|] eqn:Ede; [|discriminate].
    injection He as <-.
    apply sequence_items_Forall2 in Ed', Ede.
    cbn [untagged futures_all] in Hu, Hf. destruct Hu as [Htag Hu].
    apply (fold_right_and_Forall (fun kv => untagged (snd kv))) in Hu.
    apply (fold_right_and_Forall (fun kv => futures_all linked (snd kv))) in Hf.
    destruct (decodes_items d IH Hu Hf d' de Ed' Ede) as (mid & Hmid & Heq & Hkeys).
    apply sorted_items_Forall2 in Hmid; [|intros a b [Hab _]; exact Hab].
    exists (VDict (Json.sorted_items mid)). split.
    + cbn [sort_keys decode_classes].
      rewrite (res_sequence_Forall2 _ _ (Json.sorted_items mid)).
      * cbn [res_bind].
        destruct (Json.sorted_items mid) as [|[tag payload] [|y ys]] eqn:Es;
          try reflexivity.
        apply sorted_items_singleton in Es. subst mid.
        destruct d as [|[k x] [|kv2 d2]]; try discriminate.
        injection Hkeys as <-. unfold is_class_tag in Htag. rewrite Htag.
        reflexivity.
      * eapply Forall2_impl; [exact Hmid|].
        intros [k a] [k' o] [Hk Ho]. cbn [fst snd] in *. subst k'.
        rewrite Ho. reflexivity.
    + eapply py_eq_dict; [apply sorted_items_perm | exact Heq].
  - destruct (Hf v' expected Hv' He) as (tag & hid & r' & Htag & -> & Hfut & Hres).
    exists expected. split; [|apply py_eq_refl].
    apply (decodes_tagged tag hid r'); assumption.
Qed.

End Decode.

(** *** The round trip *)

Lemma ext_hashid w w' r f f' :
  ext w w' -> heap w !! r = Some f -> heap w' !! r = Some f' ->
  _hashid f' = _hashid f.
Proof.
  intros He Hf Hf'. destruct (He r f Hf) as (f1 & Hf1 & (Hh & _) & _).
  congruence.
Qed.

Lemma ext_template w w' r f jsonstr futures :
  ext w w' -> heap w !! r = Some f -> cls f = IsTemplate jsonstr futures ->
  exists f', heap w' !! r = Some f' /\ cls f' = IsTemplate jsonstr futures.
Proof.
  intros He Hf Hc. destruct (He r f Hf) as (f' & Hf' & (_ & Hfr) & _).
  exists f'. split; [exact Hf'|]. rewrite Hc in Hfr.
  destruct (cls f'); try contradiction. destruct Hfr as [-> ->]. reflexivity.
Qed.

Lemma class_tree_Some h r t :
  class_tree h r = Some t ->
  exists f tag,
    h !! r = Some f /\ is_class_tag tag = true /\
    t = VDict [(tag, VDict [("hashid", VStr (_hashid f))])].
Proof.
  unfold class_tree. destruct (h !! r) as [f|]; [|discriminate].
  destruct (cls f); intros [= <-].
  - exists f, "Indexor". repeat split.
  - exists f, "Task". repeat split.
Qed.


Lemma not_py_eq_ints (a b c d : Z) :
  a <> c -> ~ py_eq (VList [VInt a; VInt b]) (VList [VInt c; VInt d]).
Proof.
  intros Hac Hp. inversion Hp as [| l1 l2 Hl |]; subst; [congruence|].
  inversion Hl as [|x y l1' l2' Hxy Hl']; subst.
  inversion Hxy; subst. congruence.
Qed.


(** A dictionary of the shape of an encoded task is read back as one:
    the decoder looks its hashid up among the futures of the template and
    raises [KeyError], already in the [substitute] that [from_object] runs
    on a template whose futures are all done. *)
Lemma from_object_rejects_lookalike :
  Template_from_object (H := demo_hashlib) (SO := insertion_order)
    2 task_lookalike empty_world
  = Raise KeyError after_lookalike /\
  with_results (heap after_lookalike) task_lookalike = Some task_lookalike /\
  Template_substitute 0 after_lookalike = Exc KeyError.
Proof.
  split; [vm_compute; reflexivity|].
  split; vm_compute; reflexivity.
Qed.


(* ===================================================================== *)
(** ** [Session.eval] on a rule that returns a task that has run          *)
(* ===================================================================== *)

(** C5: [eval(f(g()))], where [g()] returns [1] and [f(x)] returns
    [g()], has two tasks and no dependency cycle, and both rules return.
    [eval] runs the task of [g] (object 0), then the task of [f]
    (object 1), whose body gets back the task of [g] from the session;
    [run_task] asserts that the future a rule returns is not done, and
    [eval] ends with [AssertionError], the task of [f] without a result.
    With a rule [f] that returns a plain value, [eval] returns it. *)
Theorem eval_of_rule_returning_done_task :
  (exists w,
      eval_chain 10 empty_world = Raise AssertionError w /\
      result_in (heap w) 0 = Some (VInt 1) /\
      result_in (heap w) 1 = None /\
      option_map (fun s => size (_tasks s)) (sessions w !! 0%nat) = Some 2%nat) /\
  (exists w, eval_plain 10 empty_world = Ok (VInt 2) w).
Proof.
  split.
  - eexists. split; [vm_compute; reflexivity|].
    split; [vm_compute; reflexivity|].
    split; vm_compute; reflexivity.
  - eexists. vm_compute. reflexivity.
Qed.

(* ===================================================================== *)
(** ** More on the future kernel: [set_result], [register]                *)
(* ===================================================================== *)

Local Close Scope string_scope.

(** X1: [set_result] on a future that is not ready, or that already has a
    result, fails its assertion before it writes anything: the call raises
    [AssertionError] and the store is as it was.  A result is written at
    most once. *)
Theorem set_result_rejects_unready_and_done
  (fuel : nat) (self : ref) (f : future) (result : pyval) (w : world) :
  heap w !! self = Some f ->
  Future_ready f = false \/ Future_done f = true ->
  set_result (S fuel) self result w = Raise AssertionError w.
Proof.
  intros Hf Hc. cbn [set_result].
  assert (Future_set_result (set_result fuel) self result w
          = Raise AssertionError w) as Hset.
  { unfold Future_set_result. rewrite (bind_get _ _ _ _ Hf).
    destruct (Future_ready f) eqn:Hr, (Future_done f) eqn:Hd;
      try reflexivity.
    destruct Hc; discriminate. }
  unfold bind at 1. rewrite Hset. reflexivity.
Qed.

Lemma set_result_rejects_unready_and_done_witness :
  set_result 1 0 (VInt 7) unwired_after = Raise AssertionError unwired_after /\
  set_result 1 1 (VInt 7) unwired_after = Raise AssertionError unwired_after.
Proof.
  split.
  - eapply (set_result_rejects_unready_and_done 0 0);
      [vm_compute; reflexivity | right; reflexivity].
  - eapply (set_result_rejects_unready_and_done 0 1);
      [vm_compute; reflexivity | left; reflexivity].
Defined.

(** X2: [register] on a future that is registered returns [False] and
    changes nothing, for the three classes (a template does not register
    its pending futures again). *)
Theorem register_again_is_noop (fuel : nat) (self : ref) (f : future) (w : world) :
  heap w !! self = Some f ->
  _registered f = true ->
  register (S fuel) self w = Ok false w.
Proof.
  intros Hf Hreg. cbn [register]. rewrite (bind_get _ _ _ _ Hf).
  assert (Future_register self w = Ok false w) as Hr.
  { unfold Future_register. rewrite (bind_get _ _ _ _ Hf), Hreg. reflexivity. }
  destruct (cls f); try exact Hr.
  rewrite (bind_eq _ _ _ _ _ Hr). reflexivity.
Qed.

Lemma register_again_is_noop_witness :
  register 1 1 after_first_call = Ok false after_first_call.
Proof.
  eapply (register_again_is_noop 0 1); vm_compute; reflexivity.
Defined.

Lemma child_of_ext self p w w' : ext w w' -> child_of self p w -> child_of self p w'.
Proof.
  intros He (pf & Hp & Hc). destruct (He p pf Hp) as (pf' & Hp' & _ & _ & _ & Hch).
  exists pf'. split; [exact Hp' | apply Hch, Hc].
Qed.

Lemma Future_add_child_Ok p self w u w' :
  Future_add_child p self w = Ok u w' ->
  child_of self p w' /\ forall q, child_of self q w -> child_of self q w'.
Proof.
  unfold Future_add_child. intros Hu.
  apply update_Ok in Hu as (pf & Hp & ->). split.
  - eexists. split; [eapply put_lookup_eq; exact Hp|].
    cbn. apply elem_of_set_add_new.
  - intros q (qf & Hq & Hc). destruct (decide (q = p)) as [->|Hne].
    + eexists. split; [eapply put_lookup_eq; exact Hp|].
      cbn. apply elem_of_set_add. congruence.
    + exists qf. split; [|exact Hc].
      rewrite put_lookup_ne by congruence. exact Hq.
Qed.

Lemma add_child_loop_Ok self (l : list ref) : forall w u w',
  for_each l (fun fut => Future_add_child fut self) w = Ok u w' ->
  (forall p, p ∈ l -> child_of self p w') /\
  (forall q, child_of self q w -> child_of self q w').
Proof.
  induction l as [|p l IH]; intros w u w' Hl; cbn [for_each] in Hl.
  - apply ret_Ok in Hl as [_ ->]. split; [|auto].
    intros p Hp. inversion Hp.
  - inv_bind Hl as u1 w1 Hp Hl.
    apply Future_add_child_Ok in Hp as [Hp Hkeep].
    destruct (IH _ _ _ Hl) as [Hall Hkeep'].
    split; [|auto].
    intros q Hq. apply elem_of_cons in Hq as [->|Hq]; [apply Hkeep', Hp | apply Hall, Hq].
Qed.

Lemma Future_register_wires self f w b w' :
  heap w !! self = Some f -> _registered f = false ->
  Future_register self w = Ok b w' ->
  b = true /\ forall p, p ∈ _pending f -> child_of self p w'.
Proof.
  intros Hf Hreg Hr. unfold Future_register in Hr.
  rewrite (bind_get _ _ _ _ Hf), Hreg in Hr. cbn [negb] in Hr.
  rewrite (bind_update _ _ _ _ _ Hf) in Hr.
  inv_bind Hr as u w1 Hl Hr. apply ret_Ok in Hr as [-> ->].
  split; [reflexivity|]. apply add_child_loop_Ok in Hl as [Hall _]. exact Hall.
Qed.

(** X3: the first [register] of a future returns [True], sets
    [_registered], and adds the future to the children of each of its
    pending parents, so that their completion reaches it. *)
Theorem register_wires_pending_parents
  (fuel : nat) (self : ref) (f : future) (w w' : world) (b : bool) :
  heap w !! self = Some f ->
  _registered f = false ->
  register fuel self w = Ok b w' ->
  b = true /\
  (exists f', heap w' !! self = Some f' /\ _registered f' = true) /\
  (forall p, p ∈ _pending f -> child_of self p w').
Proof.
  intros Hf Hreg Hr. destruct fuel as [|n]; [discriminate|].
  cbn [register] in Hr. rewrite (bind_get _ _ _ _ Hf) in Hr.
  assert (forall b1 w1, Future_register self w = Ok b1 w1 ->
            b1 = true /\
            (exists f', heap w1 !! self = Some f' /\ _registered f' = true) /\
            (forall p, p ∈ _pending f -> child_of self p w1)) as Hcore.
  { intros b1 w1 H1.
    destruct (Future_register_wires _ _ _ _ _ Hf Hreg H1) as [-> Hch].
    split; [reflexivity|]. split; [|exact Hch].
    eapply Future_register_sets_flag; exact H1. }
  destruct (cls f); try (apply Hcore; exact Hr).
  inv_bind Hr as wired w1 H1 Hr.
  destruct (Hcore _ _ H1) as (-> & (f1 & Hf1 & Hreg1) & Hch).
  inv_bind Hr as f1' w1' Hg Hr. apply get_Ok in Hg as [-> _].
  inv_bind Hr as u w2 Hl Hr. apply ret_Ok in Hr as [-> ->].
  assert (hsteps w1 w2) as Hs.
  { eapply (within_for_each hsteps); [apply rtc_refl | apply hsteps_trans | |
                                      eapply Ok_final; exact Hl].
    intros x v _ _. apply (within_bind hsteps hsteps_trans);
      [apply register_hsteps | intros; apply within_ret; intros; apply rtc_refl]. }
  apply ext_hsteps in Hs. split; [reflexivity|]. split.
  - destruct (Hs self f1 Hf1) as (f2 & Hf2 & _ & _ & Hr2 & _).
    exists f2. split; [exact Hf2 | apply Hr2, Hreg1].
  - intros p Hp. eapply child_of_ext; [exact Hs | apply Hch, Hp].
Qed.

Lemma register_wires_pending_parents_witness :
  true = true /\
  (exists f', heap wired_world !! 1%nat = Some f' /\ _registered f' = true) /\
  (forall p, p ∈ [0%nat] -> child_of 1 p wired_world).
Proof.
  apply (register_wires_pending_parents 1 1 (new_indexor task_record 0 [KStr "a"])
           unwired_before wired_world true);
    vm_compute; reflexivity.
Defined.

(* ===================================================================== *)
(** ** More on [Session] and [Rule]                                       *)
(* ===================================================================== *)

(** X4: a rule called while no session is active raises
    [NoActiveSession]; no task is built and the store is as it was. *)
Theorem Rule_call_without_session `{Hashlib} `{SO : SetOrder}
  (fuel : nat) (rule : Rule) (args : list pyval) (w : world) :
  _active w = None ->
  Rule_call fuel rule args w = Raise NoActiveSession w.
Proof.
  intros Ha. unfold Rule_call, bind, Session_active. rewrite Ha. reflexivity.
Qed.

Lemma Rule_call_without_session_witness :
  Rule_call (H := demo_hashlib) (SO := insertion_order) 2 setup_rule [VInt 1] task_world
  = Raise NoActiveSession task_world.
Proof. apply Rule_call_without_session. reflexivity. Defined.

(** X5: [__exit__] leaves no session active and empties the task table
    of the session: afterwards [Session.active()] raises
    [NoActiveSession], no future is [in] the session, and a session can
    be entered again.  The futures themselves stay as they are. *)
Theorem Session_exit_forgets_tasks (self : nat) (s : session) (w : world) :
  sessions w !! self = Some s ->
  exists w',
    Session_exit self w = Ok tt w' /\
    heap w' = heap w /\
    Session_active w' = Raise NoActiveSession w' /\
    (forall t f, heap w !! t = Some f ->
                 Session_contains self t w' = Ok false w') /\
    (forall other, exists w'', Session_enter other w' = Ok other w'').
Proof.
  intros Hs.
  exists (set_sessions (<[self := with_tasks ∅ s]> (sessions w)) (set_active None w)).
  split; [|split; [|split; [|split]]].
  - unfold Session_exit, bind, update_session. cbn. rewrite Hs. reflexivity.
  - reflexivity.
  - reflexivity.
  - intros t f Hf. unfold Session_contains.
    erewrite bind_eq.
    2:{ unfold get_session. cbn [sessions set_sessions].
        rewrite list_lookup_insert_eq by (eapply lookup_lt_Some; exact Hs).
        reflexivity. }
    erewrite bind_get by exact Hf.
    cbn [with_tasks _tasks]. rewrite lookup_empty. reflexivity.
  - intros other. eexists. reflexivity.
Qed.

Lemma Session_exit_forgets_tasks_witness :
  exists w',
    Session_exit 0 after_first_call = Ok tt w' /\
    heap w' = heap after_first_call /\
    Session_active w' = Raise NoActiveSession w' /\
    (forall t f, heap after_first_call !! t = Some f ->
                 Session_contains 0 t w' = Ok false w') /\
    (forall other, exists w'', Session_enter other w' = Ok other w'').
Proof.
  eapply (Session_exit_forgets_tasks 0). vm_compute. reflexivity.
Defined.

(** What a call of [create_task] that returns went through. *)
Lemma Session_create_task_inv `{Hashlib} `{SO : SetOrder} fuel self func args default label w t w' :
  Session_create_task fuel self func args default label w = Ok t w' ->
  exists cand w1 cf s wt u,
    Task_init fuel func args default label w = Ok cand w1 /\
    heap w1 !! cand = Some cf /\
    sessions w !! self = Some s /\ sessions w1 = sessions w /\
    tape_record self t w1 = Ok u wt /\
    ((_tasks s !! _hashid cf = Some t /\ w' = wt) \/
     (_tasks s !! _hashid cf = None /\ t = cand /\
      exists wr b,
        hsteps wt wr /\
        (exists wv, hsteps wt wv /\ register fuel cand wv = Ok b wr) /\
        w' = set_sessions
               (<[self := with_tasks (<[_hashid cf := cand]> (_tasks s)) s]>
                  (sessions wr)) wr)).
Proof.
  unfold Session_create_task. intros Hc.
  inv_bind Hc as cand w1 Hinit Hc.
  assert (csteps w w1) as H01
    by (eapply Task_init_csteps, Ok_final; exact Hinit).
  inv_bind Hc as cf w1' Hcf Hc. apply get_Ok in Hcf as [-> Hcf].
  inv_bind Hc as s w1' Hs Hc. apply get_session_Ok in Hs as [-> Hs].
  destruct (csteps_sessions _ _ H01) as [Hs1 _].
  destruct (_tasks s !! _hashid cf) as [known|] eqn:Hlook.
  - inv_bind Hc as u wt Ht Hc. apply ret_Ok in Hc as [-> ->].
    exists cand, w1, cf, s, wt, u. rewrite <- Hs1.
    repeat split; try assumption. left. split; [exact Hlook | reflexivity].
  - inv_bind Hc as u wt Ht Hc.
    inv_bind Hc as u' wv Hv Hc.
    assert (hsteps wt wv) as Htv.
    { destruct (cls cf); try discriminate.
      eapply create_task_validation_hsteps, Ok_final; exact Hv. }
    inv_bind Hc as b wr Hr Hc.
    assert (hsteps wv wr) as Hvr
      by (eapply register_hsteps, Ok_final; exact Hr).
    inv_bind Hc as u'' wu Hu Hc. apply update_session_Ok in Hu as (s' & Hs' & ->).
    apply ret_Ok in Hc as [-> ->].
    destruct (tape_record_Ok _ _ _ _ _ _ Ht Hs) as (_ & Hst & _).
    assert (sessions wr = sessions w1) as Hsr.
    { destruct (csteps_sessions wt wr) as [E _];
        [apply hsteps_csteps; eapply hsteps_trans; eassumption|].
      congruence. }
    rewrite Hsr in Hs'. assert (s' = s) as -> by congruence.
    exists cand, w1, cf, s, wt, u. rewrite <- Hs1.
    repeat split; try assumption. right.
    split; [exact Hlook|]. split; [reflexivity|].
    exists wr, b. split; [eapply hsteps_trans; eassumption|].
    split; [exists wv; split; assumption | reflexivity].
Qed.

(** X6: when a tape is set, [create_task] appends the task it returns to
    it, whether the task is new or the one the session already had under
    that hashid; nothing else is written to the tape. *)
Theorem create_task_appends_to_tape `{Hashlib} `{SO : SetOrder}
  (fuel self : nat) (func : pyfunc) (args : list pyval)
  (default : option pyval) (label : option string) (w w' : world) (t : ref)
  (s : session) (tape : nat) (l : list ref) :
  Session_create_task fuel self func args default label w = Ok t w' ->
  sessions w !! self = Some s ->
  _task_tape s = Some tape ->
  lists w !! tape = Some l ->
  lists w' !! tape = Some (l ++ [t])%list.
Proof.
  intros Hc Hs Htape Hl.
  apply Session_create_task_inv in Hc
    as (cand & w1 & cf & s0 & wt & u & Hinit & Hcf & Hs0 & Hs1 & Ht & Hcase).
  assert (s0 = s) as -> by congruence.
  pose proof (Task_init_lookup _ _ _ _ _ _ _ _ Hinit) as (_ & _ & _ & _ & Hlists).
  rewrite <- Hs1 in Hs0.
  destruct (tape_record_Ok _ _ _ _ _ _ Ht Hs0) as (_ & _ & Hrec).
  rewrite Htape in Hrec. destruct Hrec as (l1 & Hl1 & Hlt).
  rewrite Hlists, (lookup_app_l_Some _ _ _ _ Hl) in Hl1. injection Hl1 as <-.
  assert (lists wt !! tape = Some (l ++ [t])%list) as Hgoal.
  { rewrite Hlt. apply list_lookup_insert_eq. rewrite Hlists, length_app.
    apply lookup_lt_Some in Hl. lia. }
  destruct Hcase as [[_ ->] | (_ & _ & wr & b & Htr & _ & ->)]; [exact Hgoal|].
  cbn. rewrite (hsteps_lists _ _ Htr). exact Hgoal.
Qed.

Lemma create_task_appends_to_tape_witness :
  lists after_taped_call !! 0%nat = Some ([] ++ [1%nat])%list.
Proof.
  eapply (create_task_appends_to_tape (H := demo_hashlib) (SO := insertion_order) 2 0 setup_func [VInt 1]
            None None taped_call_world after_taped_call 1);
    vm_compute; reflexivity.
Defined.

(** *** The task table *)

Lemma ext_is_task w w' r f f' :
  ext w w' -> heap w !! r = Some f -> heap w' !! r = Some f' ->
  is_task f' = is_task f.
Proof.
  intros He Hf Hf'. destruct (He r f Hf) as (f1 & Hf1 & (_ & Hc) & _).
  assert (f1 = f') as -> by congruence. unfold is_task.
  destruct (cls f), (cls f'); try contradiction; reflexivity.
Qed.

Lemma table_keyed_ext w w' :
  table_keyed_by_hashid w -> ext w w' -> sessions w' = sessions w ->
  table_keyed_by_hashid w'.
Proof.
  intros Ht He Hs i s hid t Hi Hl. rewrite Hs in Hi.
  destruct (Ht i s hid t Hi Hl) as (f & Hf & Hh & Htask & Hreg).
  destruct (He t f Hf) as (f' & Hf' & (Hh' & _) & _ & Hreg' & _).
  exists f'. split; [exact Hf'|]. split; [congruence|]. split; [|auto].
  rewrite (ext_is_task _ _ _ _ _ He Hf Hf'). exact Htask.
Qed.

Lemma table_keyed_csteps w w' :
  table_keyed_by_hashid w -> csteps w w' -> table_keyed_by_hashid w'.
Proof.
  intros Ht Hc. eapply table_keyed_ext; [exact Ht | apply ext_csteps, Hc|].
  apply csteps_sessions, Hc.
Qed.

Lemma register_sets_flag fuel self w b w' :
  register fuel self w = Ok b w' ->
  exists f', heap w' !! self = Some f' /\ _registered f' = true.
Proof.
  destruct fuel as [|n]; [discriminate|]. cbn [register]. intros Hr.
  inv_bind Hr as f w0 Hf Hr. apply get_Ok in Hf as [-> Hf].
  destruct (cls f); try (eapply Future_register_sets_flag; exact Hr).
  inv_bind Hr as wired w1 H1 Hr.
  apply Future_register_sets_flag in H1 as (f1 & Hf1 & Hreg1).
  destruct wired.
  - inv_bind Hr as f1' w1' Hg Hr. apply get_Ok in Hg as [-> _].
    inv_bind Hr as u w2 Hl Hr. apply ret_Ok in Hr as [-> ->].
    assert (hsteps w1 w2) as Hs.
    { eapply (within_for_each hsteps); [apply rtc_refl | apply hsteps_trans | |
                                        eapply Ok_final; exact Hl].
      intros x v _ _. apply (within_bind hsteps hsteps_trans);
        [apply register_hsteps | intros; apply within_ret; intros; apply rtc_refl]. }
    destruct (ext_hsteps _ _ Hs self f1 Hf1) as (f2 & Hf2 & _ & _ & Hr2 & _).
    exists f2. split; [exact Hf2 | apply Hr2, Hreg1].
  - apply ret_Ok in Hr as [-> ->]. exists f1. split; assumption.
Qed.

(** [create_task] keeps the task table well keyed, whether it returns
    or raises. *)
Lemma Session_create_task_table `{Hashlib} `{SO : SetOrder}
  (fuel self : nat) (func : pyfunc) (args : list pyval)
  (default : option pyval) (label : option string) (w w' : world) :
  table_keyed_by_hashid w ->
  final (Session_create_task fuel self func args default label w) = Some w' ->
  table_keyed_by_hashid w'.
Proof.
  intros Htab Hfin.
  destruct (Session_create_task fuel self func args default label w)
    as [t w0|e w0|] eqn:Hc; try discriminate; injection Hfin as ->.
  2:{ eapply table_keyed_csteps; [exact Htab|].
      eapply Session_create_task_Raise; exact Hc. }
  apply Session_create_task_inv in Hc
    as (cand & w1 & cf & s & wt & u & Hinit & Hcf & Hs & Hs1 & Ht & Hcase).
  assert (csteps w w1) as H01
    by (eapply Task_init_csteps, Ok_final; exact Hinit).
  assert (csteps w1 wt) as H1t
    by (eapply tape_record_csteps, Ok_final; exact Ht).
  destruct Hcase as [[_ ->] | (Hnone & -> & wr & b & Htr & (wv & _ & Hreg) & ->)].
  { eapply table_keyed_csteps; [exact Htab|]. eapply csteps_trans; eassumption. }
  assert (csteps w wr) as H0r.
  { eapply csteps_trans; [exact H01|]. eapply csteps_trans; [exact H1t|].
    apply hsteps_csteps, Htr. }
  pose proof (table_keyed_csteps _ _ Htab H0r) as Htabr.
  destruct (csteps_sessions _ _ H0r) as [Hsr _].
  assert (sessions wr !! self = Some s) as Hsr' by (rewrite Hsr; exact Hs).
  intros i s' hid t Hi Hl. cbn [sessions set_sessions heap] in *.
  destruct (decide (i = self)) as [->|Hne].
  - rewrite list_lookup_insert_eq in Hi by (eapply lookup_lt_Some; exact Hsr').
    injection Hi as <-. cbn [_tasks with_tasks] in Hl.
    destruct (decide (hid = _hashid cf)) as [->|Hh].
    + rewrite lookup_insert_eq in Hl. injection Hl as <-.
      apply register_sets_flag in Hreg as (f' & Hf' & Hreg').
      pose proof (Task_init_lookup _ _ _ _ _ _ _ _ Hinit)
        as (cf0 & Hcf0 & Htask & _). assert (cf0 = cf) as -> by congruence.
      assert (ext w1 wr) as He.
      { apply ext_csteps. eapply csteps_trans; [exact H1t|].
        apply hsteps_csteps, Htr. }
      exists f'. split; [exact Hf'|].
      split; [eapply ext_hashid; eassumption|].
      split; [|exact Hreg'].
      rewrite (ext_is_task _ _ _ _ _ He Hcf Hf'). exact Htask.
    + rewrite lookup_insert_ne in Hl by congruence.
      exact (Htabr self s hid t Hsr' Hl).
  - rewrite list_lookup_insert_ne in Hi by congruence.
    exact (Htabr i s' hid t Hi Hl).
Qed.


(* ===================================================================== *)
(** ** What [eval] keeps                                                  *)
(* ===================================================================== *)

Lemma table_kept_refl w : table_kept w w.
Proof. intros H. exact H. Qed.

Lemma table_kept_trans w1 w2 w3 :
  table_kept w1 w2 -> table_kept w2 w3 -> table_kept w1 w3.
Proof. intros H12 H23 H. apply H23, H12, H. Qed.

Lemma table_kept_csteps w w' : csteps w w' -> table_kept w w'.
Proof. intros Hc Ht. eapply table_keyed_csteps; eassumption. Qed.

Lemma table_kept_hsteps w w' : hsteps w w' -> table_kept w w'.
Proof. intros Hs. apply table_kept_csteps, hsteps_csteps, Hs. Qed.

Ltac ttriv :=
  first [ apply within_ret | apply within_raise | apply within_abort
        | apply within_assert | apply within_get | apply within_lift ];
  try (intros; apply table_kept_refl).
Ltac tbind :=
  apply (within_bind table_kept table_kept_trans);
  [
  | let a := fresh "a" in let w1 := fresh "w" in
    let Hm := fresh "Hm" in let Hw := fresh "Hw" in
    intros a w1 Hm Hw;
    try (apply get_Ok in Hm as [-> Hm]);
    try (apply assert_Ok in Hm as [Hm ->]);
    try (apply lift_Ok in Hm as [-> Hm]) ].
Ltac tbind' := tbind; [ttriv|].
Ltac by_hsteps_t := eapply within_weaken; [intros ?; apply table_kept_hsteps|].

Lemma update_session_tape_table self tape w :
  within table_kept (update_session self (with_task_tape tape)) w.
Proof.
  intros w' Hf Ht. unfold update_session in Hf.
  destruct (sessions w !! self) as [s|] eqn:E; [|discriminate].
  injection Hf as <-. intros i s' hid t Hi Hl. cbn [sessions set_sessions heap] in *.
  destruct (decide (i = self)) as [->|Hne].
  - rewrite list_lookup_insert_eq in Hi by (eapply lookup_lt_Some; exact E).
    injection Hi as <-. exact (Ht self s hid t E Hl).
  - rewrite list_lookup_insert_ne in Hi by congruence.
    exact (Ht i s' hid t Hi Hl).
Qed.

Lemma Rule_call_table `{Hashlib} `{SO : SetOrder} fuel rule args w :
  within table_kept (Rule_call fuel rule args) w.
Proof.
  unfold Rule_call. tbind.
  - intros w'. unfold Session_active. destruct (_active w); intros [= <-];
      apply table_kept_refl.
  - intros w' Hf Ht. eapply Session_create_task_table; eassumption.
Qed.

Lemma run_body_table `{Hashlib} `{Globals} `{SO : SetOrder} fuel p w :
  within table_kept (run_body fuel p) w.
Proof.
  revert w. induction p as [v|msg|name args k IH|fut key k IH]; intros w; simpl.
  - ttriv.
  - ttriv.
  - destruct (global_rule name); [|ttriv].
    tbind; [apply Rule_call_table | apply IH].
  - tbind; [by_hsteps_t; apply getitem_hsteps | apply IH].
Qed.

Lemma Session_record_table {A} self tape (body : M A) w :
  (forall w1, within table_kept body w1) ->
  within table_kept (Session_record self tape body) w.
Proof.
  intros Hbody. unfold Session_record.
  tbind; [apply update_session_tape_table|].
  apply (within_try_finally table_kept);
    [apply table_kept_refl | apply table_kept_trans | apply Hbody |].
  intros wb _. apply update_session_tape_table.
Qed.

Lemma Session_run_task_table `{Hashlib} `{Globals} `{SO : SetOrder} fuel self task allow w :
  within table_kept (Session_run_task fuel self task allow) w.
Proof.
  unfold Session_run_task. tbind'. tbind'.
  tbind; [destruct (negb allow); ttriv|].
  destruct (cls a); try ttriv.
  tbind.
  { apply (within_map_each table_kept);
      [apply table_kept_refl | apply table_kept_trans|].
    intros x v _ _. ttriv. }
  tbind; [apply run_body_table|].
  tbind'. destruct (negb (Future_ready a4)); [ttriv|].
  tbind.
  { destruct a3; try (tbind; [by_hsteps_t; apply Template_from_object_hsteps|];
                      tbind'; ttriv).
    ttriv. }
  destruct a5 as [fut|].
  - tbind'. tbind'.
    tbind; [by_hsteps_t; apply Task_set_future_result_hsteps|].
    tbind; [by_hsteps_t; apply Future_add_done_callback_hsteps|].
    tbind; [by_hsteps_t; apply register_hsteps | ttriv].
  - tbind; [by_hsteps_t; apply set_result_hsteps | ttriv].
Qed.

Lemma new_queue_hsteps w : within hsteps new_queue w.
Proof. intros w' [= <-]. apply hsteps_one. apply hs_queues. Qed.

Lemma popleft_hsteps queue w : within hsteps (popleft queue) w.
Proof.
  intros w'. unfold popleft.
  destruct (queues w !! queue) as [[|t q]|]; simpl; try discriminate;
    intros [= <-].
  - apply rtc_refl.
  - apply hsteps_one. apply hs_queues.
Qed.

Lemma eval_loop_table `{Hashlib} `{Globals} `{SO : SetOrder} fuel n self queue w :
  within table_kept (eval_loop fuel n self queue) w.
Proof.
  revert w. induction n as [|n IH]; intros w; simpl.
  - tbind; [by_hsteps_t; apply popleft_hsteps|]. destruct a; ttriv.
  - tbind; [by_hsteps_t; apply popleft_hsteps|]. destruct a as [task|]; [|ttriv].
    tbind'. tbind'.
    destruct (cls a); try ttriv.
    tbind.
    { apply Session_record_table. intros wb. apply Session_run_task_table. }
    tbind'. tbind.
    { destruct (negb (Future_done a2)); [|ttriv].
      tbind; [by_hsteps_t; apply Task_future_result_hsteps|].
      by_hsteps_t. apply schedule_tasks_hsteps. }
    apply IH.
Qed.

Lemma Session_eval_table `{Hashlib} `{Globals} `{SO : SetOrder} fuel self obj w :
  within table_kept (Session_eval fuel self obj) w.
Proof.
  unfold Session_eval. tbind.
  { destruct obj; try (tbind; [by_hsteps_t; apply Template_from_object_hsteps|];
                       tbind'; ttriv).
    ttriv. }
  destruct a as [fut|]; [|ttriv].
  tbind; [by_hsteps_t; apply register_hsteps|].
  tbind; [by_hsteps_t; apply new_queue_hsteps|].
  tbind; [by_hsteps_t; apply schedule_tasks_hsteps|].
  tbind; [apply eval_loop_table | ttriv].
Qed.

Lemma table_keyed_after_first_call : table_keyed_by_hashid after_first_call.
Proof.
  intros i s hid t Hi Hl.
  destruct i as [|i]; [|destruct i; discriminate Hi].
  vm_compute in Hi. injection Hi as <-.
  apply elem_of_map_to_list in Hl. vm_compute in Hl.
  apply list_elem_of_singleton in Hl. injection Hl as -> ->.
  eexists. split; [vm_compute; reflexivity|]. repeat split.
Qed.

(** X7: the task tables stay well keyed.  When every entry of every
    session is a registered task stored under its own hashid, this is so
    after [create_task] and after [eval], with all the rule bodies it runs
    and the tasks they create, whether the call returned or raised. *)
Theorem table_stays_keyed `{Hashlib} `{Globals} `{SO : SetOrder} (w : world) :
  table_keyed_by_hashid w ->
  (forall fuel self func args default label w',
      final (Session_create_task fuel self func args default label w) = Some w' ->
      table_keyed_by_hashid w') /\
  (forall fuel self obj w',
      final (Session_eval fuel self obj w) = Some w' ->
      table_keyed_by_hashid w').
Proof.
  intros Ht. split.
  - intros fuel self func args default label w' Hf.
    eapply Session_create_task_table; eassumption.
  - intros fuel self obj w' Hf.
    exact (Session_eval_table fuel self obj w w' Hf Ht).
Qed.

Lemma table_stays_keyed_witness :
  table_keyed_by_hashid after_second_call /\
  table_keyed_by_hashid after_eval_first.
Proof.
  pose proof (table_stays_keyed (H := demo_hashlib) (SO := insertion_order) (H0 := chain_globals)
                after_first_call table_keyed_after_first_call) as [Hc He].
  split.
  - apply (Hc 2%nat 0%nat setup_func [VInt 1] None None). vm_compute. reflexivity.
  - apply (He 10%nat 0%nat (VFut 1%nat)). vm_compute. reflexivity.
Defined.

(** X8: [eval] rewrites nothing that is settled.  Whether it returns or
    raises, every future that existed before is still there with the same
    hashid and of the same class; a result that was set is the result
    afterwards, and a registered future stays registered. *)
Theorem eval_never_rewrites `{Hashlib} `{Globals} `{SO : SetOrder}
  (fuel self : nat) (obj : pyval) (w w' : world) (r : ref) (f : future) :
  final (Session_eval fuel self obj w) = Some w' ->
  heap w !! r = Some f ->
  exists f',
    heap w' !! r = Some f' /\
    _hashid f' = _hashid f /\
    is_task f' = is_task f /\
    (forall v, _result f = Some v -> _result f' = Some v) /\
    (_registered f = true -> _registered f' = true).
Proof.
  intros Hfin Hf.
  assert (ext w w') as He by (apply ext_steps; eapply Session_eval_steps; exact Hfin).
  destruct (He r f Hf) as (f' & Hf' & (Hh & _) & Hres & Hreg & _).
  exists f'. split; [exact Hf'|]. split; [exact Hh|].
  split; [eapply ext_is_task; eassumption|]. split; assumption.
Qed.

Lemma eval_never_rewrites_witness :
  exists f',
    heap after_eval_first !! 0%nat = Some f' /\
    _hashid f' = _hashid done_template_one /\
    is_task f' = is_task done_template_one /\
    (forall v, _result done_template_one = Some v -> _result f' = Some v) /\
    (_registered done_template_one = true -> _registered f' = true).
Proof.
  apply (eval_never_rewrites (H := demo_hashlib) (SO := insertion_order) (H0 := chain_globals)
           10 0 (VFut 1%nat) after_first_call after_eval_first 0);
    vm_compute; reflexivity.
Defined.
